(** * COON: the browser compressor, the benchmark tables and the syntax check

    A shallow embedding of
    - [docs/lib/coon-browser.ts]   (abbreviation tables, [compressDart]),
    - [benchmarks/src/constants.ts] ([WIDGET_ABBREVIATIONS], [REVERSE_WIDGET_MAP]),
    - the benchmark normaliser     ([isValidCoonSyntax]),
    - the benchmark generator      ([getCompressor] and its callers).

    A JavaScript string is a sequence of UTF-16 code units; it is modelled as
    a list of code units ([N]).  Regular expressions are transcribed atom by
    atom into a small backtracking matcher, so that each pattern of the source
    can be read off its model. *)

From Stdlib Require Import List NArith ZArith Bool Ascii String Lia.
From Stdlib Require Import Floats.PrimFloat Numbers.Cyclic.Int63.Uint63.
From Stdlib Require Floats.SpecFloat Floats.FloatOps.
Import ListNotations.

(** ** JavaScript strings *)

Module JS.

Local Open Scope N_scope.

Definition char := N.
Definition jsstring := list char.

(** Code units of an ASCII literal. *)
Fixpoint str (s : string) : jsstring :=
  match s with
  | EmptyString => []
  | String a r => N_of_ascii a :: str r
  end.

Fixpoint streqb (a b : jsstring) : bool :=
  match a, b with
  | [], [] => true
  | x :: a', y :: b' => N.eqb x y && streqb a' b'
  | _, _ => false
  end.

Definition in_range (lo hi c : char) : bool := (N.leb lo c && N.leb c hi)%bool.

(** [\s], and the characters removed by [String.prototype.trim]:
    WhiteSpace and LineTerminator of ECMAScript. *)
Definition is_space (c : char) : bool :=
  (in_range 9 13 c || N.eqb c 32 || N.eqb c 160 || N.eqb c 5760
   || in_range 8192 8202 c || N.eqb c 8232 || N.eqb c 8233 || N.eqb c 8239
   || N.eqb c 8287 || N.eqb c 12288 || N.eqb c 65279)%bool.

Definition is_upper (c : char) : bool := in_range 65 90 c.
Definition is_lower (c : char) : bool := in_range 97 122 c.
Definition is_digit (c : char) : bool := in_range 48 57 c.

(** [\w] *)
Definition is_word (c : char) : bool :=
  (is_upper c || is_lower c || is_digit c || N.eqb c 95)%bool.

Definition any_char (_ : char) : bool := true.

Definition LF : char := 10.

(** The code unit of an ASCII character. *)
Definition ch (a : ascii) : char := N_of_ascii a.
Arguments ch a%_char.

Definition squote : char := 39.
Definition dquote : char := 34.

(** *** Regular expressions *)

(** The atoms that occur in the patterns of the source.  A pattern is a
    sequence of atoms. *)
Inductive atom :=
| Lit (c : char)                 (* a literal character *)
| Cls (p : char -> bool)         (* a character class, one character *)
| Star (p : char -> bool)        (* class*, greedy *)
| Plus (p : char -> bool)        (* class+, greedy *)
| Bnd                            (* \b *)
| Bol                            (* ^ (no m flag) *)
| Eol.                           (* $ (no m flag) *)

Definition regex := list atom.

Definition lits (s : jsstring) : regex := map Lit s.

Definition word_opt (o : option char) : bool :=
  match o with Some c => is_word c | None => false end.

(** A matcher is run at a position of the subject: [prev] is the character
    before the position (if any), [s] the rest of the subject.  It returns
    the length of the match. *)
Definition matcher := option char -> jsstring -> option nat.

(** Greedy repetition of a class with backtracking into the continuation. *)
Fixpoint star_match (p : char -> bool) (k : matcher) (prev : option char)
         (s : jsstring) : option nat :=
  match s with
  | c :: t =>
      if p c then
        match star_match p k (Some c) t with
        | Some n => Some (S n)
        | None => k prev s
        end
      else k prev s
  | [] => k prev s
  end.

Fixpoint match_here (r : regex) : matcher :=
  match r with
  | [] => fun _ _ => Some 0%nat
  | Lit c :: r' => fun _ s =>
      match s with
      | x :: t => if N.eqb x c then option_map S (match_here r' (Some x) t) else None
      | [] => None
      end
  | Cls p :: r' => fun _ s =>
      match s with
      | x :: t => if p x then option_map S (match_here r' (Some x) t) else None
      | [] => None
      end
  | Star p :: r' => star_match p (match_here r')
  | Plus p :: r' => fun _ s =>
      match s with
      | x :: t => if p x then option_map S (star_match p (match_here r') (Some x) t) else None
      | [] => None
      end
  | Bnd :: r' => fun prev s =>
      if xorb (word_opt prev) (word_opt (hd_error s)) then match_here r' prev s else None
  | Bol :: r' => fun prev s =>
      match prev with None => match_here r' prev s | Some _ => None end
  | Eol :: r' => fun prev s =>
      match s with [] => match_here r' prev s | _ :: _ => None end
  end.

(** [String.prototype.replace] with a global pattern and a constant
    replacement: matches are looked for from left to right in the subject;
    after a match the search resumes behind it ([skip] counts the characters
    of the match still to be dropped); after an empty match the next
    character is copied. *)
Fixpoint replace_go (m : matcher) (rep : jsstring) (prev : option char)
         (skip : nat) (s : jsstring) : jsstring :=
  match skip with
  | S k =>
      match s with
      | [] => []
      | c :: t => replace_go m rep (Some c) k t
      end
  | O =>
      match m prev s with
      | Some (S n) =>
          rep ++ match s with
                 | [] => []
                 | c :: t => replace_go m rep (Some c) n t
                 end
      | Some O =>
          rep ++ match s with
                 | [] => []
                 | c :: t => c :: replace_go m rep (Some c) 0%nat t
                 end
      | None =>
          match s with
          | [] => []
          | c :: t => c :: replace_go m rep (Some c) 0%nat t
          end
      end
  end.

Definition replace_all (r : regex) (rep : jsstring) (s : jsstring) : jsstring :=
  replace_go (match_here r) rep None 0%nat s.

(** [RegExp.prototype.test] for a pattern without flags g or y: is there a
    match at some position. *)
Fixpoint test_from (m : matcher) (prev : option char) (s : jsstring) : bool :=
  match m prev s with
  | Some _ => true
  | None =>
      match s with
      | [] => false
      | c :: t => test_from m (Some c) t
      end
  end.

Definition test (r : regex) (s : jsstring) : bool := test_from (match_here r) None s.

(** *** String methods *)

Fixpoint trimStart (s : jsstring) : jsstring :=
  match s with
  | c :: t => if is_space c then trimStart t else s
  | [] => []
  end.

(** Drops the trailing white space: a character is kept when something that
    is kept follows it, or when it is not white space. *)
Fixpoint trimEnd (s : jsstring) : jsstring :=
  match s with
  | [] => []
  | c :: t =>
      match trimEnd t with
      | [] => if is_space c then [] else [c]
      | t' => c :: t'
      end
  end.

Definition trim (s : jsstring) : jsstring := trimEnd (trimStart s).

(** [s.split(sep)] for a one-character separator: always at least one piece. *)
Fixpoint split (sep : char) (s : jsstring) : list jsstring :=
  match s with
  | [] => [[]]
  | c :: t =>
      if N.eqb c sep then [] :: split sep t
      else match split sep t with
           | l :: ls => (c :: l) :: ls
           | [] => [[c]]
           end
  end.

Fixpoint join (sep : jsstring) (l : list jsstring) : jsstring :=
  match l with
  | [] => []
  | [x] => x
  | x :: rest => x ++ sep ++ join sep rest
  end.

Definition includes (c : char) (s : jsstring) : bool := existsb (N.eqb c) s.

(** *** Objects used as string tables

    An object literal with string keys keeps its properties in insertion
    order; [Object.entries] lists them in that order. *)
Definition table := list (jsstring * jsstring).

Fixpoint get (o : table) (k : jsstring) : option jsstring :=
  match o with
  | [] => None
  | (k', v) :: o' => if streqb k' k then Some v else get o' k
  end.

(** Property assignment: an existing key keeps its place and takes the new
    value, a new key is appended. *)
Fixpoint set (o : table) (k v : jsstring) : table :=
  match o with
  | [] => [(k, v)]
  | (k', v') :: o' => if streqb k' k then (k', v) :: o' else (k', v') :: set o' k v
  end.

Definition fromEntries (l : list (jsstring * jsstring)) : table :=
  fold_left (fun o kv => set o (fst kv) (snd kv)) l [].

(** [Array.prototype.sort] is stable; with the comparator
    [(a, b) => b[0].length - a[0].length] it orders the entries by
    decreasing key length, entries of equal key length staying in their
    order.  Insertion sort from the right: an entry goes in front of the
    first entry that is not longer. *)
Fixpoint insert_by_length (e : jsstring * jsstring) (l : table) : table :=
  match l with
  | [] => [e]
  | x :: l' =>
      if Nat.ltb (List.length (fst e)) (List.length (fst x))
      then x :: insert_by_length e l'
      else e :: l
  end.

Definition sort_by_length_desc (l : table) : table :=
  fold_right insert_by_length [] l.

(** *** Numbers *)

Definition num (z : Z) : float := PrimFloat.of_uint63 (Uint63.of_Z z).

(** [Math.max(a, b)]: NaN when an argument is NaN. *)
Definition math_max (a b : float) : float :=
  if PrimFloat.is_nan a then a
  else if PrimFloat.is_nan b then b
  else if PrimFloat.ltb a b then b else a.

End JS.

(** ** docs/lib/coon-browser.ts *)

Module Browser.

Import JS.

Definition entry (full abbrev : string) : jsstring * jsstring := (str full, str abbrev).

Definition DART_WIDGETS : table :=
  [ entry "Scaffold" "S"; entry "Column" "C"; entry "Row" "R";
    entry "SafeArea" "A"; entry "Padding" "P"; entry "Text" "T";
    entry "AppBar" "B"; entry "SizedBox" "Z"; entry "TextField" "F";
    entry "ElevatedButton" "E"; entry "TextStyle" "Y";
    entry "InputDecoration" "D"; entry "OutlineInputBorder" "O";
    entry "TextEditingController" "X"; entry "Container" "K";
    entry "Center" "N"; entry "Expanded" "Ex"; entry "ListView" "L";
    entry "GridView" "G"; entry "Stack" "St"; entry "Positioned" "Ps";
    entry "Card" "Cd"; entry "IconButton" "Ib"; entry "Icon" "Ic";
    entry "FloatingActionButton" "Fb"; entry "CircularProgressIndicator" "Cp";
    entry "LinearProgressIndicator" "Lp"; entry "Drawer" "Dr";
    entry "BottomNavigationBar" "Bn"; entry "TabBar" "Tb";
    entry "TabBarView" "Tv"; entry "Image" "Im"; entry "Divider" "Dv";
    entry "Flexible" "Fl"; entry "Align" "Al"; entry "CustomScrollView" "Cv";
    entry "SingleChildScrollView" "Sv"; entry "TextFormField" "Tf";
    entry "TextButton" "Bt" ].

Definition DART_PROPERTIES : table :=
  [ entry "appBar:" "a:"; entry "body:" "b:"; entry "child:" "c:";
    entry "children:" "h:"; entry "title:" "t:"; entry "controller:" "r:";
    entry "padding:" "p:"; entry "onPressed:" "o:"; entry "style:" "s:";
    entry "fontSize:" "z:"; entry "fontWeight:" "w:"; entry "color:" "l:";
    entry "decoration:" "d:"; entry "labelText:" "L:"; entry "hintText:" "H:";
    entry "border:" "B:"; entry "height:" "e:"; entry "width:" "W:";
    entry "obscureText:" "x:"; entry "centerTitle:" "T:";
    entry "mainAxisAlignment:" "A:"; entry "crossAxisAlignment:" "X:";
    entry "minimumSize:" "M:"; entry "margin:" "m:"; entry "alignment:" "n:";
    entry "backgroundColor:" "bg:"; entry "onChanged:" "oc:";
    entry "builder:" "bl:"; entry "mainAxisSize:" "ms:";
    entry "crossAxisSize:" "xs:" ].

Definition DART_KEYWORDS : table :=
  [ entry "class" "c:"; entry "final" "f:"; entry "extends" "<";
    entry "import" "im:"; entry "return" "ret"; entry "async" "asy";
    entry "await" "awt"; entry "const" "cn:"; entry "static" "st:";
    entry "void" "v:"; entry "override" "ov:"; entry "implements" ">";
    entry "with" "+"; entry "Widget" "W"; entry "BuildContext" "ctx";
    entry "true" "1"; entry "false" "0"; entry "null" "_" ].

Definition REACT_HOOKS : table :=
  [ entry "useState" "us"; entry "useEffect" "ue"; entry "useContext" "uc";
    entry "useReducer" "ur"; entry "useCallback" "ucb"; entry "useMemo" "um";
    entry "useRef" "urf"; entry "useImperativeHandle" "uih";
    entry "useLayoutEffect" "ule"; entry "useDebugValue" "udv" ].

Definition JSX_ELEMENTS : table :=
  [ entry "button" "B"; entry "input" "I"; entry "form" "F";
    entry "label" "L"; entry "textarea" "TA"; entry "select" "SL";
    entry "option" "O" ].

Definition REACT_COMPONENTS : table :=
  [ entry "Fragment" "Fr"; entry "StrictMode" "SM"; entry "Suspense" "Su" ].

Definition REACT_PROPERTIES : table :=
  [ entry "className" "cn"; entry "onClick" "oc"; entry "onChange" "och";
    entry "onSubmit" "os"; entry "onFocus" "of"; entry "onBlur" "ob";
    entry "onKeyPress" "okp"; entry "onKeyDown" "okd"; entry "onKeyUp" "oku";
    entry "onMouseEnter" "ome"; entry "onMouseLeave" "oml";
    entry "children" "ch"; entry "style" "st"; entry "defaultValue" "dv";
    entry "checked" "chk"; entry "disabled" "dis"; entry "readOnly" "ro";
    entry "required" "req"; entry "placeholder" "ph"; entry "htmlFor" "hf";
    entry "tabIndex" "ti" ].

Definition JS_KEYWORDS : table :=
  [ entry "function" "fn:"; entry "const" "cn:"; entry "return" "ret";
    entry "export" "exp"; entry "import" "imp"; entry "default" "def";
    entry "async" "asn:"; entry "await" "awt"; entry "true" "1";
    entry "false" "0"; entry "null" "nul"; entry "undefined" "udf" ].

Inductive Language := dart | react.

Record CompressionResult := {
  compressedCode : jsstring;
  originalTokens : Z;
  compressedTokens : Z;
  percentageSaved : float;
  language : Language
}.

(** [Math.ceil(text.length / 4)]; the quotient and its ceiling are exact in
    double precision for every length a string can have. *)
Definition estimateTokens (text : jsstring) : Z :=
  (Z.of_nat (List.length text) + 3) / 4.

(** [escapeRegExp] puts a backslash before each of [. * + ? ^ $ { } ( ) | [ ] \];
    the pattern built from its result matches the given string literally. *)
Definition escapeRegExp_pattern (s : jsstring) : regex := lits s.

(** The first statement of [compressDart] and [compressReact]. *)
Definition strip_lines (code : jsstring) : jsstring :=
  join [LF]
    (filter (fun line => Nat.ltb 0 (List.length line))
       (map trim (split LF code))).

(** One pass [for (const [full, abbrev] of entries) compressed = compressed.replace(mk(full), abbrev)]. *)
Definition replace_entries (mk : jsstring -> regex) (entries : table)
    (compressed : jsstring) : jsstring :=
  fold_left (fun acc e => replace_all (mk (fst e)) (snd e) acc) entries compressed.

(** [new RegExp(`\\b${full}\\b`, "g")]; the keys it is used with are made of
    letters, so the pattern is the key between two word boundaries. *)
Definition whole_word (full : jsstring) : regex := Bnd :: lits full ++ [Bnd].

Definition sp_star : atom := Star is_space.
Definition sp_plus : atom := Plus is_space.

(** [/\s*text\s*/g] *)
Definition around (c : string) : regex := sp_star :: lits (str c) ++ [sp_star].

(** [/W\s+build\s*\(\s*ctx\s+context\s*\)/g] *)
Definition build_signature : regex :=
  lits (str "W") ++ [sp_plus] ++ lits (str "build") ++ [sp_star] ++
  lits (str "(") ++ [sp_star] ++ lits (str "ctx") ++ [sp_plus] ++
  lits (str "context") ++ [sp_star] ++ lits (str ")").

(** The chain of ten [replace] calls. *)
Definition tidy (compressed : jsstring) : jsstring :=
  let c1 := replace_all (around ":") (str ":") compressed in
  let c2 := replace_all (around "(") (str "(") c1 in
  let c3 := replace_all (around ")") (str ")") c2 in
  let c4 := replace_all (around "{") (str "{") c3 in
  let c5 := replace_all (around "}") (str "}") c4 in
  let c6 := replace_all (around ",") (str ",") c5 in
  let c7 := replace_all (around ";") (str ";") c6 in
  let c8 := replace_all (lits (str "@ov:") ++ [sp_star]) [] c7 in
  let c9 := replace_all build_signature (str "m:b") c8 in
  replace_all [Lit LF] [] c9.

Definition compressDart_text (code : jsstring) : jsstring :=
  let compressed := strip_lines code in
  let sortedWidgets := sort_by_length_desc DART_WIDGETS in
  let compressed := replace_entries whole_word sortedWidgets compressed in
  let compressed := replace_entries escapeRegExp_pattern DART_PROPERTIES compressed in
  let sortedKeywords := sort_by_length_desc DART_KEYWORDS in
  let compressed :=
    replace_entries (fun full => Bnd :: escapeRegExp_pattern full ++ [Bnd])
      sortedKeywords compressed in
  tidy compressed.

(** The chain of eleven [replace] calls of [compressReact]. *)
Definition tidy_react (compressed : jsstring) : jsstring :=
  let c1 := replace_all (around "=>") (str "=>") compressed in
  let c2 := replace_all (around "(") (str "(") c1 in
  let c3 := replace_all (around ")") (str ")") c2 in
  let c4 := replace_all (around "{") (str "{") c3 in
  let c5 := replace_all (around "}") (str "}") c4 in
  let c6 := replace_all (around ",") (str ",") c5 in
  let c7 := replace_all (around ";") (str ";") c6 in
  let c8 := replace_all (around "<") (str "<") c7 in
  let c9 := replace_all (around ">") (str ">") c8 in
  let c10 := replace_all (around "/>") (str "/>") c9 in
  replace_all [Lit LF] [] c10.

(** The two replacements made for one entry of [JSX_ELEMENTS]: the opening
    tag [<full\b] and the closing tag [</full>]. *)
Definition replace_element (compressed : jsstring) (e : jsstring * jsstring) : jsstring :=
  let (full, abbrev) := e in
  let compressed :=
    replace_all (lits (str "<") ++ lits full ++ [Bnd]) (str "<" ++ abbrev) compressed in
  replace_all (lits (str "</") ++ lits full ++ lits (str ">"))
    (str "</" ++ abbrev ++ str ">") compressed.

Definition compressReact_text (code : jsstring) : jsstring :=
  let compressed := strip_lines code in
  let sortedHooks := sort_by_length_desc REACT_HOOKS in
  let compressed := replace_entries whole_word sortedHooks compressed in
  let sortedComponents := sort_by_length_desc REACT_COMPONENTS in
  let compressed := replace_entries whole_word sortedComponents compressed in
  let compressed := fold_left replace_element JSX_ELEMENTS compressed in
  let sortedProps := sort_by_length_desc REACT_PROPERTIES in
  let compressed :=
    fold_left (fun acc e =>
                 replace_all (Bnd :: lits (fst e) ++ lits (str "="))
                   (snd e ++ str "=") acc)
      sortedProps compressed in
  let sortedKeywords := sort_by_length_desc JS_KEYWORDS in
  let compressed :=
    replace_entries (fun full => Bnd :: escapeRegExp_pattern full ++ [Bnd])
      sortedKeywords compressed in
  tidy_react compressed.

(** The result object that both compressors build. *)
Definition result_of (code compressed : jsstring) (l : Language) : CompressionResult :=
  let originalTokens := estimateTokens code in
  let compressedTokens := estimateTokens compressed in
  let percentageSaved :=
    PrimFloat.mul
      (PrimFloat.div (PrimFloat.sub (num originalTokens) (num compressedTokens))
         (num originalTokens))
      (num 100) in
  {| compressedCode := compressed;
     originalTokens := originalTokens;
     compressedTokens := compressedTokens;
     percentageSaved := math_max (num 0) percentageSaved;
     language := l |}.

Definition compressDart (code : jsstring) : CompressionResult :=
  result_of code (compressDart_text code) dart.

Definition compressReact (code : jsstring) : CompressionResult :=
  result_of code (compressReact_text code) react.

Definition compress (code : jsstring) (language : Language) : CompressionResult :=
  match language with
  | react => compressReact code
  | dart => compressDart code
  end.

End Browser.

(** ** benchmarks/src/constants.ts *)

Module Constants.

Import JS.

Definition abbr (short long : string) : jsstring * jsstring := (str short, str long).

(** Short code to widget name. *)
Definition WIDGET_ABBREVIATIONS : table :=
  [ abbr "S" "Scaffold"; abbr "C" "Column"; abbr "R" "Row"; abbr "T" "Text";
    abbr "K" "Container"; abbr "N" "Center"; abbr "P" "Padding";
    abbr "B" "AppBar"; abbr "E" "ElevatedButton"; abbr "F" "TextField";
    abbr "L" "ListView"; abbr "Z" "SizedBox"; abbr "Ic" "Icon";
    abbr "Cd" "Card"; abbr "St" "Stack"; abbr "Wr" "Wrap";
    abbr "Sw" "SingleChildScrollView"; abbr "Gi" "GestureDetector";
    abbr "In" "InkWell"; abbr "An" "AnimatedContainer"; abbr "Tr" "Transform";
    abbr "Op" "Opacity"; abbr "Cl" "ClipRRect"; abbr "Im" "Image";
    abbr "Ci" "CircleAvatar"; abbr "Li" "ListTile"; abbr "Ds" "Dismissible";
    abbr "Dr" "Drawer"; abbr "Tb" "TabBar"; abbr "Tv" "TabBarView";
    abbr "Fa" "FloatingActionButton"; abbr "Ib" "IconButton";
    abbr "Tb2" "TextButton"; abbr "Ob" "OutlinedButton";
    abbr "Dd" "DropdownButton"; abbr "Sw2" "Switch"; abbr "Cb" "Checkbox";
    abbr "Rd" "Radio"; abbr "Sl" "Slider";
    abbr "Pr" "CircularProgressIndicator";
    abbr "Pr2" "LinearProgressIndicator"; abbr "Dv" "Divider";
    abbr "Sp" "Spacer"; abbr "Ex" "Expanded"; abbr "Fl" "Flexible";
    abbr "Al" "Align"; abbr "Ps" "Positioned"; abbr "As" "AspectRatio";
    abbr "Fr" "FractionallySizedBox"; abbr "Cn" "ConstrainedBox";
    abbr "Sz" "SizedBox"; abbr "Ls" "LimitedBox"; abbr "Ov" "OverflowBox";
    abbr "Gv" "GridView"; abbr "Pb" "PageView"; abbr "Nv" "Navigator";
    abbr "Rt" "Route"; abbr "Mr" "MaterialPageRoute"; abbr "Al2" "AlertDialog";
    abbr "Sd" "SimpleDialog"; abbr "Bs" "BottomSheet"; abbr "Sb" "SnackBar";
    abbr "Pp" "PopupMenuButton"; abbr "Mn" "Menu" ].

(** [Object.fromEntries(Object.entries(o).map(([k, v]) => [v, k]))] *)
Definition reverse_map (o : table) : table :=
  fromEntries (map (fun kv => (snd kv, fst kv)) o).

Definition REVERSE_WIDGET_MAP : table := reverse_map WIDGET_ABBREVIATIONS.

End Constants.

(** ** The benchmark normaliser: [isValidCoonSyntax] *)

Module Normalize.

Import JS.

Local Open Scope Z_scope.

Definition bump (char open close : char) (count : Z) : Z :=
  let count := if N.eqb char open then count + 1 else count in
  if N.eqb char close then count - 1 else count.

(** The loop over the characters of [trimmed]; [None] is the [return false]
    inside the loop.  The loop of the source steps by code point; a code unit
    of a surrogate pair is none of the four characters compared with, so the
    counters take the same values when stepping by code unit. *)
Fixpoint count_loop (s : jsstring) (braceCount bracketCount : Z) : option (Z * Z) :=
  match s with
  | [] => Some (braceCount, bracketCount)
  | char :: rest =>
      let braceCount := bump char (ch "{") (ch "}") braceCount in
      let bracketCount := bump char (ch "[") (ch "]") bracketCount in
      if (braceCount <? 0) || (bracketCount <? 0) then None
      else count_loop rest braceCount bracketCount
  end.

Definition not_char (c x : char) : bool := negb (N.eqb x c).

Definition validPatterns : list regex :=
  [ (* /^[A-Z][a-z]*\{.*\}$/s *)
    [Bol; Cls is_upper; Star is_lower; Lit (ch "{"); Star any_char; Lit (ch "}"); Eol];
    (* ^[A-Z] Q [^Q]* Q $ with Q the single quote *)
    [Bol; Cls is_upper; Lit squote; Star (not_char squote); Lit squote; Eol];
    (* ^[A-Z] Q [^Q]* Q $ with Q the double quote *)
    [Bol; Cls is_upper; Lit dquote; Star (not_char dquote); Lit dquote; Eol];
    (* /^c:\w+<\w+>/ *)
    [Bol; Lit (ch "c"); Lit (ch ":"); Plus is_word; Lit (ch "<"); Plus is_word; Lit (ch ">")];
    (* /^[A-Z][a-z]*$/ *)
    [Bol; Cls is_upper; Star is_lower; Eol] ].

(** [/^[A-Zc]/] *)
Definition capital_or_c : regex :=
  [Bol; Cls (fun x => is_upper x || N.eqb x (ch "c"))].

Definition isValidCoonSyntax (code : jsstring) : bool :=
  let trimmed := trim code in
  match count_loop trimmed 0 0 with
  | None => false
  | Some (braceCount, bracketCount) =>
      if negb (braceCount =? 0) || negb (bracketCount =? 0) then false
      else if negb (includes (ch ";") trimmed) && negb (includes LF trimmed) then
        let hasValidPattern := existsb (fun p => test p trimmed) validPatterns in
        if negb hasValidPattern && Nat.ltb 0 (List.length trimmed) then
          if negb (test capital_or_c trimmed) then false else true
        else true
      else true
  end.

End Normalize.

(** ** The benchmark generator: the compressor singleton *)

Module Generator.

Import JS.

(** The strategies of the SDK ([coon-format]); the generator names
    [COMPONENT_REF], the others are those of the project documentation. *)
Inductive CompressionStrategyType := BASIC | AGGRESSIVE | AST_BASED | COMPONENT_REF.

(** The options object given to the constructor of [Compressor]. *)
Record CompressorOptions := {
  strategy : CompressionStrategyType;
  language : jsstring
}.

(** A call of one of the exported functions. *)
Inductive call :=
| CompressToCoon (dartCode : jsstring)
| CompressToCoonWithStrategy (dartCode : jsstring) (strategy : CompressionStrategyType)
| GetCompressionStats (dartCode : jsstring)
| BatchCompress (dartCodes : list jsstring)
| ResetCompressor.

Section SDK.

(** The class [Compressor] of the SDK and the result of its method
    [compress] are not part of the benchmark sources: they are parameters.
    [Compressor] is the state of an instance and [new_Compressor] the
    constructor; the method [compress] gives its result and the state it
    leaves the instance in (an instance may keep a component registry and
    metrics, as the documentation of the SDK says). *)
Variable Compressor : Type.
Variable Result : Type.
Variable new_Compressor : CompressorOptions -> Compressor.
Variable compressedCode : Result -> jsstring.
Variable compress :
  Compressor -> jsstring -> option CompressionStrategyType -> Result * Compressor.

(** [let compressor: Compressor | null = null]: the instance the variable
    refers to, in the state it is in. *)
Definition module_state := option Compressor.

Definition initial : module_state := None.

(** Returns the instance and the value of the module variable afterwards. *)
Definition getCompressor (compressor : module_state) : Compressor * module_state :=
  match compressor with
  | None =>
      let c := new_Compressor {| strategy := COMPONENT_REF; language := str "dart" |} in
      (c, Some c)
  | Some c => (c, Some c)
  end.

Definition resetCompressor (_ : module_state) : module_state := None.

(** In the functions below the instance that [getCompressor()] returns is
    the object the module variable refers to: the variable sees the state in
    which [compress] leaves it. *)
Definition compressToCoon (st : module_state) (dartCode : jsstring)
  : jsstring * module_state :=
  let (c, _) := getCompressor st in
  let (result, c') := compress c dartCode None in
  (compressedCode result, Some c').

Definition compressToCoonWithStrategy (st : module_state) (dartCode : jsstring)
    (strategy : CompressionStrategyType) : jsstring * module_state :=
  let (c, _) := getCompressor st in
  let (result, c') := compress c dartCode (Some strategy) in
  (compressedCode result, Some c').

(** The object returned holds [dartCode] and fields of the result. *)
Definition getCompressionStats (st : module_state) (dartCode : jsstring)
  : (jsstring * Result) * module_state :=
  let (c, _) := getCompressor st in
  let (result, c') := compress c dartCode None in
  ((dartCode, result), Some c').

(** [dartCodes.map(code => comp.compress(code).compressedCode)]: one
    invocation after the other on the instance [comp]. *)
Definition batchCompress (st : module_state) (dartCodes : list jsstring)
  : list jsstring * module_state :=
  let (comp, _) := getCompressor st in
  let (outputs, comp') :=
    fold_left (fun acc code =>
                 let (result, c') := compress (snd acc) code None in
                 (fst acc ++ [compressedCode result], c'))
      dartCodes ([], comp) in
  (outputs, Some comp').

Definition step (st : module_state) (c : call) : module_state :=
  match c with
  | CompressToCoon d => snd (compressToCoon st d)
  | CompressToCoonWithStrategy d s => snd (compressToCoonWithStrategy st d s)
  | GetCompressionStats d => snd (getCompressionStats st d)
  | BatchCompress ds => snd (batchCompress st ds)
  | ResetCompressor => resetCompressor st
  end.

Definition run (history : list call) : module_state := fold_left step history initial.

End SDK.

Arguments initial {Compressor}.
Arguments getCompressor {Compressor}.
Arguments resetCompressor {Compressor}.
Arguments compressToCoon {Compressor Result}.
Arguments compressToCoonWithStrategy {Compressor Result}.
Arguments getCompressionStats {Compressor Result}.
Arguments batchCompress {Compressor Result}.
Arguments step {Compressor Result}.
Arguments run {Compressor Result}.

End Generator.

(** ** Vocabulary of the properties *)

Module Props.

Import JS.

(** [quoted s] is [s] between double quotes. *)
Definition quoted (s : jsstring) : jsstring := dquote :: s ++ [dquote].

(** The contents of the double-quoted string literals of a text, from left
    to right (a literal left open at the end of the text is not listed). *)
Fixpoint literals_go (inside : bool) (cur : jsstring) (s : jsstring) : list jsstring :=
  match s with
  | [] => []
  | c :: t =>
      if N.eqb c dquote then
        if inside then rev cur :: literals_go false [] t
        else literals_go true [] t
      else literals_go inside (if inside then c :: cur else cur) t
  end.

Definition literals (s : jsstring) : list jsstring := literals_go false [] s.

(** Number of occurrences, and the excess of opening over closing
    characters. *)
Definition occ (c : char) (s : jsstring) : Z := Z.of_nat (count_occ N.eq_dec s c).

Definition depth (open close : char) (s : jsstring) : Z := (occ open s - occ close s)%Z.

(** Braces and brackets are balanced, and no prefix closes more than it
    has opened. *)
Definition Balanced (s : jsstring) : Prop :=
  (forall p q, s = p ++ q ->
     (0 <= depth (ch "{") (ch "}") p)%Z /\ (0 <= depth (ch "[") (ch "]") p)%Z)
  /\ depth (ch "{") (ch "}") s = 0%Z
  /\ depth (ch "[") (ch "]") s = 0%Z.

(** Braces and brackets nest: each closing character closes the opening
    character that was opened last and is still open, and nothing is left
    open.  [stack] holds the closing characters that are awaited. *)
Fixpoint nested (stack : list char) (s : jsstring) : bool :=
  match s with
  | [] => match stack with [] => true | _ :: _ => false end
  | c :: t =>
      if N.eqb c (ch "{") then nested (ch "}" :: stack) t
      else if N.eqb c (ch "[") then nested (ch "]" :: stack) t
      else if (N.eqb c (ch "}") || N.eqb c (ch "]"))%bool then
        match stack with
        | x :: stack' => (N.eqb x c && nested stack' t)%bool
        | [] => false
        end
      else nested stack t
  end.

Definition well_nested (s : jsstring) : bool := nested [] s.

(** The error kinds of a [ParseError]. *)
Inductive ParseErrorKind :=
| UnterminatedString | UnbalancedBracket | UnknownShortCode
| UnknownReferenceId | UnexpectedToken.

Definition prefix_of (a b : jsstring) : Prop := exists r, b = a ++ r.

(** The tokens of a source text, from left to right: the words (maximal
    runs of word characters), the double-quoted literals with their content
    as it is, and each other character that is not white space.  White
    space outside the literals only separates tokens. *)
Inductive lexer_state :=
| Between
| InWord (w : jsstring)        (* the word read so far, last character first *)
| InLiteral (w : jsstring).    (* the literal read so far, last character first *)

Definition pending (st : lexer_state) : list jsstring :=
  match st with
  | InWord w => [rev w]
  | Between | InLiteral _ => []
  end.

Fixpoint tokens_go (st : lexer_state) (s : jsstring) : list jsstring :=
  match s with
  | [] =>
      match st with
      | InLiteral w => [dquote :: rev w]
      | _ => pending st
      end
  | c :: t =>
      match st with
      | InLiteral w =>
          if N.eqb c dquote then (dquote :: rev (c :: w)) :: tokens_go Between t
          else tokens_go (InLiteral (c :: w)) t
      | _ =>
          if is_word c then
            tokens_go (InWord (c :: match st with InWord w => w | _ => [] end)) t
          else
            pending st ++
            (if N.eqb c dquote then tokens_go (InLiteral []) t
             else if is_space c then tokens_go Between t
             else [c] :: tokens_go Between t)
      end
  end.

Definition tokens (s : jsstring) : list jsstring := tokens_go Between s.

(** Two sources are the same up to layout: they have the same tokens. *)
Definition same_tokens (a b : jsstring) : Prop := tokens a = tokens b.

(** The invariant of a symbol table category, on its (long, short) entries:
    long to short and short to long are functions, and no short form is a
    prefix of another one. *)
Definition symbol_table_invariant (entries : list (jsstring * jsstring)) : Prop :=
  NoDup (map fst entries)
  /\ NoDup (map snd entries)
  /\ (forall a b, In a (map snd entries) -> In b (map snd entries) ->
        a <> b -> ~ prefix_of a b).

Definition swap (e : jsstring * jsstring) : jsstring * jsstring := (snd e, fst e).

Fixpoint mem (x : jsstring) (l : list jsstring) : bool :=
  match l with
  | [] => false
  | y :: l' => streqb y x || mem x l'
  end.

Fixpoint nodupb (l : list jsstring) : bool :=
  match l with
  | [] => true
  | x :: l' => negb (mem x l') && nodupb l'
  end.

(** The Dart expression [Text(Q content Q)], Q the double quote. *)
Definition text_of (content : string) : jsstring :=
  str "Text(" ++ quoted (str content) ++ str ")".

(** A widget name is looked up in the widget table in type position only:
    as the key of a property ([name: rest]) it is left as it is. *)
Definition key_position_untouched (name rest : jsstring) : Prop :=
  prefix_of (name ++ [ch ":"])
    (Browser.compressedCode (Browser.compressDart (name ++ [ch ":"] ++ rest))).

(** The content of a string literal is left as it is: the compressed
    [Text(Q content Q)] has one literal, [content]. *)
Definition literal_untouched (content : string) : Prop :=
  literals (Browser.compressedCode (Browser.compressDart (text_of content)))
  = [str content].

Definition spaces (w : jsstring) : Prop := Forall (fun c => is_space c = true) w.

Definition starts_capital_or_c (t : jsstring) : Prop :=
  exists c r, t = c :: r /\ (is_upper c || N.eqb c (ch "c"))%bool = true.

(** The leading short code of a document: its longest prefix of word
    characters. *)
Fixpoint leading_code (doc : jsstring) : jsstring :=
  match doc with
  | c :: t => if is_word c then c :: leading_code t else []
  | [] => []
  end.

(** A document whose leading short code is not in the widget table is not
    accepted by the syntax check. *)
Definition unknown_code_rejected (doc : jsstring) : Prop :=
  get Constants.WIDGET_ABBREVIATIONS (leading_code doc) = None ->
  Normalize.isValidCoonSyntax doc = false.

(** A document whose braces and brackets do not nest is not accepted by
    the syntax check. *)
Definition unbalanced_rejected (doc : jsstring) : Prop :=
  well_nested doc = false -> Normalize.isValidCoonSyntax doc = false.

(** The verdict of the syntax check on a document, read through
    [kind_of], is the error kind [UnbalancedBracket] exactly when the braces
    and brackets of the document do not nest. *)
Definition verdict_tells_unbalanced (kind_of : bool -> option ParseErrorKind)
    (doc : jsstring) : Prop :=
  kind_of (Normalize.isValidCoonSyntax doc) = Some UnbalancedBracket
  <-> well_nested doc = false.

(** The options the generator builds its compressor from. *)
Definition default_options : Generator.CompressorOptions :=
  {| Generator.strategy := Generator.COMPONENT_REF;
     Generator.language := str "dart" |}.

(** No state outlives a call: getting the compressor leaves the module
    variable as it was. *)
Definition no_cross_call_state {Compressor : Type}
    (new_Compressor : Generator.CompressorOptions -> Compressor)
    (st : Generator.module_state Compressor) : Prop :=
  snd (Generator.getCompressor new_Compressor st) = st.

(** An SDK whose instances keep nothing: an instance is the options it was
    built from. *)
Definition plain_Compressor (o : Generator.CompressorOptions)
  : Generator.CompressorOptions := o.

(** The invocations of [compress] that a call makes: the code and the
    strategy given, in order. *)
Definition invocations (c : Generator.call)
  : list (jsstring * option Generator.CompressionStrategyType) :=
  match c with
  | Generator.CompressToCoon d => [(d, None)]
  | Generator.CompressToCoonWithStrategy d s => [(d, Some s)]
  | Generator.GetCompressionStats d => [(d, None)]
  | Generator.BatchCompress ds => map (fun d => (d, None)) ds
  | Generator.ResetCompressor => []
  end.

(** The calls made since the last [resetCompressor]. *)
Definition since_reset_go (recent : list Generator.call) (history : list Generator.call)
  : list Generator.call :=
  fold_left (fun recent c =>
               match c with
               | Generator.ResetCompressor => []
               | _ => recent ++ [c]
               end)
    history recent.

Definition since_reset (history : list Generator.call) : list Generator.call :=
  since_reset_go [] history.

(** The state of an instance after a sequence of invocations. *)
Definition invoke {Compressor Result : Type}
    (compress : Compressor -> jsstring -> option Generator.CompressionStrategyType
                -> Result * Compressor)
    (c : Compressor) (l : list (jsstring * option Generator.CompressionStrategyType))
  : Compressor :=
  fold_left (fun c inv => snd (compress c (fst inv) (snd inv))) l c.

(** The module variable after the calls [recent], made on a module whose
    variable was null: null when there was no call, and otherwise the
    instance built from the default options, after the invocations of
    these calls. *)
Definition instance_after {Compressor Result : Type}
    (new_Compressor : Generator.CompressorOptions -> Compressor)
    (compress : Compressor -> jsstring -> option Generator.CompressionStrategyType
                -> Result * Compressor)
    (recent : list Generator.call) : Generator.module_state Compressor :=
  match recent with
  | [] => None
  | _ :: _ => Some (invoke compress (new_Compressor default_options)
                      (flat_map invocations recent))
  end.

End Props.

(** ** Words and punctuation *)

Module Words.

Import JS Props.

Definition word (s : jsstring) : Prop := Forall (fun c => is_word c = true) s.
Definition nonword (s : jsstring) : Prop := Forall (fun c => is_word c = false) s.
Definition nospace (s : jsstring) : Prop := Forall (fun c => is_space c = false) s.

Definition wordb (s : jsstring) : bool := forallb is_word s.
Definition nonemptyb (s : jsstring) : bool := match s with [] => false | _ => true end.

Definition is_punct (c : char) : bool := negb (is_word c) && negb (is_space c).

(** A text of characters that are neither word characters nor white space:
    quotes, parentheses, colons, brackets and the like. *)
Definition inert (s : jsstring) : Prop := Forall (fun c => is_punct c = true) s.

(** Maps the words of a text (its maximal runs of word characters) through
    [f] and keeps every other character.  [inside] says that the word the
    next character belongs to has been dealt with. *)
Fixpoint map_words_go (f : jsstring -> jsstring) (inside : bool) (s : jsstring) : jsstring :=
  match s with
  | [] => []
  | c :: t =>
      if is_word c then
        if inside then map_words_go f true t
        else f (leading_code s) ++ map_words_go f true t
      else c :: map_words_go f false t
  end.

Definition map_words (f : jsstring -> jsstring) (s : jsstring) : jsstring :=
  map_words_go f false s.

(** The short form a table gives for a word, or the word itself. *)
Definition abbreviate (t : table) (w : jsstring) : jsstring :=
  match get t w with Some a => a | None => w end.

(** What one pass [replace(/\bN\b/g, A)] does to a word. *)
Definition one_word (N A w : jsstring) : jsstring := if streqb w N then A else w.

(** What a sequence of such passes does to a word. *)
Definition fold_word (entries : table) (w : jsstring) : jsstring :=
  fold_left (fun x e => one_word (fst e) (snd e) x) entries w.

(** A function that maps words to words. *)
Definition keeps_words (f : jsstring -> jsstring) : Prop :=
  forall w, w <> [] -> word w -> f w <> [] /\ word (f w).

(** Keys and values of a table are words. *)
Definition word_entries (entries : table) : bool :=
  forallb (fun e => nonemptyb (fst e) && wordb (fst e) && nonemptyb (snd e) && wordb (snd e))
    entries.

(** No value of a table is one of its keys. *)
Definition values_not_keys (entries : table) : bool :=
  forallb (fun e => negb (mem (snd e) (map fst entries))) entries.

Definition colon : char := ch ":".

Definition colon_next (post : jsstring) : bool :=
  match post with c :: _ => N.eqb c colon | [] => false end.

(** [replace_tail w a u]: the word [u] with its ending [w] replaced by [a],
    or [u] when it does not end with [w]. *)
Fixpoint replace_tail (w a u : jsstring) : jsstring :=
  match u with
  | [] => []
  | c :: t => if streqb (c :: t) w then a else c :: replace_tail w a t
  end.

(** What the passes for the keys of a table, each a word and a colon, do to
    a word that a colon follows ([colon_after]) or not. *)
Definition fold_tail (colon_after : bool) (entries : table) (u : jsstring) : jsstring :=
  fold_left (fun x e =>
               if colon_after then replace_tail (removelast (fst e)) (removelast (snd e)) x
               else x)
    entries u.

(** Keys and values of a table are a word and a colon. *)
Definition colon_entries (entries : table) : bool :=
  forallb (fun e =>
             N.eqb (last (fst e) 0%N) colon && nonemptyb (removelast (fst e))
             && wordb (removelast (fst e))
             && N.eqb (last (snd e) 0%N) colon && nonemptyb (removelast (snd e))
             && wordb (removelast (snd e)))
    entries.

End Words.

From Stdlib Require Import Sorting.Permutation.

(** ** More of the JavaScript library *)

Module JSLib.

Import JS.

(** [RegExp.prototype.exec] for a pattern without flags g or y: the index
    and the length of the leftmost match. *)
Fixpoint exec_from (m : matcher) (prev : option char) (s : jsstring)
  : option (nat * nat) :=
  match m prev s with
  | Some n => Some (0%nat, n)
  | None =>
      match s with
      | [] => None
      | c :: t =>
          match exec_from m (Some c) t with
          | Some (i, n) => Some (S i, n)
          | None => None
          end
      end
  end.

Definition exec (r : regex) (s : jsstring) : option (nat * nat) :=
  exec_from (match_here r) None s.

(** [s.match(r)] for such a pattern, as far as element 0 of its result. *)
Definition match_first (r : regex) (s : jsstring) : option jsstring :=
  match exec r s with
  | Some (i, n) => Some (firstn n (skipn i s))
  | None => None
  end.

(** [s.replace(r, rep)] for such a pattern: the leftmost match only. *)
Definition replace_first (r : regex) (rep : jsstring) (s : jsstring) : jsstring :=
  match exec r s with
  | Some (i, n) => firstn i s ++ rep ++ skipn (i + n) s
  | None => s
  end.

Fixpoint startsWith (s p : jsstring) : bool :=
  match p, s with
  | [], _ => true
  | x :: p', y :: s' => N.eqb y x && startsWith s' p'
  | _ :: _, [] => false
  end.

(** [s.includes(sub)] for a string argument. *)
Fixpoint includes_str (s sub : jsstring) : bool :=
  startsWith s sub ||
  match s with
  | [] => false
  | _ :: t => includes_str t sub
  end.

(** [s.slice(n)] for an index [n] that is not negative. *)
Definition slice_from (n : nat) (s : jsstring) : jsstring := skipn n s.

(** [array.includes(x)] on an array of strings. *)
Definition array_includes (l : list jsstring) (x : jsstring) : bool :=
  existsb (fun y => streqb y x) l.

(** [new Set(iterable)] on strings: each element is added in turn, an
    element already present is not added again; the set is listed in
    insertion order. *)
Definition set_add (acc : list jsstring) (x : jsstring) : list jsstring :=
  if array_includes acc x then acc else acc ++ [x].

Definition new_Set (l : list jsstring) : list jsstring := fold_left set_add l [].

(** Reading [o[k]] on an object literal used as a table: an own property
    gives its string; otherwise the property is looked for on
    [Object.prototype], whose members are objects and functions. *)
Inductive jsvalue :=
| Str (s : jsstring)
| Inherited (name : jsstring)
| Undefined.

Definition object_prototype_names : list jsstring :=
  map str
    [ "constructor"; "hasOwnProperty"; "isPrototypeOf"; "propertyIsEnumerable";
      "toLocaleString"; "toString"; "valueOf"; "__proto__";
      "__defineGetter__"; "__defineSetter__"; "__lookupGetter__";
      "__lookupSetter__" ]%string.

Definition read (o : table) (k : jsstring) : jsvalue :=
  match get o k with
  | Some v => Str v
  | None => if array_includes object_prototype_names k then Inherited k else Undefined
  end.

Definition truthy (v : jsvalue) : bool :=
  match v with
  | Str [] => false
  | Str (_ :: _) => true
  | Inherited _ => true
  | Undefined => false
  end.

(** A Number as [parseInt] returns it: an IEEE 754 binary64 value. *)
Definition Number := SpecFloat.spec_float.

Definition NaN : Number := SpecFloat.S754_nan.

Definition isNaN (x : Number) : bool :=
  match x with SpecFloat.S754_nan => true | _ => false end.

(** The Number for an integer: the binary64 value nearest to it, ties to
    even, an infinity when it is too large; [negative] is the sign read,
    which a zero keeps.  (Beyond the 20th digit the language lets an
    implementation read zeros; Node rounds the integer as it is written.) *)
Definition to_Number (negative : bool) (mathInt : Z) : Number :=
  SpecFloat.binary_normalize FloatOps.prec FloatOps.emax
    (if negative then (- mathInt)%Z else mathInt) 0 negative.

(** The integer that a run of decimal digits denotes. *)
Fixpoint digits_value (acc : Z) (s : jsstring) : Z :=
  match s with
  | c :: t => if is_digit c then digits_value (10 * acc + Z.of_N (c - 48)) t else acc
  | [] => acc
  end.

(** [parseInt(s, 10)]: white space is skipped, a sign is read, then the
    longest run of decimal digits; the result is NaN when there is no
    digit, and otherwise the Number for the integer read. *)
Definition parseInt10 (s : jsstring) : Number :=
  let s := trimStart s in
  let (negative, s) :=
    match s with
    | c :: t => if N.eqb c (ch "-") then (true, t)
                else if N.eqb c (ch "+") then (false, t) else (false, s)
    | [] => (false, s)
    end in
  match s with
  | c :: _ => if is_digit c then to_Number negative (digits_value 0 s) else NaN
  | [] => NaN
  end.

(** A case mapping on the ASCII letters, for examples. *)
Definition ascii_lower (s : jsstring) : jsstring :=
  map (fun c => if is_upper c then (c + 32)%N else c) s.

Definition ascii_upper (s : jsstring) : jsstring :=
  map (fun c => if is_lower c then (c - 32)%N else c) s.

End JSLib.

(** ** The benchmark normaliser: answers *)

Module Answers.

Import JS JSLib.

(** The answer types ['integer'], ['number'], ['boolean'], ['string'],
    ['widget-name'], ['csv-list-ordered'], ['csv-list-unordered']. *)
Inductive AnswerType :=
| integer | number | boolean | string_answer | widget_name
| csv_list_ordered | csv_list_unordered.

Section CaseMapping.

(** [String.prototype.toLowerCase] and [toUpperCase] apply the Unicode case
    mappings; they are parameters. *)
Variable toLowerCase : jsstring -> jsstring.
Variable toUpperCase : jsstring -> jsstring.

(** [/\s+/g] *)
Definition space_run : regex := [Plus is_space].

Definition normalizeString (value : jsstring) (caseSensitive : bool) : jsstring :=
  let normalized := trim value in
  let normalized := if negb caseSensitive then toLowerCase normalized else normalized in
  replace_all space_run (str " ") normalized.

Definition normalizeBoolean (value : jsstring) : option bool :=
  let lower := trim (toLowerCase value) in
  if array_includes (map str ["yes"; "true"; "1"; "y"]%string) lower then Some true
  else if array_includes (map str ["no"; "false"; "0"; "n"]%string) lower then Some false
  else None.

(** [/[^\d-]/g] *)
Definition not_digit_or_minus (c : char) : bool :=
  negb (is_digit c || N.eqb c (ch "-")).

Definition normalizeInteger (value : jsstring) : option Number :=
  let cleaned := replace_all [Cls not_digit_or_minus] [] value in
  let num := parseInt10 cleaned in
  if isNaN num then None else Some num.

Definition normalizeWidgetName (name : jsstring) : jsvalue :=
  let trimmed := trim name in
  if truthy (read Constants.WIDGET_ABBREVIATIONS trimmed) then
    read Constants.WIDGET_ABBREVIATIONS trimmed
  else
    Str (toUpperCase (firstn 1 trimmed) ++ toLowerCase (slice_from 1 trimmed)).

Definition parseCSV (value : jsstring) : list jsstring :=
  filter (fun s => Nat.ltb 0 (List.length s))
    (map trim (split (ch ",") value)).

(** [a.every((val, idx) => normalizeString(val) === normalizeString(b[idx]))]
    once the lengths are equal. *)
Fixpoint every_equal (a b : list jsstring) : bool :=
  match a, b with
  | x :: a', y :: b' =>
      streqb (normalizeString x false) (normalizeString y false) && every_equal a' b'
  | [], _ => true
  | _ :: _, [] => false
  end.

Definition arraysEqual (a b : list jsstring) : bool :=
  if negb (Nat.eqb (List.length a) (List.length b)) then false
  else every_equal a b.

Definition setsEqual (a b : list jsstring) : bool :=
  if negb (Nat.eqb (List.length a) (List.length b)) then false
  else
    let setA := new_Set (map (fun s => normalizeString s false) a) in
    let setB := new_Set (map (fun s => normalizeString s false) b) in
    if negb (Nat.eqb (List.length setA) (List.length setB)) then false
    else forallb (fun item => array_includes setB item) setA.

Definition prefixes : list jsstring :=
  map str
    [ "the answer is"; "answer:"; "result:"; "output:"; "the widgets are";
      "the widget is"; "the value is"; "the text is"; "the title is" ]%string.

(** The loop over [prefixes]: the first prefix that [lowerCleaned] starts
    with is cut off [cleaned]. *)
Fixpoint strip_prefix (ps : list jsstring) (lowerCleaned cleaned : jsstring) : jsstring :=
  match ps with
  | [] => cleaned
  | prefix :: ps' =>
      if startsWith lowerCleaned prefix
      then trim (slice_from (List.length prefix) cleaned)
      else strip_prefix ps' lowerCleaned cleaned
  end.

Definition is_end_mark (c : char) : bool :=
  N.eqb c (ch ".") || N.eqb c (ch "!") || N.eqb c (ch "?").

(** The first part of [extractAnswer]: the response trimmed, without a known
    prefix and without a final [.], [!] or [?]. *)
Definition clean_response (response : jsstring) : jsstring :=
  let cleaned := trim response in
  let lowerCleaned := toLowerCase cleaned in
  let cleaned := strip_prefix prefixes lowerCleaned cleaned in
  trim (replace_first [Cls is_end_mark; Eol] [] cleaned).

Definition is_alpha (c : char) : bool := is_lower c || is_upper c.

(** One of the characters [[], []], double quote, single quote. *)
Definition is_bracket_or_quote (c : char) : bool :=
  N.eqb c (ch "[") || N.eqb c (ch "]") || N.eqb c dquote || N.eqb c squote.

Definition is_csv (t : AnswerType) : bool :=
  match t with csv_list_ordered | csv_list_unordered => true | _ => false end.

(** The clean-up of a list answer: three [replace] calls. *)
Definition clean_csv (cleaned : jsstring) : jsstring :=
  replace_all space_run (str ",")
    (replace_all (Browser.around ",") (str ",")
       (replace_all [Cls is_bracket_or_quote] [] cleaned)).

Definition extractAnswer (response : jsstring) (answerType : AnswerType) : jsstring :=
  let cleaned := clean_response response in
  let lower := toLowerCase cleaned in
  match answerType with
  | boolean =>
      if includes_str lower (str "yes") || includes_str lower (str "valid")
         || includes_str lower (str "correct")
      then str "YES"
      else if includes_str lower (str "no") || includes_str lower (str "invalid")
              || includes_str lower (str "incorrect")
      then str "NO"
      else cleaned
  | integer =>
      match match_first [Plus is_digit] cleaned with
      | Some m => m
      | None => cleaned
      end
  | widget_name =>
      match match_first [Cls is_upper; Star is_alpha] cleaned with
      | Some m => m
      | None => cleaned
      end
  | csv_list_ordered | csv_list_unordered => clean_csv cleaned
  | number | string_answer => cleaned
  end.

End CaseMapping.

End Answers.

(** ** Report generation: the metrics *)

Module Report.

Import JS JSLib.

Inductive CodeFormat := coon | dart | minified.

Definition format_eqb (a b : CodeFormat) : bool :=
  match a, b with
  | coon, coon | dart, dart | minified, minified => true
  | _, _ => false
  end.

Record EvaluationResult := {
  id : jsstring;
  format : CodeFormat;
  model : jsstring;
  expected : jsstring;
  actual : jsstring;
  isCorrect : bool;
  inputTokens : float;
  outputTokens : float;
  latencyMs : float;
  error : option jsstring
}.

(** [!!r.error]: the error message is present and not empty. *)
Definition has_error (r : EvaluationResult) : bool :=
  match error r with
  | Some (_ :: _) => true
  | _ => false
  end.

Definition partitionResults (results : list EvaluationResult)
  : list EvaluationResult * list EvaluationResult :=
  (filter (fun r => negb (has_error r)) results, filter has_error results).

Record FormatMetrics := {
  fm_format : CodeFormat;
  accuracy : float;
  totalQuestions : nat;
  correctAnswers : nat;
  avgTokens : float;
  avgLatencyMs : float;
  efficiencyScore : float;
  successfulResponses : nat;
  apiErrors : nat
}.

Definition count (n : nat) : float := num (Z.of_nat n).

(** [n > 0 ? x / n : 0] *)
Definition ratio (x : float) (n : nat) : float :=
  if Nat.ltb 0 n then PrimFloat.div x (count n) else num 0.

Definition sum_tokens (l : list EvaluationResult) : float :=
  fold_left (fun sum r => PrimFloat.add (PrimFloat.add sum (inputTokens r)) (outputTokens r))
    l (num 0).

Definition sum_latency (l : list EvaluationResult) : float :=
  fold_left (fun sum r => PrimFloat.add sum (latencyMs r)) l (num 0).

Definition calculateFormatMetrics (results : list EvaluationResult) (fmt : CodeFormat)
  : FormatMetrics :=
  let formatResults := filter (fun r => format_eqb (format r) fmt) results in
  let (successful, errors) := partitionResults formatResults in
  let correctCount := List.length (filter isCorrect successful) in
  let totalTokens := sum_tokens successful in
  let totalLatency := sum_latency successful in
  let accuracy := ratio (count correctCount) (List.length successful) in
  let avgTokens := ratio totalTokens (List.length successful) in
  let avgLatencyMs := ratio totalLatency (List.length successful) in
  let efficiencyScore :=
    if PrimFloat.ltb (num 0) avgTokens
    then PrimFloat.div (PrimFloat.mul accuracy (num 1000)) avgTokens
    else num 0 in
  {| fm_format := fmt;
     accuracy := accuracy;
     totalQuestions := List.length formatResults;
     correctAnswers := correctCount;
     avgTokens := avgTokens;
     avgLatencyMs := avgLatencyMs;
     efficiencyScore := efficiencyScore;
     successfulResponses := List.length successful;
     apiErrors := List.length errors |}.

Record ModelMetrics := {
  mm_model : jsstring;
  byFormat : list (CodeFormat * FormatMetrics);
  overallAccuracy : float;
  totalEvaluations : nat;
  mm_successfulResponses : nat;
  mm_apiErrors : nat
}.

(** [byFormat[format]] *)
Fixpoint get_format (o : list (CodeFormat * FormatMetrics)) (k : CodeFormat)
  : option FormatMetrics :=
  match o with
  | [] => None
  | (k', m) :: o' => if format_eqb k' k then Some m else get_format o' k
  end.

(** [byFormat[format] = m] on the object keyed by format. *)
Fixpoint set_format (o : list (CodeFormat * FormatMetrics)) (k : CodeFormat)
         (m : FormatMetrics) : list (CodeFormat * FormatMetrics) :=
  match o with
  | [] => [(k, m)]
  | (k', m') :: o' =>
      if format_eqb k' k then (k', m) :: o' else (k', m') :: set_format o' k m
  end.

Definition calculateModelMetrics (results : list EvaluationResult) (model0 : jsstring)
    (formats : list CodeFormat) : ModelMetrics :=
  let modelResults := filter (fun r => streqb (model r) model0) results in
  let (successful, errors) := partitionResults modelResults in
  let byFormat :=
    fold_left (fun o fmt => set_format o fmt (calculateFormatMetrics modelResults fmt))
      formats [] in
  let totalCorrect := List.length (filter isCorrect successful) in
  let overallAccuracy := ratio (count totalCorrect) (List.length successful) in
  {| mm_model := model0;
     byFormat := byFormat;
     overallAccuracy := overallAccuracy;
     totalEvaluations := List.length modelResults;
     mm_successfulResponses := List.length successful;
     mm_apiErrors := List.length errors |}.

Record Overall := {
  ov_accuracy : float;
  ov_avgTokens : float;
  ov_avgLatencyMs : float;
  ov_totalEvaluations : nat;
  ov_successfulResponses : nat;
  ov_apiErrors : nat
}.

Record BenchmarkSummary := {
  name : jsstring;
  totalItems : float;
  models : list jsstring;
  formats : list CodeFormat;
  overall : Overall;
  sm_byModel : list ModelMetrics;
  sm_byFormat : list FormatMetrics
}.

Definition createBenchmarkSummary (name0 : jsstring) (results : list EvaluationResult)
    (formats0 : list CodeFormat) : BenchmarkSummary :=
  let models := new_Set (map model results) in
  let (successful, errors) := partitionResults results in
  let totalCorrect := List.length (filter isCorrect successful) in
  let totalTokens := sum_tokens successful in
  let totalLatency := sum_latency successful in
  let overall :=
    {| ov_accuracy := ratio (count totalCorrect) (List.length successful);
       ov_avgTokens := ratio totalTokens (List.length successful);
       ov_avgLatencyMs := ratio totalLatency (List.length successful);
       ov_totalEvaluations := List.length results;
       ov_successfulResponses := List.length successful;
       ov_apiErrors := List.length errors |} in
  let byModel := map (fun m => calculateModelMetrics results m formats0) models in
  let byFormat := map (fun fmt => calculateFormatMetrics results fmt) formats0 in
  {| name := name0;
     totalItems := PrimFloat.div (count (List.length results)) (count (List.length formats0));
     models := models;
     formats := formats0;
     overall := overall;
     sm_byModel := byModel;
     sm_byFormat := byFormat |}.

End Report.

(** ** Vocabulary of the further properties *)

Module MoreProps.

Import JS JSLib.

(** No white space at either end. *)
Definition trimmed (s : jsstring) : Prop := trim s = s.

(** The lower bound on the length of a match that can be read off a
    pattern: one for each literal, class and [+]. *)
Fixpoint min_len (r : regex) : nat :=
  match r with
  | [] => 0
  | (Lit _ | Cls _ | Plus _) :: r' => S (min_len r')
  | (Star _ | Bnd | Bol | Eol) :: r' => min_len r'
  end.

(** A replacement that is not longer than any match of its pattern, for
    each entry of a table. *)
Definition entries_shrink (mk : jsstring -> regex) (rep : jsstring * jsstring -> jsstring)
    (entries : table) : bool :=
  forallb (fun e => Nat.leb (List.length (rep e)) (min_len (mk (fst e)))) entries.

(** A text made of white space and single spaces: no white space but
    U+0020, and no two spaces in a row. *)
Fixpoint single_spaced (s : jsstring) : Prop :=
  match s with
  | [] => True
  | c :: t =>
      (is_space c = true -> c = 32%N /\ match t with x :: _ => is_space x = false | [] => True end)
      /\ single_spaced t
  end.

(** The number of leading characters of a class. *)
Fixpoint run (p : char -> bool) (s : jsstring) : nat :=
  match s with
  | c :: t => if p c then S (run p t) else 0%nat
  | [] => 0%nat
  end.

Definition head_not_space (s : jsstring) : Prop :=
  match s with x :: _ => is_space x = false | [] => True end.

(** An element of a list answer as [parseCSV] returns it: not empty,
    trimmed, without a comma. *)
Definition csv_element (e : jsstring) : Prop :=
  e <> [] /\ trimmed e /\ ~ In (ch ",") e.

(** The non-empty trimmed pieces, as the first statement of the
    compressors and [parseCSV] take them. *)
Definition pieces (sep : char) (s : jsstring) : list jsstring :=
  filter (fun l => Nat.ltb 0 (List.length l)) (map trim (split sep s)).

(** The length of a list of pieces with one separator after each. *)
Definition total (ls : list jsstring) : nat :=
  fold_right (fun l n => S (List.length l + n)) 0%nat ls.

(** Sum of a list of counts. *)
Definition sum_nat (l : list nat) : nat := fold_right Nat.add 0%nat l.

(** A result of a failed call, for examples. *)
Definition failed_example : Report.EvaluationResult :=
  {| Report.id := str "q1"; Report.format := Report.coon; Report.model := str "m";
     Report.expected := str "3"; Report.actual := []; Report.isCorrect := false;
     Report.inputTokens := num 10; Report.outputTokens := num 0;
     Report.latencyMs := num 5; Report.error := Some (str "timeout") |}.

(** A Number that is not NaN and has no minus sign: a zero, a positive
    value or the positive infinity. *)
Definition not_negative (x : Number) : bool :=
  match x with
  | SpecFloat.S754_zero s | SpecFloat.S754_infinity s
  | SpecFloat.S754_finite s _ _ => negb s
  | SpecFloat.S754_nan => false
  end.

End MoreProps.

(** * Properties *)

Import JS Props.

(** ** Strings and matching *)

Lemma streqb_eq (a b : jsstring) : streqb a b = true <-> a = b.
Proof.
  revert b; induction a as [|x a IH]; intros [|y b]; simpl; split; intro H;
    try reflexivity; try discriminate.
  - apply andb_true_iff in H as [H1 H2].
    apply N.eqb_eq in H1. apply IH in H2. now subst.
  - injection H as -> ->. rewrite N.eqb_refl. simpl. now apply IH.
Qed.

Lemma streqb_refl (a : jsstring) : streqb a a = true.
Proof. now apply streqb_eq. Qed.

Lemma streqb_neq (a b : jsstring) : streqb a b = false <-> a <> b.
Proof.
  split.
  - intros H E. apply streqb_eq in E. congruence.
  - intro H. destruct (streqb a b) eqn:E; [|reflexivity].
    apply streqb_eq in E. contradiction.
Qed.

Lemma mem_In (x : jsstring) (l : list jsstring) : mem x l = true <-> In x l.
Proof.
  induction l as [|y l IH]; simpl.
  - split; [discriminate | tauto].
  - rewrite orb_true_iff, IH, streqb_eq. tauto.
Qed.

Lemma nodupb_NoDup (l : list jsstring) : nodupb l = true -> NoDup l.
Proof.
  induction l as [|x l IH]; simpl; intro H; constructor.
  - apply andb_true_iff in H as [H _]. intro Hin. apply mem_In in Hin.
    rewrite Hin in H. discriminate.
  - apply IH. now apply andb_true_iff in H as [_ H].
Qed.

(** Replacing every occurrence of one character by nothing removes it. *)
Lemma replace_go_delete_char (c : char) (s : jsstring) (prev : option char) :
  ~ In c (replace_go (match_here [Lit c]) [] prev 0 s).
Proof.
  revert prev. induction s as [|x t IH]; intro prev; simpl.
  - tauto.
  - destruct (N.eqb x c) eqn:E; simpl.
    + apply IH.
    + intros [H | H].
      * apply N.eqb_neq in E. congruence.
      * exact (IH _ H).
Qed.

(** ** [compressDart] *)

Module CompressDart.

Import Browser.

(** C10. For every input string the compressed document returned by
    [compressDart] contains no newline character (U+000A), string literals
    with newlines included: the output is a single line. *)
Theorem compressDart_single_line (code : jsstring) :
  ~ In LF (compressedCode (compressDart code)).
Proof.
  unfold compressDart, result_of, compressDart_text, tidy, replace_all.
  cbn [compressedCode].
  apply replace_go_delete_char.
Qed.

Lemma collapse_example :
  compressedCode (compressDart (str "Row()")) = compressedCode (compressDart (str "R()"))
  /\ compressedCode (compressDart (str "x = true;"))
     = compressedCode (compressDart (str "x = 1;")).
Proof. split; vm_compute; reflexivity. Qed.

(** C1. The round trip fails for [compressDart], also up to semantic
    equivalence.  The sources [Row()] and [R()], which construct objects of
    different classes, have the same compressed document [R()], and so have
    [x = true;] and [x = 1;], which assign a boolean and an integer.  So
    for every relation between sources that is symmetric and transitive and
    tells the sources of one of these pairs apart, no decoder maps the
    compressed document of every source back to an equivalent source. *)
Theorem compressDart_no_decoder (equivalent : jsstring -> jsstring -> Prop) :
  (forall a b, equivalent a b -> equivalent b a) ->
  (forall a b c, equivalent a b -> equivalent b c -> equivalent a c) ->
  ~ equivalent (str "Row()") (str "R()")
  \/ ~ equivalent (str "x = true;") (str "x = 1;") ->
  ~ exists decode : jsstring -> jsstring,
      forall code, equivalent (decode (compressedCode (compressDart code))) code.
Proof.
  intros Hsym Htrans Hne [decode H].
  destruct collapse_example as [E1 E2].
  destruct Hne as [Hne | Hne]; apply Hne.
  - apply Htrans with (decode (compressedCode (compressDart (str "Row()")))).
    + apply Hsym, H.
    + rewrite E1. apply H.
  - apply Htrans with (decode (compressedCode (compressDart (str "x = true;")))).
    + apply Hsym, H.
    + rewrite E2. apply H.
Qed.

Lemma compressDart_no_decoder_witness :
  (forall a b, same_tokens a b -> same_tokens b a)
  /\ (forall a b c, same_tokens a b -> same_tokens b c -> same_tokens a c)
  /\ same_tokens (str "Row ( )") (str "Row()")
  /\ ~ same_tokens (str "Row()") (str "R()")
  /\ ~ exists decode : jsstring -> jsstring,
        forall code, same_tokens (decode (compressedCode (compressDart code))) code.
Proof.
  assert (Hsym : forall a b, same_tokens a b -> same_tokens b a)
    by (intros a b E; exact (eq_sym E)).
  assert (Htrans : forall a b c, same_tokens a b -> same_tokens b c -> same_tokens a c)
    by (intros a b c E1 E2; exact (eq_trans E1 E2)).
  assert (Hne : ~ same_tokens (str "Row()") (str "R()"))
    by (intro E; vm_compute in E; discriminate).
  split; [exact Hsym|]. split; [exact Htrans|].
  split; [vm_compute; reflexivity|]. split; [exact Hne|].
  exact (compressDart_no_decoder same_tokens Hsym Htrans (or_introl Hne)).
Defined.

(** C2. The content of a string literal is not kept: the literal [a , b]
    of the source [Text("a , b")] becomes [a,b], and the source
    [Text("a,b")] has the same compressed document, so the encoding of
    literals is not injective. *)
Theorem compressDart_alters_literal :
  literals (text_of "a , b") = [str "a , b"] /\
  literals (compressedCode (compressDart (text_of "a , b"))) = [str "a,b"] /\
  text_of "a , b" <> text_of "a,b" /\
  compressedCode (compressDart (text_of "a , b")) =
  compressedCode (compressDart (text_of "a,b")).
Proof.
  repeat split; try (vm_compute; reflexivity). discriminate.
Qed.

(** C3, counterexample. Text inside a string literal and a name in the
    place of a property key are substituted: the literal [Row] of
    [Text("Row")] becomes [R], the literal [child:x] becomes [c:x], and
    [Row: 1], where the widget name stands as a key, becomes [R:1]. *)
Lemma substitution_in_literal_and_key :
  ~ literal_untouched "Row" /\ ~ literal_untouched "child:x"
  /\ ~ key_position_untouched (str "Row") (str " 1").
Proof.
  repeat split.
  - intro H. vm_compute in H. discriminate.
  - intro H. vm_compute in H. discriminate.
  - intros [r H]. vm_compute in H. discriminate.
Qed.

Lemma trimStart_spaces (s : jsstring) : spaces s -> trimStart s = [].
Proof. induction 1 as [|c s Hc Hs IH]; simpl; [reflexivity | now rewrite Hc]. Qed.

Lemma split_spaces (s : jsstring) : spaces s -> Forall spaces (split LF s).
Proof.
  induction 1 as [|c s Hc Hs IH]; simpl.
  - repeat constructor.
  - destruct (N.eqb c LF).
    + constructor; [constructor | exact IH].
    + destruct (split LF s) as [|l ls].
      * repeat constructor. exact Hc.
      * inversion IH; subst. constructor; [now constructor | assumption].
Qed.

Lemma strip_lines_spaces (code : jsstring) : spaces code -> strip_lines code = [].
Proof.
  intro H. unfold strip_lines.
  assert (E : filter (fun line => Nat.ltb 0 (List.length line))
                (map trim (split LF code)) = []).
  { apply split_spaces in H. induction H as [|l ls Hl Hls IH]; simpl; [reflexivity|].
    unfold trim at 1. now rewrite (trimStart_spaces l Hl). }
  now rewrite E.
Qed.

(** An input of white space only has the empty document, whatever the
    language. *)
Lemma compress_blank_input (code : jsstring) (l : Language) :
  spaces code -> compressedCode (compress code l) = [].
Proof.
  intro H. destruct l; unfold compress, compressDart, compressReact, result_of;
    cbn [compressedCode]; unfold compressDart_text, compressReact_text;
    rewrite (strip_lines_spaces code H); vm_compute; reflexivity.
Qed.

(** C7. On the empty string [compressDart] returns the empty document and
    no token counts, but the reported saving is NaN (0 / 0), not 0; on
    white space only the document is empty and the reported saving is 100. *)
Theorem compressDart_degenerate_input :
  compressedCode (compressDart []) = [] /\
  originalTokens (compressDart []) = 0%Z /\
  compressedTokens (compressDart []) = 0%Z /\
  PrimFloat.is_nan (percentageSaved (compressDart [])) = true /\
  compressedCode (compressDart [32; 32; 32; 10; 9; 32; 32]%N) = [] /\
  percentageSaved (compressDart [32; 32; 32; 10; 9; 32; 32]%N) = num 100.
Proof. repeat split; vm_compute; reflexivity. Qed.

End CompressDart.

(** ** Substitution *)

Module Substitution.

Import Browser Words.

Lemma wordb_word (s : jsstring) : wordb s = true <-> word s.
Proof. unfold wordb, word. rewrite forallb_forall, Forall_forall. reflexivity. Qed.

Lemma leading_code_app (u v : jsstring) :
  word u -> word_opt (hd_error v) = false -> leading_code (u ++ v) = u.
Proof.
  intros Hu Hv. induction Hu as [|c u Hc Hu IH]; cbn [app leading_code].
  - destruct v as [|x v]; [reflexivity|]. cbn [hd_error word_opt] in Hv.
    cbn [leading_code]. now rewrite Hv.
  - now rewrite Hc, IH.
Qed.

Lemma leading_code_word (s : jsstring) : word (leading_code s).
Proof.
  induction s as [|c t IH]; simpl; [constructor|].
  destruct (is_word c) eqn:E; [now constructor | constructor].
Qed.

(** The pattern [lits N ++ [Bnd]] after a word character. *)
Lemma lits_bnd_match (N : jsstring) :
  word N ->
  forall s p, word_opt p = true ->
    match_here (lits N ++ [Bnd]) p s =
    if streqb (leading_code s) N then Some (List.length N) else None.
Proof.
  induction 1 as [|n N Hn HN IH]; intros s p Hp.
  - cbn [lits map app match_here]. rewrite Hp.
    destruct s as [|x t]; [reflexivity|]. cbn [hd_error word_opt leading_code].
    destruct (is_word x); reflexivity.
  - cbn [lits map app match_here]. destruct s as [|x t]; [reflexivity|].
    cbn [leading_code]. destruct (N.eqb x n) eqn:E.
    + apply N.eqb_eq in E. subst x. rewrite Hn.
      change (map Lit N ++ [Bnd]) with (lits N ++ [Bnd]).
      rewrite IH by exact Hn. cbn [streqb]. rewrite N.eqb_refl. cbn [andb].
      destruct (streqb (leading_code t) N); reflexivity.
    + destruct (is_word x); cbn [streqb]; [now rewrite E | reflexivity].
Qed.

(** [\bN\b] where the character before is not a word character. *)
Lemma whole_word_match (N : jsstring) :
  N <> [] -> word N ->
  forall s p, word_opt p = false ->
    match_here (whole_word N) p s =
    if streqb (leading_code s) N then Some (List.length N) else None.
Proof.
  intros Hne HN s p Hp. unfold whole_word.
  destruct N as [|n N]; [contradiction|].
  inversion HN as [|? ? Hn HN']; subst.
  cbn [lits map app match_here]. rewrite Hp. cbn [xorb].
  destruct s as [|x t]; [reflexivity|].
  cbn [hd_error word_opt leading_code].
  destruct (is_word x) eqn:Hx; [|reflexivity].
  destruct (N.eqb x n) eqn:E.
  - change (map Lit N ++ [Bnd]) with (lits N ++ [Bnd]).
    rewrite lits_bnd_match by assumption. cbn [streqb option_map]. rewrite E. cbn [andb].
    destruct (streqb (leading_code t) N); reflexivity.
  - cbn [streqb]. now rewrite E.
Qed.

(** After a word character [\bN\b] does not match. *)
Lemma whole_word_inside (N : jsstring) :
  N <> [] -> word N ->
  forall s p, word_opt p = true -> match_here (whole_word N) p s = None.
Proof.
  intros Hne HN s p Hp. unfold whole_word.
  destruct N as [|n N]; [contradiction|].
  inversion HN as [|? ? Hn HN']; subst.
  cbn [lits map app match_here]. rewrite Hp.
  destruct s as [|x t]; [reflexivity|]. cbn [hd_error word_opt].
  destruct (is_word x) eqn:Hx; [reflexivity|]. cbn [xorb].
  destruct (N.eqb x n) eqn:E; [|reflexivity].
  apply N.eqb_eq in E. congruence.
Qed.

Lemma whole_word_pass_go (N A : jsstring) :
  N <> [] -> word N ->
  forall s,
    (forall p, word_opt p = false ->
       replace_go (match_here (whole_word N)) A p 0 s = map_words_go (one_word N A) false s)
    /\ (forall p, word_opt p = true ->
          replace_go (match_here (whole_word N)) A p 0 s
          = leading_code s ++ map_words_go (one_word N A) true s)
    /\ (forall p k, word_opt p = true -> k = List.length (leading_code s) ->
          replace_go (match_here (whole_word N)) A p k s
          = map_words_go (one_word N A) true s).
Proof.
  intros Hne HN. induction s as [|c t (IH1 & IH2 & IH3)].
  - repeat split.
    + intros p Hp. cbn [replace_go]. rewrite whole_word_match by assumption.
      cbn [leading_code]. destruct N; [contradiction | reflexivity].
    + intros p Hp. cbn [replace_go]. now rewrite whole_word_inside.
    + intros p k Hp ->. cbn [leading_code List.length replace_go].
      now rewrite whole_word_inside.
  - assert (S2 : forall p, word_opt p = true ->
               replace_go (match_here (whole_word N)) A p 0 (c :: t)
               = leading_code (c :: t) ++ map_words_go (one_word N A) true (c :: t)).
    { intros p Hp. cbn [replace_go]. rewrite whole_word_inside by assumption.
      cbn [leading_code map_words_go]. destruct (is_word c) eqn:Hc.
      - rewrite IH2 by exact Hc. reflexivity.
      - rewrite IH1 by exact Hc. reflexivity. }
    repeat split.
    + intros p Hp. cbn [replace_go]. rewrite whole_word_match by assumption.
      cbn [map_words_go]. destruct (is_word c) eqn:Hc.
      * unfold one_word at 1.
        destruct (streqb (leading_code (c :: t)) N) eqn:E.
        -- apply streqb_eq in E. rewrite <- E at 1.
           cbn [leading_code]. rewrite Hc. cbn [List.length].
           rewrite IH3 by (try exact Hc; reflexivity). reflexivity.
        -- rewrite IH2 by exact Hc. cbn [leading_code]. rewrite Hc. reflexivity.
      * cbn [leading_code]. rewrite Hc.
        destruct N as [|n N']; [contradiction|]. cbn [streqb].
        rewrite IH1 by exact Hc. reflexivity.
    + exact S2.
    + intros p k Hp ->. cbn [leading_code]. destruct (is_word c) eqn:Hc.
      * cbn [List.length replace_go map_words_go]. rewrite Hc.
        apply IH3; [exact Hc | reflexivity].
      * cbn [List.length]. rewrite S2 by exact Hp.
        cbn [leading_code]. rewrite Hc. reflexivity.
Qed.

(** One pass [replace(/\bN\b/g, A)] maps the text word by word. *)
Lemma whole_word_pass (N A s : jsstring) :
  N <> [] -> word N ->
  replace_all (whole_word N) A s = map_words (one_word N A) s.
Proof.
  intros Hne HN. unfold replace_all, map_words.
  now apply (whole_word_pass_go N A Hne HN s).
Qed.

Lemma map_words_go_ext (f g : jsstring -> jsstring) :
  (forall w, f w = g w) ->
  forall s b, map_words_go f b s = map_words_go g b s.
Proof.
  intros H. induction s as [|c t IH]; intro b; cbn [map_words_go]; [reflexivity|].
  destruct (is_word c); [destruct b|]; now rewrite ?H, IH.
Qed.

Lemma map_words_go_id (s : jsstring) :
  map_words_go (fun w => w) false s = s
  /\ leading_code s ++ map_words_go (fun w => w) true s = s.
Proof.
  induction s as [|c t [IH1 IH2]]; [split; reflexivity|].
  cbn [map_words_go leading_code]. destruct (is_word c).
  - cbn [app]. rewrite IH2. split; reflexivity.
  - cbn [app]. rewrite IH1. split; reflexivity.
Qed.

Lemma map_words_go_true_head (f : jsstring -> jsstring) (s : jsstring) :
  word_opt (hd_error (map_words_go f true s)) = false.
Proof.
  induction s as [|c t IH]; [reflexivity|]. cbn [map_words_go].
  destruct (is_word c) eqn:Hc; [exact IH|]. cbn [hd_error word_opt]. exact Hc.
Qed.

Lemma map_words_go_flag (f : jsstring -> jsstring) (v : jsstring) :
  word_opt (hd_error v) = false -> map_words_go f true v = map_words_go f false v.
Proof.
  destruct v as [|c t]; [reflexivity|]. cbn [hd_error word_opt map_words_go].
  now intros ->.
Qed.

Lemma map_words_go_skip (f : jsstring -> jsstring) (u v : jsstring) :
  word u -> word_opt (hd_error v) = false ->
  map_words_go f true (u ++ v) = map_words_go f false v.
Proof.
  intros Hu Hv. induction Hu as [|c u Hc Hu IH]; cbn [app map_words_go].
  - now apply map_words_go_flag.
  - now rewrite Hc.
Qed.

Lemma map_words_go_word (f : jsstring -> jsstring) (u v : jsstring) :
  u <> [] -> word u -> word_opt (hd_error v) = false ->
  map_words_go f false (u ++ v) = f u ++ map_words_go f false v.
Proof.
  intros Hne Hu Hv. destruct u as [|c u]; [contradiction|].
  inversion Hu as [|? ? Hc Hu']; subst.
  change ((c :: u) ++ v) with (c :: (u ++ v)). cbn [map_words_go]. rewrite Hc.
  change (c :: (u ++ v)) with ((c :: u) ++ v).
  rewrite leading_code_app by assumption.
  now rewrite map_words_go_skip.
Qed.

Lemma map_words_go_compose (f g : jsstring -> jsstring) :
  keeps_words f ->
  forall s,
    map_words_go g false (map_words_go f false s) = map_words_go (fun w => g (f w)) false s
    /\ map_words_go g false (map_words_go f true s) = map_words_go (fun w => g (f w)) true s.
Proof.
  intros Hf. induction s as [|c t [IH1 IH2]]; [split; reflexivity|].
  cbn [map_words_go]. destruct (is_word c) eqn:Hc.
  - split; [|exact IH2].
    destruct (Hf (leading_code (c :: t))) as [Hne Hw].
    + cbn [leading_code]. rewrite Hc. discriminate.
    + apply leading_code_word.
    + rewrite map_words_go_word by (try assumption; apply map_words_go_true_head).
      now rewrite IH2.
  - cbn [map_words_go]. rewrite Hc. rewrite IH1. split; reflexivity.
Qed.

Lemma nonemptyb_ne (s : jsstring) : nonemptyb s = true -> s <> [].
Proof. destruct s; [discriminate | discriminate]. Qed.

Lemma one_word_keeps (N A : jsstring) : A <> [] -> word A -> keeps_words (one_word N A).
Proof.
  intros HA HwA w Hne Hw. unfold one_word. destruct (streqb w N); split; assumption.
Qed.

Lemma whole_word_passes (entries : table) :
  word_entries entries = true ->
  forall s, replace_entries whole_word entries s = map_words (fold_word entries) s.
Proof.
  unfold replace_entries, fold_word, map_words.
  induction entries as [|e l IH]; intros H s.
  - cbn [fold_left]. symmetry. apply map_words_go_id.
  - cbn [word_entries forallb] in H. apply andb_true_iff in H as [He Hl].
    apply andb_true_iff in He as [He H4]. apply andb_true_iff in He as [He H3].
    apply andb_true_iff in He as [H1 H2].
    apply nonemptyb_ne in H1, H3. apply wordb_word in H2, H4.
    cbn [fold_left]. rewrite (IH Hl).
    rewrite whole_word_pass by assumption. unfold map_words.
    rewrite (proj1 (map_words_go_compose _ _ (one_word_keeps (fst e) (snd e) H3 H4) s)).
    reflexivity.
Qed.

Lemma fold_word_other (entries : table) (w : jsstring) :
  mem w (map fst entries) = false -> fold_word entries w = w.
Proof.
  unfold fold_word. induction entries as [|e l IH]; intro H; cbn [fold_left]; [reflexivity|].
  cbn [map mem] in H. apply orb_false_iff in H as [H1 H2].
  unfold one_word at 2. destruct (streqb w (fst e)) eqn:E.
  - apply streqb_eq in E. subst w. rewrite streqb_refl in H1. discriminate.
  - now apply IH.
Qed.

Lemma values_not_keys_tail (e : jsstring * jsstring) (l : table) :
  values_not_keys (e :: l) = true ->
  mem (snd e) (map fst l) = false /\ values_not_keys l = true.
Proof.
  unfold values_not_keys. cbn [forallb map mem]. intro H.
  apply andb_true_iff in H as [H1 H2]. apply negb_true_iff, orb_false_iff in H1 as [_ H1].
  split; [exact H1|]. apply forallb_forall. intros x Hx.
  rewrite forallb_forall in H2. specialize (H2 x Hx).
  apply negb_true_iff, orb_false_iff in H2 as [_ H2]. now rewrite H2.
Qed.

Lemma fold_word_abbreviate (entries : table) (w : jsstring) :
  values_not_keys entries = true -> fold_word entries w = abbreviate entries w.
Proof.
  induction entries as [|[k v] l IH]; intro H; [reflexivity|].
  apply values_not_keys_tail in H as [Hv Hl]. cbn [fst snd] in Hv.
  unfold abbreviate. cbn [get]. change (fold_word ((k, v) :: l) w) with
    (fold_word l (one_word k v w)). unfold one_word.
  destruct (streqb k w) eqn:E.
  - apply streqb_eq in E. subst w. rewrite streqb_refl. now apply fold_word_other.
  - destruct (streqb w k) eqn:E'.
    + apply streqb_eq in E'. subst w. rewrite streqb_refl in E. discriminate.
    + now apply IH.
Qed.

Lemma insert_by_length_keys (e : jsstring * jsstring) (l : table) (k : jsstring) :
  In k (map fst (insert_by_length e l)) <-> k = fst e \/ In k (map fst l).
Proof.
  induction l as [|x l IH]; cbn [insert_by_length map In]; [intuition congruence|].
  destruct (Nat.ltb _ _); cbn [map In]; rewrite ?IH; intuition congruence.
Qed.

Lemma sort_by_length_desc_keys (l : table) (k : jsstring) :
  In k (map fst (sort_by_length_desc l)) <-> In k (map fst l).
Proof.
  induction l as [|e l IH]; [reflexivity|].
  unfold sort_by_length_desc in *. cbn [fold_right map In].
  rewrite insert_by_length_keys, IH. intuition congruence.
Qed.

Lemma get_insert_by_length (e : jsstring * jsstring) (l : table) (k : jsstring) :
  ~ In (fst e) (map fst l) -> get (insert_by_length e l) k = get (e :: l) k.
Proof.
  destruct e as [ke ve]. cbn [fst].
  induction l as [|[kx vx] l IH]; intro H; [reflexivity|].
  cbn [insert_by_length]. destruct (Nat.ltb _ _); [|reflexivity].
  cbn [get]. rewrite IH by (intro G; apply H; now right). cbn [get].
  destruct (streqb kx k) eqn:E1, (streqb ke k) eqn:E2; try reflexivity.
  apply streqb_eq in E1, E2. subst. exfalso. apply H. now left.
Qed.

Lemma get_sort_by_length_desc (l : table) (k : jsstring) :
  NoDup (map fst l) -> get (sort_by_length_desc l) k = get l k.
Proof.
  induction l as [|e l IH]; intro H; [reflexivity|].
  inversion H as [|? ? Hnotin Hnd]; subst.
  change (sort_by_length_desc (e :: l)) with (insert_by_length e (sort_by_length_desc l)).
  rewrite get_insert_by_length by (now rewrite sort_by_length_desc_keys).
  destruct e as [ke ve]. cbn [get]. now rewrite IH.
Qed.

(** The widget step of [compressDart]: every word of the text that is a
    name of [DART_WIDGETS] is replaced by its short form; nothing else is
    changed. *)
Lemma widget_step (s : jsstring) :
  replace_entries whole_word (sort_by_length_desc DART_WIDGETS) s
  = map_words (abbreviate DART_WIDGETS) s.
Proof.
  rewrite whole_word_passes by (vm_compute; reflexivity).
  apply map_words_go_ext. intro w.
  rewrite fold_word_abbreviate by (vm_compute; reflexivity).
  unfold abbreviate. rewrite get_sort_by_length_desc; [reflexivity|].
  apply nodupb_NoDup. vm_compute. reflexivity.
Qed.

Lemma word_char_not_space (c : char) : is_word c = true -> is_space c = false.
Proof.
  unfold is_word, is_upper, is_lower, is_digit, is_space, in_range. intro H.
  repeat rewrite ?orb_true_iff, ?andb_true_iff, ?N.leb_le, ?N.eqb_eq in H.
  apply not_true_is_false. intro G.
  repeat rewrite ?orb_true_iff, ?andb_true_iff, ?N.leb_le, ?N.eqb_eq in G.
  lia.
Qed.

Lemma inert_nonword (s : jsstring) : inert s -> nonword s.
Proof.
  apply Forall_impl. intros c H. unfold is_punct in H.
  apply andb_true_iff in H as [H _]. now apply negb_true_iff in H.
Qed.

Lemma inert_nospace (s : jsstring) : inert s -> nospace s.
Proof.
  apply Forall_impl. intros c H. unfold is_punct in H.
  apply andb_true_iff in H as [_ H]. now apply negb_true_iff in H.
Qed.

Lemma word_nospace (s : jsstring) : word s -> nospace s.
Proof. apply Forall_impl. intros c. apply word_char_not_space. Qed.

Lemma nospace_ctx (pre u post : jsstring) :
  inert pre -> word u -> inert post -> nospace (pre ++ u ++ post).
Proof.
  intros H1 H2 H3. unfold nospace. rewrite !Forall_app.
  repeat split; [now apply inert_nospace | now apply word_nospace | now apply inert_nospace].
Qed.

Lemma nonword_head (s : jsstring) : nonword s -> word_opt (hd_error s) = false.
Proof. intros [|c t Hc Ht]; [reflexivity | exact Hc]. Qed.

(** *** The first statement *)

Lemma split_without_sep (sep : char) (s : jsstring) :
  Forall (fun c => N.eqb c sep = false) s -> split sep s = [s].
Proof.
  induction 1 as [|c t Hc Ht IH]; [reflexivity|]. cbn [split]. now rewrite Hc, IH.
Qed.

Lemma trimEnd_nospace (s : jsstring) : nospace s -> trimEnd s = s.
Proof.
  induction 1 as [|c t Hc Ht IH]; [reflexivity|]. cbn [trimEnd]. rewrite IH.
  destruct t; [now rewrite Hc | reflexivity].
Qed.

Lemma trim_nospace (s : jsstring) : nospace s -> trim s = s.
Proof.
  intro H. unfold trim.
  assert (E : trimStart s = s) by (destruct H as [|c t Hc Ht]; [reflexivity | simpl; now rewrite Hc]).
  rewrite E. now apply trimEnd_nospace.
Qed.

Lemma strip_lines_nospace (s : jsstring) : nospace s -> strip_lines s = s.
Proof.
  intro H. unfold strip_lines. rewrite split_without_sep.
  - cbn [map filter]. rewrite trim_nospace by exact H.
    destruct s; reflexivity.
  - apply Forall_impl with (2 := H). intros c Hc.
    destruct (N.eqb c LF) eqn:E; [|reflexivity].
    apply N.eqb_eq in E. subst c. discriminate.
Qed.

(** *** Whole-word passes *)

Lemma map_words_nonword (f : jsstring -> jsstring) (pre s : jsstring) :
  nonword pre -> map_words_go f false (pre ++ s) = pre ++ map_words_go f false s.
Proof.
  induction 1 as [|c t Hc Ht IH]; [reflexivity|].
  cbn [app map_words_go]. now rewrite Hc, IH.
Qed.

Lemma map_words_ctx (f : jsstring -> jsstring) (pre u post : jsstring) :
  nonword pre -> u <> [] -> word u -> nonword post ->
  map_words f (pre ++ u ++ post) = pre ++ f u ++ post.
Proof.
  intros H1 Hne H2 H3. unfold map_words.
  rewrite map_words_nonword by exact H1.
  rewrite map_words_go_word by (try assumption; now apply nonword_head).
  rewrite <- (app_nil_r post) at 1. rewrite map_words_nonword by exact H3.
  now rewrite app_nil_r.
Qed.

(** A sequence of whole-word passes none of which is for the word [u]. *)
Lemma whole_word_passes_other (entries : table) (pre u post : jsstring) :
  forallb (fun e => nonemptyb (fst e) && wordb (fst e)) entries = true ->
  mem u (map fst entries) = false ->
  nonword pre -> u <> [] -> word u -> nonword post ->
  replace_entries whole_word entries (pre ++ u ++ post) = pre ++ u ++ post.
Proof.
  intros Hk Hu H1 Hne H2 H3. unfold replace_entries.
  induction entries as [|e l IH]; [reflexivity|].
  cbn [forallb] in Hk. apply andb_true_iff in Hk as [He Hl].
  apply andb_true_iff in He as [Ha Hb].
  cbn [map mem] in Hu. apply orb_false_iff in Hu as [Hu1 Hu2].
  cbn [fold_left].
  rewrite whole_word_pass by (first [now apply nonemptyb_ne | now apply wordb_word]).
  rewrite map_words_ctx by assumption.
  unfold one_word. destruct (streqb u (fst e)) eqn:E.
  - apply streqb_eq in E. subst u. rewrite streqb_refl in Hu1. discriminate.
  - now apply IH.
Qed.

(** *** Replacements that change nothing *)

Lemma replace_go_fixed (m : matcher) (rep : jsstring) (P : jsstring -> Prop) :
  (forall c t, P (c :: t) -> P t) ->
  (forall prev s n, P s -> m prev s = Some n -> firstn n s = rep /\ n <= List.length s) ->
  forall s prev k, P s -> k <= List.length s ->
    replace_go m rep prev k s = skipn k s.
Proof.
  intros Htl Hm. induction s as [|c t IH]; intros prev k HP Hk.
  - cbn [List.length] in Hk. assert (k = 0) by lia. subst k. cbn [replace_go skipn].
    destruct (m prev []) as [[|n]|] eqn:E; [| |reflexivity].
    + destruct (Hm _ _ _ HP E) as [<- _]. reflexivity.
    + destruct (Hm _ _ _ HP E) as [_ G]. cbn [List.length] in G. lia.
  - destruct k as [|k].
    + cbn [replace_go skipn]. destruct (m prev (c :: t)) as [[|n]|] eqn:E.
      * destruct (Hm _ _ _ HP E) as [<- _]. cbn [firstn app].
        rewrite IH; [reflexivity | now apply Htl with c | lia].
      * destruct (Hm _ _ _ HP E) as [<- G]. cbn [List.length] in G.
        rewrite IH; [| now apply Htl with c | lia].
        cbn [firstn app]. f_equal. apply firstn_skipn.
      * rewrite IH; [reflexivity | now apply Htl with c | lia].
    + cbn [replace_go skipn]. cbn [List.length] in Hk.
      apply IH; [now apply Htl with c | lia].
Qed.

Lemma replace_all_fixed (r : regex) (rep s : jsstring) (P : jsstring -> Prop) :
  (forall c t, P (c :: t) -> P t) ->
  (forall prev s n, P s -> match_here r prev s = Some n ->
                    firstn n s = rep /\ n <= List.length s) ->
  P s -> replace_all r rep s = s.
Proof.
  intros Htl Hm HP. unfold replace_all.
  rewrite (replace_go_fixed _ _ P Htl Hm) by (try assumption; lia). reflexivity.
Qed.

Lemma nospace_tail (c : char) (t : jsstring) : nospace (c :: t) -> nospace t.
Proof. intro H. now inversion H. Qed.

Lemma sp_star_nospace (k : matcher) (prev : option char) (s : jsstring) :
  nospace s -> star_match is_space k prev s = k prev s.
Proof. intros [|c t Hc Ht]; [reflexivity|]. cbn [star_match]. now rewrite Hc. Qed.

Lemma lits_match (c : jsstring) (r : regex) :
  forall s prev n, match_here (lits c ++ r) prev s = Some n ->
    exists s' p n', s = c ++ s' /\ match_here r p s' = Some n'
                    /\ n = (List.length c + n')%nat.
Proof.
  induction c as [|x c IH]; intros s prev n H.
  - exists s, prev, n. repeat split. exact H.
  - cbn [lits map app match_here] in H. destruct s as [|y t]; [discriminate|].
    destruct (N.eqb y x) eqn:E; [|discriminate]. apply N.eqb_eq in E. subst y.
    destruct (match_here (map Lit c ++ r) (Some x) t) as [n0|] eqn:E0; [|discriminate].
    injection H as <-. apply IH in E0 as (s' & p & n' & -> & Hr & ->).
    exists s', p, n'. repeat split. exact Hr.
Qed.

(** [replace(/\s*c\s*/g, c)] on a text without white space. *)
Lemma around_nospace (c : string) (s : jsstring) :
  nospace s -> replace_all (around c) (str c) s = s.
Proof.
  apply replace_all_fixed; [apply nospace_tail|].
  intros prev t n Ht H. unfold around, sp_star in H. cbn [match_here] in H.
  rewrite sp_star_nospace in H by exact Ht.
  apply lits_match in H as (s' & p & n' & -> & Hr & ->).
  cbn [match_here] in Hr.
  assert (Hs' : nospace s') by (unfold nospace in *; now apply Forall_app in Ht).
  rewrite sp_star_nospace in Hr by exact Hs'. cbn [match_here] in Hr.
  injection Hr as <-. rewrite Nat.add_0_r, firstn_app, Nat.sub_diag, firstn_all.
  cbn [firstn]. rewrite app_nil_r, length_app. split; [reflexivity | lia].
Qed.

Lemma build_signature_nospace (s : jsstring) :
  nospace s -> replace_all build_signature (str "m:b") s = s.
Proof.
  apply replace_all_fixed; [apply nospace_tail|].
  intros prev t n Ht H. exfalso. unfold build_signature in H.
  cbn [str lits map app match_here] in H.
  destruct t as [|x t]; [discriminate|]. destruct (N.eqb x _); [|discriminate].
  destruct t as [|y t]; [discriminate|].
  inversion Ht as [|? ? _ Ht']; subst. inversion Ht' as [|? ? Hy _]; subst.
  unfold sp_plus in H. cbn [match_here] in H. rewrite Hy in H. discriminate.
Qed.

Lemma delete_LF_nospace (s : jsstring) :
  nospace s -> replace_all [Lit LF] [] s = s.
Proof.
  apply replace_all_fixed; [apply nospace_tail|].
  intros prev t n Ht H. exfalso. cbn [match_here] in H.
  destruct t as [|x t]; [discriminate|]. destruct (N.eqb x LF) eqn:E; [|discriminate].
  apply N.eqb_eq in E. subst x. inversion Ht as [|? ? Hx _]. discriminate.
Qed.

Lemma replace_go_prev (m : matcher) (rep : jsstring) :
  (forall p q s, m p s = m q s) ->
  forall s p q k, replace_go m rep p k s = replace_go m rep q k s.
Proof.
  intros H s p q k. destruct k, s; cbn [replace_go]; rewrite ?(H p q); reflexivity.
Qed.

Lemma lit_first_prev (x : char) (r : regex) (p q : option char) (s : jsstring) :
  match_here (Lit x :: r) p s = match_here (Lit x :: r) q s.
Proof. reflexivity. Qed.

Lemma word_char_neq (c x : char) : is_word c = false -> is_word x = true -> N.eqb c x = false.
Proof.
  intros Hc Hx. destruct (N.eqb c x) eqn:E; [|reflexivity].
  apply N.eqb_eq in E. congruence.
Qed.

Lemma colon_not_word : is_word colon = false.
Proof. reflexivity. Qed.

(** The pattern of a key [w:] at a word [u] that punctuation follows. *)
Lemma key_match (w : jsstring) :
  word w ->
  forall u post p, word u -> nonword post ->
    match_here (lits (w ++ [colon])) p (u ++ post) =
    if streqb u w && colon_next post then Some (S (List.length w)) else None.
Proof.
  induction 1 as [|x w Hx Hw IH]; intros u post p Hu Hpost.
  - cbn [app lits map match_here]. destruct Hu as [|c t Hc Ht].
    + cbn [app streqb andb]. destruct post as [|y post]; cbn [colon_next]; [reflexivity|].
      destruct (N.eqb y colon); reflexivity.
    + cbn [app streqb andb].
      rewrite (proj2 (N.eqb_neq c colon)); [reflexivity|].
      intros ->. rewrite colon_not_word in Hc. discriminate.
  - cbn [app lits map match_here]. destruct Hu as [|c t Hc Ht].
    + cbn [app streqb andb]. destruct Hpost as [|y post Hy Hpost]; [reflexivity|].
      now rewrite (word_char_neq y x Hy Hx).
    + cbn [app streqb]. destruct (N.eqb c x); [|reflexivity].
      change (map Lit (w ++ [colon])) with (lits (w ++ [colon])).
      rewrite IH by assumption. cbn [andb].
      destruct (streqb t w && colon_next post); reflexivity.
Qed.

Section KeyPass.

Variables w a : jsstring.
Hypothesis w_nonempty : w <> [].
Hypothesis w_word : word w.

Local Notation "'R'" := (replace_go (match_here (lits (w ++ [colon]))) (a ++ [colon]) None 0).

Lemma key_pattern_prev (p q : option char) (s : jsstring) :
  match_here (lits (w ++ [colon])) p s = match_here (lits (w ++ [colon])) q s.
Proof. destruct w; [contradiction | reflexivity]. Qed.

Lemma key_pass_nonword (s t : jsstring) : nonword s -> R (s ++ t) = s ++ R t.
Proof.
  induction 1 as [|c s Hc Hs IH]; [reflexivity|].
  cbn [app replace_go].
  assert (E : match_here (lits (w ++ [colon])) None (c :: s ++ t) = None).
  { destruct w as [|x w']; [contradiction|]. inversion w_word as [|? ? Hx _]; subst.
    cbn [app lits map match_here]. now rewrite (word_char_neq c x Hc Hx). }
  rewrite E. rewrite (replace_go_prev _ _ key_pattern_prev _ (Some c) None). now rewrite IH.
Qed.

Lemma key_pass_end : R [] = [].
Proof.
  cbn [replace_go]. destruct w as [|x w']; [contradiction | reflexivity].
Qed.

Lemma key_pass_skip (xs rest : jsstring) (p : option char) :
  replace_go (match_here (lits (w ++ [colon]))) (a ++ [colon]) p (List.length xs) (xs ++ rest)
  = R rest.
Proof.
  revert p. induction xs as [|x xs IH]; intro p.
  - apply replace_go_prev, key_pattern_prev.
  - cbn [List.length app replace_go]. apply IH.
Qed.

Lemma key_pass_word (u post : jsstring) :
  word u -> nonword post ->
  R (u ++ post) = (if colon_next post then replace_tail w a u else u) ++ post.
Proof.
  intros Hu Hpost. induction Hu as [|c t Hc Ht IH].
  - cbn [app]. rewrite <- (app_nil_r post) at 1.
    rewrite key_pass_nonword, key_pass_end, app_nil_r by exact Hpost.
    now destruct (colon_next post).
  - assert (Hct : word (c :: t)) by now constructor.
    change ((c :: t) ++ post) with (c :: (t ++ post)).
    cbn [replace_go]. change (c :: (t ++ post)) with ((c :: t) ++ post).
    rewrite key_match by assumption.
    destruct (streqb (c :: t) w) eqn:E; cbn [andb].
    + destruct (colon_next post) eqn:Ec.
      * cbn [replace_tail]. rewrite E.
        destruct post as [|y post']; [discriminate|]. cbn [colon_next] in Ec.
        apply N.eqb_eq in Ec. subst y.
        apply streqb_eq in E.
        assert (L : List.length w = S (List.length t)) by now rewrite <- E.
        rewrite L. cbn [app].
        replace (t ++ colon :: post') with ((t ++ [colon]) ++ post')
          by now rewrite <- app_assoc.
        replace (S (List.length t)) with (List.length (t ++ [colon]))
          by (rewrite length_app; simpl; lia).
        rewrite key_pass_skip.
        pose proof (Forall_inv_tail Hpost) as Hpost'.
        rewrite <- (app_nil_r post') at 1.
        rewrite key_pass_nonword, key_pass_end, app_nil_r by exact Hpost'.
        now rewrite <- app_assoc.
      * cbn [app]. rewrite (replace_go_prev _ _ key_pattern_prev _ (Some c) None).
        rewrite IH. rewrite ?Ec. reflexivity.
    + cbn [app]. rewrite (replace_go_prev _ _ key_pattern_prev _ (Some c) None).
      rewrite IH. destruct (colon_next post); [|reflexivity].
      cbn [replace_tail]. now rewrite E.
Qed.

(** One pass [replace(/w:/g, a:)] on a word between punctuation. *)
Lemma key_pass (pre u post : jsstring) :
  nonword pre -> word u -> nonword post ->
  replace_all (lits (w ++ [colon])) (a ++ [colon]) (pre ++ u ++ post)
  = pre ++ (if colon_next post then replace_tail w a u else u) ++ post.
Proof.
  intros H1 H2 H3. unfold replace_all.
  now rewrite key_pass_nonword, key_pass_word.
Qed.

End KeyPass.

Lemma replace_tail_word (w a u : jsstring) : word a -> word u -> word (replace_tail w a u).
Proof.
  intros Ha. induction 1 as [|c t Hc Ht IH]; cbn [replace_tail]; [constructor|].
  destruct (streqb (c :: t) w); [exact Ha | now constructor].
Qed.

Lemma key_passes (entries : table) (pre u post : jsstring) :
  colon_entries entries = true ->
  nonword pre -> word u -> nonword post ->
  replace_entries escapeRegExp_pattern entries (pre ++ u ++ post)
  = pre ++ fold_tail (colon_next post) entries u ++ post.
Proof.
  intros He H1 H2 H3. unfold replace_entries, fold_tail. revert u H2.
  induction entries as [|e l IH]; intros u H2; [reflexivity|].
  cbn [colon_entries forallb] in He. apply andb_true_iff in He as [He Hl].
  repeat (let G := fresh "G" in apply andb_true_iff in He as [He G]).
  apply N.eqb_eq in He, G1. apply nonemptyb_ne in G3, G0. apply wordb_word in G2, G.
  cbn [fold_left]. unfold escapeRegExp_pattern at 2.
  assert (Ek : fst e = removelast (fst e) ++ [colon]).
  { rewrite <- He. apply app_removelast_last. intro Z. rewrite Z in G3. now apply G3. }
  assert (Ev : snd e = removelast (snd e) ++ [colon]).
  { rewrite <- G1. apply app_removelast_last. intro Z. rewrite Z in G0. now apply G0. }
  rewrite Ek at 1. rewrite Ev at 1.
  rewrite key_pass by assumption.
  rewrite (IH Hl); [reflexivity|].
  destruct (colon_next post); [now apply replace_tail_word | exact H2].
Qed.

Lemma word_split_at (x : char) (u post a b : jsstring) :
  is_word x = false -> word u -> u ++ post = a ++ x :: b ->
  exists a', a = u ++ a' /\ post = a' ++ x :: b.
Proof.
  intros Hx Hu. revert a. induction Hu as [|c t Hc Ht IH]; intros a E.
  - now exists a.
  - destruct a as [|y a]; cbn [app] in E.
    + injection E as -> _. congruence.
    + injection E as <- E. destruct (IH _ E) as (a' & -> & ->). now exists a'.
Qed.

Lemma no_at_ov (pre u post : jsstring) :
  nonword pre -> word u -> u <> str "ov" -> nonword post ->
  forall a b, pre ++ u ++ post <> a ++ str "@ov:" ++ b.
Proof.
  intros Hpre Hu Hne Hpost. induction Hpre as [|c pre Hc Hpre IH]; intros a b E.
  - cbn [app] in E. change (str "@ov:" ++ b) with (ch "@" :: str "ov:" ++ b) in E.
    apply word_split_at in E as (a' & _ & E); [|reflexivity | exact Hu].
    rewrite E in Hpost. apply Forall_app in Hpost as [_ Hpost].
    apply Forall_inv_tail, Forall_inv in Hpost. discriminate.
  - destruct a as [|y a]; [|cbn [app] in E; injection E as _ E; exact (IH _ _ E)].
    cbn [app] in E. injection E as _ E. clear IH.
    destruct Hpre as [|y pre Hy _]; [|cbn [app] in E; injection E as -> _; discriminate].
    cbn [app] in E.
    destruct Hu as [|c1 u H1 Hu];
      [destruct Hpost as [|y post Hy _]; [discriminate | injection E as -> _; discriminate]|].
    cbn [app] in E. injection E as -> E.
    destruct Hu as [|c2 u H2 Hu];
      [destruct Hpost as [|y post Hy _]; [discriminate | injection E as -> _; discriminate]|].
    cbn [app] in E. injection E as -> E.
    destruct Hu as [|c3 u H3 Hu]; [now apply Hne|].
    cbn [app] in E. injection E as -> _. discriminate.
Qed.

Lemma at_ov_pass (pre u post : jsstring) :
  nonword pre -> word u -> u <> str "ov" -> nonword post ->
  replace_all (lits (str "@ov:") ++ [sp_star]) [] (pre ++ u ++ post) = pre ++ u ++ post.
Proof.
  intros H1 H2 H3 H4.
  apply (replace_all_fixed _ _ _ (fun s => forall a b, s <> a ++ str "@ov:" ++ b)).
  - intros c t H a b E. apply (H (c :: a) b). cbn [app]. now rewrite E.
  - intros prev s n H E. exfalso.
    apply lits_match in E as (s' & _ & _ & -> & _). exact (H [] s' eq_refl).
  - now apply no_at_ov.
Qed.

Lemma get_Some_In (o : table) (k v : jsstring) : get o k = Some v -> In (k, v) o.
Proof.
  induction o as [|[k' v'] o IH]; cbn [get]; [discriminate|].
  destruct (streqb k' k) eqn:E.
  - intro H. injection H as ->. apply streqb_eq in E. subst. now left.
  - intro H. right. now apply IH.
Qed.

Lemma abbreviate_word (t : table) (u : jsstring) :
  word_entries t = true -> u <> [] -> word u ->
  abbreviate t u <> [] /\ word (abbreviate t u).
Proof.
  intros Ht Hne Hu. unfold abbreviate. destruct (get t u) as [a|] eqn:E; [|now split].
  apply get_Some_In in E. unfold word_entries in Ht. rewrite forallb_forall in Ht.
  specialize (Ht _ E). cbn [fst snd] in Ht.
  apply andb_true_iff in Ht as [Ht H4]. apply andb_true_iff in Ht as [_ H3].
  split; [now apply nonemptyb_ne | now apply wordb_word].
Qed.

Lemma replace_tail_nonempty (w a u : jsstring) :
  a <> [] -> u <> [] -> replace_tail w a u <> [].
Proof.
  intros Ha Hu. destruct u as [|c t]; [contradiction|]. cbn [replace_tail].
  destruct (streqb (c :: t) w); [exact Ha | discriminate].
Qed.

Lemma fold_tail_word (b : bool) (entries : table) (u : jsstring) :
  colon_entries entries = true -> u <> [] -> word u ->
  fold_tail b entries u <> [] /\ word (fold_tail b entries u).
Proof.
  unfold fold_tail. revert u. induction entries as [|e l IH]; intros u He Hne Hu; [now split|].
  cbn [colon_entries forallb] in He. apply andb_true_iff in He as [He Hl].
  repeat (let G := fresh "G" in apply andb_true_iff in He as [He G]).
  apply nonemptyb_ne in G0. apply wordb_word in G.
  cbn [fold_left]. apply (IH _ Hl).
  - destruct b; [now apply replace_tail_nonempty | exact Hne].
  - destruct b; [now apply replace_tail_word | exact Hu].
Qed.

(** [compressDart] on a word between punctuation: the word goes through
    the widget table and, when a colon follows, through the property keys;
    the punctuation stays. *)
Lemma compressDart_one_word (pre u post : jsstring) :
  inert pre -> inert post -> u <> [] -> word u ->
  mem (fold_tail (colon_next post) DART_PROPERTIES (abbreviate DART_WIDGETS u))
      (map fst (sort_by_length_desc DART_KEYWORDS)) = false ->
  fold_tail (colon_next post) DART_PROPERTIES (abbreviate DART_WIDGETS u) <> str "ov" ->
  compressDart_text (pre ++ u ++ post)
  = pre ++ fold_tail (colon_next post) DART_PROPERTIES (abbreviate DART_WIDGETS u) ++ post.
Proof.
  intros Hpre Hpost Hne Hu Hkw Hov.
  pose proof (inert_nonword _ Hpre) as Npre. pose proof (inert_nonword _ Hpost) as Npost.
  destruct (abbreviate_word DART_WIDGETS u eq_refl Hne Hu) as [Hne1 Hu1].
  destruct (fold_tail_word (colon_next post) DART_PROPERTIES _ eq_refl Hne1 Hu1)
    as [Hne2 Hu2].
  unfold compressDart_text. cbv zeta.
  rewrite strip_lines_nospace by now apply nospace_ctx.
  rewrite widget_step, map_words_ctx by assumption.
  rewrite key_passes by (try assumption; reflexivity).
  change (fun full : jsstring => Bnd :: escapeRegExp_pattern full ++ [Bnd]) with whole_word.
  rewrite whole_word_passes_other by (try assumption; reflexivity).
  set (u2 := fold_tail _ _ _) in *.
  assert (Hns : nospace (pre ++ u2 ++ post)) by now apply nospace_ctx.
  unfold tidy.
  rewrite (around_nospace ":" _ Hns), (around_nospace "(" _ Hns), (around_nospace ")" _ Hns),
    (around_nospace "{" _ Hns), (around_nospace "}" _ Hns), (around_nospace "," _ Hns),
    (around_nospace ";" _ Hns).
  rewrite at_ov_pass by assumption.
  rewrite (build_signature_nospace _ Hns).
  now apply delete_LF_nospace.
Qed.

Lemma widget_checks :
  forallb (fun e =>
             nonemptyb (fst e) && wordb (fst e) &&
             forallb (fun b =>
                        streqb (fold_tail b DART_PROPERTIES (abbreviate DART_WIDGETS (fst e)))
                          (snd e)
                        && negb (mem (snd e) (map fst (sort_by_length_desc DART_KEYWORDS)))
                        && negb (streqb (snd e) (str "ov")))
               [true; false])
    DART_WIDGETS = true.
Proof. vm_compute. reflexivity. Qed.

Lemma property_checks :
  forallb (fun e =>
             N.eqb (last (fst e) 0%N) colon && nonemptyb (removelast (fst e))
             && wordb (removelast (fst e))
             && streqb (fold_tail true DART_PROPERTIES
                          (abbreviate DART_WIDGETS (removelast (fst e))) ++ [colon])
                  (snd e)
             && negb (mem (removelast (snd e)) (map fst (sort_by_length_desc DART_KEYWORDS)))
             && negb (streqb (removelast (snd e)) (str "ov")))
    DART_PROPERTIES = true.
Proof. vm_compute. reflexivity. Qed.

Lemma compressDart_widget_name (long short pre post : jsstring) :
  In (long, short) DART_WIDGETS -> inert pre -> inert post ->
  compressedCode (compressDart (pre ++ long ++ post)) = pre ++ short ++ post.
Proof.
  intros Hin Hpre Hpost.
  pose proof widget_checks as H. rewrite forallb_forall in H. specialize (H _ Hin).
  cbn [fst snd] in H. apply andb_true_iff in H as [H Hb].
  apply andb_true_iff in H as [H1 H2]. apply nonemptyb_ne in H1. apply wordb_word in H2.
  rewrite forallb_forall in Hb.
  assert (Hc : In (colon_next post) [true; false])
    by (destruct (colon_next post); simpl; auto).
  specialize (Hb _ Hc).
  apply andb_true_iff in Hb as [Hb H5]. apply andb_true_iff in Hb as [H3 H4].
  apply streqb_eq in H3. apply negb_true_iff in H4, H5.
  unfold compressDart, result_of. cbn [compressedCode].
  rewrite compressDart_one_word; try assumption.
  - now rewrite H3.
  - now rewrite H3.
  - rewrite H3. intro E. rewrite E, streqb_refl in H5. discriminate.
Qed.

Lemma compressDart_property_key (long short pre post : jsstring) :
  In (long, short) DART_PROPERTIES -> inert pre -> inert post ->
  compressedCode (compressDart (pre ++ long ++ post)) = pre ++ short ++ post.
Proof.
  intros Hin Hpre Hpost.
  pose proof property_checks as H. rewrite forallb_forall in H. specialize (H _ Hin).
  cbn [fst snd] in H.
  repeat (let G := fresh "G" in apply andb_true_iff in H as [H G]).
  apply N.eqb_eq in H. apply nonemptyb_ne in G3. apply wordb_word in G2.
  apply streqb_eq in G1. apply negb_true_iff in G0, G.
  assert (El : long = removelast long ++ [colon]).
  { rewrite <- H. apply app_removelast_last. intro Z. rewrite Z in G3. now apply G3. }
  assert (Hpost' : inert (colon :: post)) by (constructor; [reflexivity | exact Hpost]).
  assert (Es : removelast short
               = fold_tail true DART_PROPERTIES (abbreviate DART_WIDGETS (removelast long))).
  { rewrite <- G1. now rewrite removelast_last. }
  unfold compressDart, result_of. cbn [compressedCode].
  rewrite El at 1. rewrite <- app_assoc. cbn [app].
  rewrite compressDart_one_word; try assumption; cbn [colon_next]; rewrite N.eqb_refl.
  - rewrite <- G1. now rewrite <- app_assoc.
  - now rewrite <- Es.
  - rewrite <- Es. intro E. rewrite E, streqb_refl in G. discriminate.
Qed.

(** C3, amended. The substitution is made by regular expressions on the
    source text, not on typed fields, and takes no account of the place of a
    name.  The widget step of [compressDart] maps the text word by word: a
    word that is a name of [DART_WIDGETS] is replaced by its short form,
    wherever it stands, and nothing else is changed.  And for every entry of
    [DART_WIDGETS] or [DART_PROPERTIES], between any two texts of
    punctuation (quotes of a string literal, the colon of a key, a
    parenthesis), [compressDart] replaces the long form by the short form. *)
Theorem substitution_whatever_position :
  (forall s, replace_entries whole_word (sort_by_length_desc DART_WIDGETS) s
             = map_words (abbreviate DART_WIDGETS) s)
  /\ (forall long short pre post,
        In (long, short) DART_WIDGETS \/ In (long, short) DART_PROPERTIES ->
        inert pre -> inert post ->
        compressedCode (compressDart (pre ++ long ++ post)) = pre ++ short ++ post).
Proof.
  split; [exact widget_step|].
  intros long short pre post [H | H].
  - now apply compressDart_widget_name.
  - now apply compressDart_property_key.
Qed.

Lemma substitution_whatever_position_witness :
  In (str "Row", str "R") DART_WIDGETS /\ inert [dquote] /\ inert (str ":")
  /\ compressedCode (compressDart ([dquote] ++ str "Row" ++ [dquote]))
     = [dquote] ++ str "R" ++ [dquote]
  /\ compressedCode (compressDart ([dquote] ++ str "Row" ++ str ":"))
     = [dquote] ++ str "R" ++ str ":".
Proof.
  assert (H : In (str "Row", str "R") DART_WIDGETS)
    by (unfold DART_WIDGETS, entry; simpl; do 2 right; left; reflexivity).
  assert (H1 : inert [dquote]) by (repeat constructor).
  assert (H2 : inert (str ":")) by (repeat constructor).
  split; [exact H|]. split; [exact H1|]. split; [exact H2|]. split.
  - exact (proj2 substitution_whatever_position _ _ _ _ (or_introl H) H1 H1).
  - exact (proj2 substitution_whatever_position _ _ _ _ (or_introl H) H1 H2).
Defined.

End Substitution.

(** ** Tables *)

Module Tables.

Import Browser Constants.

Lemma get_set_same (o : table) (k v : jsstring) : get (set o k v) k = Some v.
Proof.
  induction o as [|[k' v'] o IH]; simpl.
  - now rewrite streqb_refl.
  - destruct (streqb k' k) eqn:E; simpl; rewrite E; [reflexivity | exact IH].
Qed.

Lemma get_set_other (o : table) (k v k0 : jsstring) :
  k <> k0 -> get (set o k v) k0 = get o k0.
Proof.
  intro Hne. induction o as [|[k' v'] o IH]; simpl.
  - apply streqb_neq in Hne. now rewrite Hne.
  - destruct (streqb k' k) eqn:E; simpl.
    + apply streqb_eq in E. subst k'.
      apply streqb_neq in Hne. now rewrite Hne.
    + now rewrite IH.
Qed.

(** Reading a key after a run of assignments: the value of the last
    assignment to that key, or the former value when there is none. *)
Lemma get_fold_set (l : list (jsstring * jsstring)) (acc : table) (k : jsstring) :
  (exists v, In (k, v) l /\
             get (fold_left (fun o kv => set o (fst kv) (snd kv)) l acc) k = Some v)
  \/ ((forall v, ~ In (k, v) l) /\
      get (fold_left (fun o kv => set o (fst kv) (snd kv)) l acc) k = get acc k).
Proof.
  revert acc. induction l as [|[k1 v1] l IH]; intro acc; simpl.
  - right. split; [tauto | reflexivity].
  - destruct (IH (set acc k1 v1)) as [[v [Hin Hget]] | [Hno Hget]].
    + left. exists v. split; [now right | exact Hget].
    + destruct (streqb k1 k) eqn:E.
      * apply streqb_eq in E. subst k1. left. exists v1.
        split; [now left|]. rewrite Hget. apply get_set_same.
      * apply streqb_neq in E. right. split.
        -- intros v [H | H]; [congruence | exact (Hno v H)].
        -- rewrite Hget. now apply get_set_other.
Qed.

Lemma get_In (o : table) (k v : jsstring) :
  NoDup (map fst o) -> In (k, v) o -> get o k = Some v.
Proof.
  induction o as [|[k' v'] o IH]; simpl; intros Hnd Hin; [tauto|].
  inversion Hnd as [|? ? Hnotin Hnd']; subst.
  destruct Hin as [H | H].
  - injection H as -> ->. now rewrite streqb_refl.
  - destruct (streqb k' k) eqn:E.
    + apply streqb_eq in E. subst k'. exfalso. apply Hnotin.
      change k with (fst (k, v)). now apply in_map.
    + now apply IH.
Qed.

(** Long to short to long is the identity on the long forms of any table
    whose keys are distinct. *)
Lemma reverse_map_roundtrip (o : table) (k v : jsstring) :
  NoDup (map fst o) -> In (k, v) o ->
  exists k', get (reverse_map o) v = Some k' /\ get o k' = Some v.
Proof.
  intros Hnd Hin. unfold reverse_map, fromEntries.
  destruct (get_fold_set (map (fun kv => (snd kv, fst kv)) o) [] v)
    as [[k' [Hin' Hget]] | [Hno _]].
  - exists k'. split; [exact Hget|].
    apply in_map_iff in Hin' as [[a b] [Heq Hab]]. simpl in Heq.
    injection Heq as -> ->. now apply get_In.
  - exfalso. apply (Hno k).
    change (v, k) with ((fun kv : jsstring * jsstring => (snd kv, fst kv)) (k, v)).
    now apply in_map.
Qed.

Lemma WIDGET_ABBREVIATIONS_keys : NoDup (map fst WIDGET_ABBREVIATIONS).
Proof. apply nodupb_NoDup. vm_compute. reflexivity. Qed.

(** C9. For every long form [v] that is a value of [WIDGET_ABBREVIATIONS],
    [REVERSE_WIDGET_MAP[v]] is defined and
    [WIDGET_ABBREVIATIONS[REVERSE_WIDGET_MAP[v]]] is [v], although two
    short codes ([Z] and [Sz]) have the same long form. *)
Theorem REVERSE_WIDGET_MAP_roundtrip (k v : jsstring) :
  In (k, v) WIDGET_ABBREVIATIONS ->
  exists k', get REVERSE_WIDGET_MAP v = Some k' /\
             get WIDGET_ABBREVIATIONS k' = Some v.
Proof. apply reverse_map_roundtrip, WIDGET_ABBREVIATIONS_keys. Qed.

Lemma REVERSE_WIDGET_MAP_roundtrip_witness :
  In (str "Z", str "SizedBox") WIDGET_ABBREVIATIONS /\
  exists k', get REVERSE_WIDGET_MAP (str "SizedBox") = Some k' /\
             get WIDGET_ABBREVIATIONS k' = Some (str "SizedBox").
Proof.
  assert (H : In (str "Z", str "SizedBox") WIDGET_ABBREVIATIONS).
  { unfold WIDGET_ABBREVIATIONS, abbr. simpl. do 11 right. left. reflexivity. }
  split; [exact H | exact (REVERSE_WIDGET_MAP_roundtrip _ _ H)].
Defined.

Lemma SizedBox_two_codes :
  get WIDGET_ABBREVIATIONS (str "Z") = Some (str "SizedBox") /\
  get WIDGET_ABBREVIATIONS (str "Sz") = Some (str "SizedBox") /\
  get REVERSE_WIDGET_MAP (str "SizedBox") = Some (str "Sz").
Proof. repeat split; vm_compute; reflexivity. Qed.

(** C4, counterexample. The invariant fails on shipped tables: in
    [DART_WIDGETS] the short form [S] is a prefix of the short form [St],
    and [WIDGET_ABBREVIATIONS] gives the long form [SizedBox] two short
    forms. *)
Lemma shipped_tables_break_invariant :
  ~ symbol_table_invariant DART_WIDGETS /\
  ~ symbol_table_invariant (map swap WIDGET_ABBREVIATIONS).
Proof.
  split.
  - intros (_ & _ & Hpre).
    apply (Hpre (str "S") (str "St")).
    + unfold DART_WIDGETS, entry. simpl. left. reflexivity.
    + unfold DART_WIDGETS, entry. simpl. do 19 right. left. reflexivity.
    + discriminate.
    + exists (str "t"). reflexivity.
  - intros (Hlong & _).
    assert (Hb : nodupb (map fst (map swap WIDGET_ABBREVIATIONS)) = false)
      by (vm_compute; reflexivity).
    revert Hlong Hb. generalize (map fst (map swap WIDGET_ABBREVIATIONS)).
    intros l Hl. induction Hl as [|x l Hx Hl IH]; simpl; [discriminate|].
    intro Hb. apply andb_false_iff in Hb as [Hb | Hb].
    + apply negb_false_iff, mem_In in Hb. contradiction.
    + auto.
Qed.

(** C4, amended. In every table of the browser library each long form has
    one short form and no two long forms share a short form; in
    [WIDGET_ABBREVIATIONS] each short code has one long form. *)
Theorem shipped_tables_one_to_one :
  Forall (fun t : table => NoDup (map fst t) /\ NoDup (map snd t))
    [DART_WIDGETS; DART_PROPERTIES; DART_KEYWORDS; REACT_HOOKS; JSX_ELEMENTS;
     REACT_COMPONENTS; REACT_PROPERTIES; JS_KEYWORDS]
  /\ NoDup (map fst WIDGET_ABBREVIATIONS).
Proof.
  split.
  - repeat (constructor;
            [split; apply nodupb_NoDup; vm_compute; reflexivity|]).
    constructor.
  - apply nodupb_NoDup. vm_compute. reflexivity.
Qed.

End Tables.

(** ** The syntax check *)

Module SyntaxCheck.

Import Normalize Constants.

Local Open Scope Z_scope.

Local Notation "'depthB'" := (depth (ch "{") (ch "}")).
Local Notation "'depthK'" := (depth (ch "[") (ch "]")).

Lemma occ_cons (o x : char) (s : jsstring) :
  occ o (x :: s) = (if N.eqb x o then 1 else 0) + occ o s.
Proof.
  unfold occ. simpl. destruct (N.eq_dec x o) as [E | E].
  - subst. rewrite N.eqb_refl. lia.
  - apply N.eqb_neq in E. rewrite E. lia.
Qed.

Lemma bump_depth (c o cl : char) (n : Z) : bump c o cl n = n + depth o cl [c].
Proof.
  unfold bump, depth. rewrite !occ_cons. change (occ o []) with 0. change (occ cl []) with 0.
  destruct (N.eqb c o), (N.eqb c cl); lia.
Qed.

Lemma depth_cons (o cl c : char) (s : jsstring) :
  depth o cl (c :: s) = depth o cl [c] + depth o cl s.
Proof.
  unfold depth. rewrite !occ_cons. change (occ o []) with 0. change (occ cl []) with 0.
  lia.
Qed.

Lemma depth_nil (o cl : char) : depth o cl [] = 0.
Proof. reflexivity. Qed.

(** What the loop returns when it runs to the end. *)
Lemma count_loop_Some (s : jsstring) :
  forall b k b' k', 0 <= b -> 0 <= k ->
    count_loop s b k = Some (b', k') ->
    b' = b + depthB s /\ k' = k + depthK s /\
    forall p q, s = p ++ q -> 0 <= b + depthB p /\ 0 <= k + depthK p.
Proof.
  induction s as [|c t IH]; intros b k b' k' Hb Hk H.
  - simpl in H. injection H as <- <-. rewrite !depth_nil.
    split; [lia|]. split; [lia|].
    intros [|x p] q Hpq; [rewrite !depth_nil; lia | discriminate].
  - cbn [count_loop] in H. cbv zeta in H.
    rewrite !bump_depth in H.
    destruct ((b + depthB [c] <? 0) || (k + depthK [c] <? 0))%bool eqn:E;
      [discriminate|].
    apply orb_false_iff in E as [E1 E2].
    apply Z.ltb_ge in E1. apply Z.ltb_ge in E2.
    destruct (IH _ _ _ _ E1 E2 H) as (-> & -> & Hp).
    rewrite (depth_cons _ _ c t), (depth_cons (ch "[") _ c t).
    split; [lia|]. split; [lia|].
    intros [|x p] q Hpq; [rewrite !depth_nil; lia|].
    simpl in Hpq. injection Hpq as <- ->.
    rewrite (depth_cons _ _ c p), (depth_cons (ch "[") _ c p).
    destruct (Hp p q eq_refl). lia.
Qed.

(** The loop runs to the end when no prefix closes more than it opened. *)
Lemma count_loop_complete (s : jsstring) :
  forall b k,
    (forall p q, s = p ++ q -> 0 <= b + depthB p /\ 0 <= k + depthK p) ->
    count_loop s b k = Some (b + depthB s, k + depthK s).
Proof.
  induction s as [|c t IH]; intros b k Hp.
  - simpl. rewrite !depth_nil. do 2 f_equal; lia.
  - cbn [count_loop]. cbv zeta. rewrite !bump_depth.
    destruct (Hp [c] t eq_refl) as [H1 H2].
    apply Z.ltb_ge in H1 as H1'. apply Z.ltb_ge in H2 as H2'.
    rewrite H1', H2'. simpl orb. cbv iota.
    rewrite IH.
    + rewrite (depth_cons _ _ c t), (depth_cons (ch "[") _ c t).
      do 2 f_equal; lia.
    + intros p q ->. destruct (Hp (c :: p) q eq_refl) as [H3 H4].
      rewrite (depth_cons _ _ c p) in H3.
      rewrite (depth_cons _ _ c p) in H4. lia.
Qed.

Lemma count_loop_Balanced (s : jsstring) :
  count_loop s 0 0 = Some (0, 0) <-> Balanced s.
Proof.
  split.
  - intro H. apply count_loop_Some in H as (H1 & H2 & Hp); try lia.
    repeat split; try lia; destruct (Hp p q H); lia.
  - intros (Hp & H1 & H2).
    rewrite (count_loop_complete s 0 0).
    + now rewrite H1, H2.
    + intros p q E. destruct (Hp p q E). lia.
Qed.

Lemma count_loop_app (p q : jsstring) :
  forall b k,
    count_loop (p ++ q) b k =
    match count_loop p b k with
    | Some (b', k') => count_loop q b' k'
    | None => None
    end.
Proof.
  induction p as [|c p IH]; intros b k; [reflexivity|].
  cbn [app count_loop]. cbv zeta.
  destruct (_ || _)%bool; [reflexivity | apply IH].
Qed.

Lemma space_bump (c : char) (n : Z) :
  is_space c = true ->
  bump c (ch "{") (ch "}") n = n /\ bump c (ch "[") (ch "]") n = n.
Proof.
  intro H. unfold bump.
  assert (forall x, is_space x = false -> N.eqb c x = false) as Hx.
  { intros x Hx. destruct (N.eqb c x) eqn:E; [|reflexivity].
    apply N.eqb_eq in E. congruence. }
  rewrite !Hx by reflexivity. tauto.
Qed.

Lemma count_loop_spaces (w : jsstring) :
  spaces w -> forall b k, 0 <= b -> 0 <= k -> count_loop w b k = Some (b, k).
Proof.
  induction 1 as [|c w Hc Hw IH]; intros b k Hb Hk; [reflexivity|].
  cbn [count_loop]. cbv zeta.
  destruct (space_bump c b Hc) as [-> _].
  destruct (space_bump c k Hc) as [_ ->].
  rewrite (proj2 (Z.ltb_ge b 0) Hb), (proj2 (Z.ltb_ge k 0) Hk). simpl.
  now apply IH.
Qed.

Lemma trimStart_decomp (s : jsstring) :
  exists w, s = w ++ trimStart s /\ spaces w.
Proof.
  induction s as [|c t (w & E & Hw)]; simpl.
  - exists []. split; [reflexivity | constructor].
  - destruct (is_space c) eqn:Hc.
    + exists (c :: w). split; [simpl; congruence | now constructor].
    + exists []. split; [reflexivity | constructor].
Qed.

Lemma trimEnd_decomp (s : jsstring) :
  exists w, s = trimEnd s ++ w /\ spaces w.
Proof.
  induction s as [|c t (w & E & Hw)]; simpl.
  - exists []. split; [reflexivity | constructor].
  - destruct (trimEnd t) as [|x r].
    + simpl in E. subst t. destruct (is_space c) eqn:Hc.
      * exists (c :: w). split; [reflexivity | now constructor].
      * exists w. split; [reflexivity | exact Hw].
    + exists w. split; [simpl; f_equal; exact E | exact Hw].
Qed.

(** White space around the document does not change the counters. *)
Lemma count_loop_trim (s : jsstring) :
  count_loop (trim s) 0 0 = count_loop s 0 0.
Proof.
  unfold trim.
  destruct (trimStart_decomp s) as (w1 & E1 & H1).
  destruct (trimEnd_decomp (trimStart s)) as (w2 & E2 & H2).
  rewrite E1 at 2. rewrite count_loop_app, (count_loop_spaces w1 H1) by lia.
  rewrite E2 at 2. rewrite count_loop_app.
  destruct (count_loop (trimEnd (trimStart s)) 0 0) as [[b k]|] eqn:E;
    [|reflexivity].
  apply count_loop_Some in E as (-> & -> & Hp); try lia.
  destruct (Hp _ [] (eq_sym (app_nil_r _))).
  symmetry. now apply count_loop_spaces.
Qed.

(** A pattern anchored at the start is tried at the start only. *)
Lemma test_Bol (r : regex) (s : jsstring) :
  test (Bol :: r) s =
  match match_here r None s with Some _ => true | None => false end.
Proof.
  unfold test.
  assert (forall t c, test_from (match_here (Bol :: r)) (Some c) t = false) as H.
  { induction t as [|x t IH]; intro c; simpl; [reflexivity | apply IH]. }
  destruct s as [|x t]; simpl.
  - now destruct (match_here r None []).
  - destruct (match_here r None (x :: t)); [reflexivity | apply H].
Qed.

Lemma test_capital_or_c (t : jsstring) :
  test capital_or_c t = true <-> starts_capital_or_c t.
Proof.
  unfold capital_or_c. rewrite test_Bol. destruct t as [|x t]; cbn [match_here].
  - split; [discriminate | intros (c & r & E & _); discriminate].
  - destruct (is_upper x || N.eqb x (ch "c"))%bool eqn:E; cbn [option_map].
    + split; [|reflexivity]. intros _. now exists x, t.
    + split; [discriminate|]. intros (c & r & E' & H).
      injection E' as <- <-. congruence.
Qed.

(** Each of the five patterns begins with a capital letter or with [c]. *)
Lemma validPatterns_head (t : jsstring) :
  existsb (fun p => test p t) validPatterns = true ->
  test capital_or_c t = true.
Proof.
  unfold validPatterns, capital_or_c. cbn [existsb]. rewrite !test_Bol.
  destruct t as [|x t]; [simpl; discriminate|].
  cbn [match_here].
  destruct (is_upper x); [reflexivity|].
  destruct (N.eqb x (ch "c")); [reflexivity|].
  simpl. discriminate.
Qed.

(** The chain of tests after the loop, as a condition. *)
Lemma verdict_shape (b k : Z) (semi nl hasValidPattern cap : bool) (n : nat) :
  (if (negb (b =? 0) || negb (k =? 0))%bool then false
   else if (negb semi && negb nl)%bool then
     if (negb hasValidPattern && Nat.ltb 0 n)%bool then
       if negb cap then false else true
     else true
   else true) = true <->
  b = 0 /\ k = 0 /\
  (semi = true \/ nl = true \/ n = 0%nat \/ hasValidPattern = true \/ cap = true).
Proof.
  destruct (Z.eqb_spec b 0), (Z.eqb_spec k 0), semi, nl, hasValidPattern, cap, n;
    simpl; intuition (try discriminate; try lia).
Qed.

Lemma isValidCoonSyntax_unfold (code : jsstring) :
  isValidCoonSyntax code = true <->
  count_loop code 0 0 = Some (0, 0) /\
  (includes (ch ";") (trim code) = true \/ includes LF (trim code) = true \/
   trim code = [] \/ starts_capital_or_c (trim code)).
Proof.
  unfold isValidCoonSyntax. cbv zeta. rewrite count_loop_trim.
  destruct (count_loop code 0 0) as [[b k]|];
    [|split; [discriminate | intros [H _]; discriminate]].
  rewrite verdict_shape. rewrite <- test_capital_or_c.
  split.
  - intros (-> & -> & H). split; [reflexivity|].
    destruct H as [H | [H | [H | [H | H]]]]; auto.
    + right. right. left. now destruct (trim code).
    + apply validPatterns_head in H. auto.
  - intros (E & H). injection E as -> ->. split; [reflexivity|].
    split; [reflexivity|].
    destruct H as [H | [H | [H | H]]]; auto.
    right. right. left. now rewrite H.
Qed.

Lemma isValidCoonSyntax_Balanced (code : jsstring) :
  isValidCoonSyntax code = true -> Balanced code.
Proof.
  intro H. apply isValidCoonSyntax_unfold in H as [H _].
  now apply count_loop_Balanced.
Qed.

Lemma occ_nonneg (c : char) (s : jsstring) : 0 <= occ c s.
Proof. unfold occ. lia. Qed.

Ltac counters_nonneg :=
  match goal with
  | |- context [((?a <? 0) || (?b <? 0))%bool] =>
      replace ((a <? 0) || (b <? 0))%bool with false
        by (symmetry; apply orb_false_intro; apply Z.ltb_ge; lia)
  end.

(** Braces and brackets that nest are balanced in number. *)
Lemma nested_count_loop (s : jsstring) :
  forall stack, nested stack s = true ->
    count_loop s (occ (ch "}") stack) (occ (ch "]") stack) = Some (0, 0).
Proof.
  induction s as [|c t IH]; intros stack H.
  - destruct stack; [reflexivity | discriminate].
  - cbn [nested] in H. cbn [count_loop]. cbv zeta. unfold bump.
    change (ch "{") with 123%N in *. change (ch "}") with 125%N in *.
    change (ch "[") with 91%N in *. change (ch "]") with 93%N in *.
    pose proof (occ_nonneg 125%N stack) as Hb. pose proof (occ_nonneg 93%N stack) as Hk.
    revert H. destruct (N.eqb_spec c 123) as [-> | N1].
    { intro H. apply IH in H. rewrite !occ_cons in H. cbn [N.eqb Pos.eqb] in H.
      cbn [N.eqb Pos.eqb]. counters_nonneg. rewrite <- H. f_equal; lia. }
    destruct (N.eqb_spec c 91) as [-> | N2].
    { intro H. apply IH in H. rewrite !occ_cons in H. cbn [N.eqb Pos.eqb] in H.
      cbn [N.eqb Pos.eqb]. counters_nonneg. rewrite <- H. f_equal; lia. }
    destruct (N.eqb_spec c 125) as [-> | N3].
    { cbn [orb N.eqb Pos.eqb]. destruct stack as [|x stack]; [discriminate|].
      intro H. apply andb_true_iff in H as [Hx H]. apply N.eqb_eq in Hx. subst x.
      apply IH in H. rewrite !occ_cons in *. cbn [N.eqb Pos.eqb] in *.
      pose proof (occ_nonneg 125%N stack). counters_nonneg.
      rewrite <- H. f_equal; lia. }
    destruct (N.eqb_spec c 93) as [-> | N4].
    { cbn [orb N.eqb Pos.eqb]. destruct stack as [|x stack]; [discriminate|].
      intro H. apply andb_true_iff in H as [Hx H]. apply N.eqb_eq in Hx. subst x.
      apply IH in H. rewrite !occ_cons in *. cbn [N.eqb Pos.eqb] in *.
      pose proof (occ_nonneg 93%N stack). counters_nonneg.
      rewrite <- H. f_equal; lia. }
    cbn [orb]. intro H. apply IH in H. counters_nonneg. exact H.
Qed.

Lemma well_nested_Balanced (s : jsstring) : well_nested s = true -> Balanced s.
Proof.
  intro H. apply count_loop_Balanced. exact (nested_count_loop s [] H).
Qed.

(** C5, counterexample. The document [S{[}]], whose brace closes before
    the bracket opened inside it, is accepted; and the verdict tells no error
    kind: the unbalanced document [S{b] and the balanced document [row{}]
    have the same verdict. *)
Lemma misnested_accepted_no_error_kind :
  ~ unbalanced_rejected (str "S{[}]")
  /\ ~ exists kind_of,
        verdict_tells_unbalanced kind_of (str "S{b")
        /\ verdict_tells_unbalanced kind_of (str "row{}").
Proof.
  split.
  - intro H. assert (E : well_nested (str "S{[}]") = false) by (vm_compute; reflexivity).
    apply H in E. vm_compute in E. discriminate.
  - intros (kind_of & [_ H1] & [H2 _]).
    assert (E : kind_of (isValidCoonSyntax (str "S{b")) = Some UnbalancedBracket)
      by (apply H1; vm_compute; reflexivity).
    change (isValidCoonSyntax (str "S{b")) with (isValidCoonSyntax (str "row{}")) in E.
    apply H2 in E. vm_compute in E. discriminate.
Qed.

(** C5, amended. The syntax check returns a boolean; it counts the braces
    and the brackets, each kind by itself: a document in which some prefix
    closes more braces (or brackets) than it opened, or which as a whole
    does not close as many as it opens, is rejected, and the braces and
    brackets of such a document do not nest.  So it is with [S{b]. *)
Theorem isValidCoonSyntax_rejects_unbalanced (code : jsstring) :
  ~ Balanced code -> isValidCoonSyntax code = false /\ well_nested code = false.
Proof.
  intro H. split.
  - destruct (isValidCoonSyntax code) eqn:E; [|reflexivity].
    exfalso. apply H. now apply isValidCoonSyntax_Balanced.
  - destruct (well_nested code) eqn:E; [|reflexivity].
    exfalso. apply H. now apply well_nested_Balanced.
Qed.

Lemma isValidCoonSyntax_rejects_unbalanced_witness :
  ~ Balanced (str "S{b")
  /\ isValidCoonSyntax (str "S{b") = false /\ well_nested (str "S{b") = false.
Proof.
  assert (H : ~ Balanced (str "S{b")).
  { intros (_ & H & _). vm_compute in H. discriminate. }
  split; [exact H | exact (isValidCoonSyntax_rejects_unbalanced (str "S{b") H)].
Defined.

(** C6, counterexample. [Q], the leading short code of the document
    [Q{}], is not a short code of the table, and the document is accepted. *)
Lemma unknown_code_accepted : ~ unknown_code_rejected (str "Q{}").
Proof.
  unfold unknown_code_rejected. intro H.
  assert (E : get WIDGET_ABBREVIATIONS (leading_code (str "Q{}")) = None)
    by (vm_compute; reflexivity).
  apply H in E. vm_compute in E. discriminate.
Qed.

(** C6, amended. The syntax check consults no symbol table: a document is
    accepted exactly when it is balanced and, if it has neither a semicolon
    nor a newline and is not blank, begins with a capital letter or [c]. *)
Theorem isValidCoonSyntax_ignores_tables (code : jsstring) :
  isValidCoonSyntax code = true <->
  Balanced code /\
  (includes (ch ";") (trim code) = true \/ includes LF (trim code) = true \/
   trim code = [] \/ starts_capital_or_c (trim code)).
Proof. rewrite isValidCoonSyntax_unfold, count_loop_Balanced. reflexivity. Qed.

End SyntaxCheck.

(** ** The compressor singleton *)

Module Singleton.

Import Generator.


Section WithSDK.

Variable Compressor : Type.
Variable Result : Type.
Variable new_Compressor : CompressorOptions -> Compressor.
Variable compressedCode : Result -> jsstring.
Variable compress :
  Compressor -> jsstring -> option CompressionStrategyType -> Result * Compressor.

Local Notation "'step''" := (step new_Compressor compressedCode compress).
Local Notation "'run''" := (run new_Compressor compressedCode compress).

Lemma batch_instance (dartCodes : list jsstring) :
  forall (outputs : list jsstring) (c : Compressor),
    snd (fold_left (fun acc code =>
                      let (result, c') := compress (snd acc) code None in
                      (fst acc ++ [compressedCode result], c'))
           dartCodes (outputs, c))
    = invoke compress c (map (fun d => (d, None)) dartCodes).
Proof.
  unfold invoke. induction dartCodes as [|d ds IH]; intros outputs c; [reflexivity|].
  cbn [fold_left map fst snd]. destruct (compress c d None) as [result c'] eqn:E.
  rewrite IH. reflexivity.
Qed.

(** A call other than [resetCompressor] leaves in the module variable the
    instance it found there, or a new one, after its invocations. *)
Lemma step_invokes (st : module_state Compressor) (c : call) :
  c <> ResetCompressor ->
  step' st c = Some (invoke compress (fst (getCompressor new_Compressor st)) (invocations c)).
Proof.
  intro Hc. destruct c as [d | d s | d | ds |]; [| | | |contradiction];
    cbn [Generator.step invocations];
    unfold compressToCoon, compressToCoonWithStrategy, getCompressionStats, batchCompress;
    destruct (getCompressor new_Compressor st) as [i st1]; cbn [fst].
  - unfold invoke. cbn [fold_left fst snd]. now destruct (compress i d None).
  - unfold invoke. cbn [fold_left fst snd]. now destruct (compress i d (Some s)).
  - unfold invoke. cbn [fold_left fst snd]. now destruct (compress i d None).
  - rewrite <- (batch_instance ds [] i).
    now destruct (fold_left _ ds ([], i)).
Qed.

Lemma run_from (history : list call) :
  forall (recent : list call) (st : module_state Compressor),
    st = instance_after new_Compressor compress recent ->
    fold_left step' history st
    = instance_after new_Compressor compress (since_reset_go recent history).
Proof.
  unfold since_reset_go.
  induction history as [|c history IH]; intros recent st Hst; [exact Hst|].
  cbn [fold_left]. apply IH.
  destruct c as [d | d s | d | ds |] eqn:Ec; [| | | |reflexivity];
    rewrite <- Ec; (rewrite step_invokes by (rewrite Ec; discriminate));
    subst st; destruct recent as [|r recent]; cbn [instance_after getCompressor fst app];
    unfold invoke; cbn [flat_map]; rewrite ?app_nil_r, ?flat_map_app, ?fold_left_app;
    cbn [flat_map]; rewrite ?app_nil_r; reflexivity.
Qed.

Lemma since_reset_go_reset (h1 h2 recent : list call) :
  since_reset_go recent (h1 ++ ResetCompressor :: h2) = since_reset_go [] h2.
Proof. unfold since_reset_go. now rewrite fold_left_app. Qed.


End WithSDK.

End Singleton.

(** * Further properties *)

Import JSLib MoreProps.

(** ** Lengths of matches and of replacements *)

Module Lengths.

Lemma star_match_bounds (p : char -> bool) (k : matcher) (L : nat) :
  (forall prev s n, k prev s = Some n -> L <= n <= List.length s) ->
  forall s prev n, star_match p k prev s = Some n -> L <= n <= List.length s.
Proof.
  intros Hk. induction s as [|c t IH]; intros prev n H; simpl in H.
  - now apply Hk in H.
  - destruct (p c).
    + destruct (star_match p k (Some c) t) as [n'|] eqn:E.
      * injection H as <-. apply IH in E. simpl. lia.
      * now apply Hk in H.
    + now apply Hk in H.
Qed.

(** A match is at least as long as the literals, classes and [+] of its
    pattern, and lies within the subject. *)
Lemma match_here_bounds (r : regex) :
  forall prev s n, match_here r prev s = Some n -> min_len r <= n <= List.length s.
Proof.
  induction r as [|a r IH]; intros prev s n H.
  - simpl in H. injection H as <-. simpl. lia.
  - destruct a; cbn [match_here min_len] in *.
    + destruct s as [|x t]; [discriminate|]. destruct (N.eqb x c); [|discriminate].
      destruct (match_here r (Some x) t) as [n'|] eqn:E; [|discriminate].
      injection H as <-. apply IH in E. simpl. lia.
    + destruct s as [|x t]; [discriminate|]. destruct (p x); [|discriminate].
      destruct (match_here r (Some x) t) as [n'|] eqn:E; [|discriminate].
      injection H as <-. apply IH in E. simpl. lia.
    + exact (star_match_bounds p (match_here r) (min_len r) IH s prev n H).
    + destruct s as [|x t]; [discriminate|]. destruct (p x); [|discriminate].
      destruct (star_match p (match_here r) (Some x) t) as [n'|] eqn:E; [|discriminate].
      injection H as <-.
      apply (star_match_bounds p (match_here r) (min_len r) IH) in E. simpl. lia.
    + destruct (xorb _ _); [now apply IH in H | discriminate].
    + destruct prev; [discriminate | now apply IH in H].
    + destruct s; [now apply IH in H | discriminate].
Qed.

Lemma replace_go_length (m : matcher) (rep : jsstring) :
  (forall prev s n, m prev s = Some n -> List.length rep <= n <= List.length s) ->
  forall s prev skip,
    List.length (replace_go m rep prev skip s) + Nat.min skip (List.length s)
    <= List.length s.
Proof.
  intro Hm. induction s as [|c t IH]; intros prev skip.
  - destruct skip as [|k]; simpl; [|lia].
    destruct (m prev []) as [[|n]|] eqn:E; simpl; try lia;
      apply Hm in E; simpl in E; rewrite app_nil_r; lia.
  - destruct skip as [|k].
    + cbn [replace_go]. destruct (m prev (c :: t)) as [[|n]|] eqn:E.
      * apply Hm in E. specialize (IH (Some c) 0%nat).
        rewrite length_app. simpl in *. lia.
      * apply Hm in E. specialize (IH (Some c) n).
        rewrite length_app. simpl in *. lia.
      * specialize (IH (Some c) 0%nat). simpl in *. lia.
    + cbn [replace_go]. specialize (IH (Some c) k). simpl. lia.
Qed.

(** A global replacement by a text that is not longer than the shortest
    possible match does not lengthen the subject. *)
Lemma replace_all_length (r : regex) (rep s : jsstring) :
  List.length rep <= min_len r ->
  List.length (replace_all r rep s) <= List.length s.
Proof.
  intro H. unfold replace_all.
  pose proof (replace_go_length (match_here r) rep) as G.
  specialize (G (fun prev s n E => ltac:(apply match_here_bounds in E; lia)) s None 0%nat).
  simpl in G. lia.
Qed.

Lemma fold_left_shrinks {A : Type} (f : jsstring -> A -> jsstring) (l : list A) :
  Forall (fun e => forall acc, List.length (f acc e) <= List.length acc) l ->
  forall s, List.length (fold_left f l s) <= List.length s.
Proof.
  induction 1 as [|e l He Hl IH]; intro s; simpl; [lia|].
  specialize (IH (f s e)). specialize (He s). lia.
Qed.

(** The pass over a table, when each replacement is not longer than the
    matches of its pattern. *)
Lemma table_pass_length (mk : jsstring -> regex) (rep : jsstring * jsstring -> jsstring)
    (entries : table) (s : jsstring) :
  entries_shrink mk rep entries = true ->
  List.length (fold_left (fun acc e => replace_all (mk (fst e)) (rep e) acc) entries s)
  <= List.length s.
Proof.
  intro H. apply fold_left_shrinks. apply Forall_forall. intros e He acc.
  apply replace_all_length. unfold entries_shrink in H.
  rewrite forallb_forall in H. apply Nat.leb_le. now apply H.
Qed.

End Lengths.

(** ** Trimming, splitting and joining *)

Module Lines.

Lemma trimEnd_spaces (w : jsstring) : spaces w -> trimEnd w = [].
Proof.
  induction 1 as [|c w Hc Hw IH]; simpl; [reflexivity|]. now rewrite IH, Hc.
Qed.

Lemma trimStart_app_spaces (w s : jsstring) : spaces w -> trimStart (w ++ s) = trimStart s.
Proof. induction 1 as [|c w Hc Hw IH]; simpl; [reflexivity | now rewrite Hc]. Qed.

Lemma trimEnd_app_spaces (s w : jsstring) : spaces w -> trimEnd (s ++ w) = trimEnd s.
Proof.
  intro H. induction s as [|c s IH]; simpl.
  - now apply trimEnd_spaces.
  - now rewrite IH.
Qed.

Lemma trimStart_app_r (s w : jsstring) :
  spaces w -> exists w', spaces w' /\ trimStart (s ++ w) = trimStart s ++ w'.
Proof.
  intro H. induction s as [|c s (w' & Hw' & E)]; simpl.
  - exists []. split; [constructor|]. apply CompressDart.trimStart_spaces, H.
  - destruct (is_space c).
    + now exists w'.
    + exists w. split; [exact H | reflexivity].
Qed.

(** White space around a text does not change what [trim] returns. *)
Lemma trim_pad (w1 s w2 : jsstring) :
  spaces w1 -> spaces w2 -> trim (w1 ++ s ++ w2) = trim s.
Proof.
  intros H1 H2. unfold trim. rewrite (trimStart_app_spaces w1 _ H1).
  destruct (trimStart_app_r s w2 H2) as (w' & Hw' & ->).
  now apply trimEnd_app_spaces.
Qed.

Lemma trimEnd_idempotent (s : jsstring) : trimEnd (trimEnd s) = trimEnd s.
Proof.
  induction s as [|c s IH]; simpl; [reflexivity|].
  destruct (trimEnd s) as [|x r] eqn:E.
  - destruct (is_space c) eqn:Hc; simpl; [reflexivity | now rewrite Hc].
  - change (trimEnd (c :: x :: r)) with
      (match trimEnd (x :: r) with
       | [] => if is_space c then [] else [c]
       | t' => c :: t'
       end).
    now rewrite IH.
Qed.

Lemma trimStart_head (s : jsstring) :
  trimStart s = [] \/ exists c r, trimStart s = c :: r /\ is_space c = false.
Proof.
  induction s as [|c s IH]; simpl; [now left|].
  destruct (is_space c) eqn:Hc; [exact IH|]. right. now exists c, s.
Qed.

Lemma trimEnd_head (c : char) (r : jsstring) :
  is_space c = false -> exists r', trimEnd (c :: r) = c :: r'.
Proof.
  intro Hc. simpl. destruct (trimEnd r) as [|x r'].
  - rewrite Hc. now exists [].
  - now exists (x :: r').
Qed.

Lemma trim_head (s : jsstring) :
  trim s = [] \/ exists c r, trim s = c :: r /\ is_space c = false.
Proof.
  unfold trim. destruct (trimStart_head s) as [-> | (c & r & -> & Hc)].
  - now left.
  - right. destruct (trimEnd_head c r Hc) as [r' E]. now exists c, r'.
Qed.

Lemma trim_idempotent (s : jsstring) : trim (trim s) = trim s.
Proof.
  destruct (trim_head s) as [E | (c & r & E & Hc)].
  - now rewrite E.
  - unfold trim at 1. rewrite E. simpl trimStart. rewrite Hc.
    rewrite <- E. unfold trim. apply trimEnd_idempotent.
Qed.

Lemma trimStart_incl (s : jsstring) (x : char) : In x (trimStart s) -> In x s.
Proof.
  induction s as [|c s IH]; simpl; [tauto|].
  destruct (is_space c); simpl; tauto.
Qed.

Lemma trimEnd_incl (s : jsstring) (x : char) : In x (trimEnd s) -> In x s.
Proof.
  induction s as [|c s IH]; simpl; [tauto|].
  destruct (trimEnd s) as [|y r].
  - destruct (is_space c); simpl; tauto.
  - simpl. simpl in IH. tauto.
Qed.

Lemma trim_incl (s : jsstring) (x : char) : In x (trim s) -> In x s.
Proof. intro H. now apply trimStart_incl, trimEnd_incl. Qed.

Lemma trimStart_length (s : jsstring) : List.length (trimStart s) <= List.length s.
Proof.
  induction s as [|c s IH]; simpl; [lia|]. destruct (is_space c); simpl; lia.
Qed.

Lemma trimEnd_length (s : jsstring) : List.length (trimEnd s) <= List.length s.
Proof.
  induction s as [|c s IH]; simpl; [lia|].
  destruct (trimEnd s); [destruct (is_space c)|]; simpl in *; lia.
Qed.

Lemma trim_length (s : jsstring) : List.length (trim s) <= List.length s.
Proof.
  unfold trim. pose proof (trimEnd_length (trimStart s)).
  pose proof (trimStart_length s). lia.
Qed.

(** [split] always returns a piece. *)
Lemma split_nonempty (sep : char) (s : jsstring) :
  exists h t, split sep s = h :: t.
Proof.
  induction s as [|c s (h & t & E)]; simpl.
  - now exists [], [].
  - destruct (N.eqb c sep); [now exists [], (split sep s)|].
    rewrite E. now exists (c :: h), t.
Qed.

(** The pieces of [a ++ b]: those of [a], the last one continued by the
    first piece of [b], then the other pieces of [b]. *)
Lemma split_app (sep : char) (a b : jsstring) :
  split sep (a ++ b) =
  removelast (split sep a) ++
  (last (split sep a) [] ++ hd [] (split sep b)) :: tl (split sep b).
Proof.
  induction a as [|c a IH].
  - simpl. destruct (split_nonempty sep b) as (h & t & ->). reflexivity.
  - cbn [app split]. destruct (N.eqb c sep).
    + rewrite IH. destruct (split_nonempty sep a) as (h & t & E). rewrite E.
      reflexivity.
    + rewrite IH. destruct (split_nonempty sep a) as (h & t & E). rewrite E.
      destruct t as [|x t]; reflexivity.
Qed.

Lemma split_spaces_any (sep : char) (s : jsstring) :
  spaces s -> Forall spaces (split sep s).
Proof.
  induction 1 as [|c s Hc Hs IH]; simpl.
  - repeat constructor.
  - destruct (N.eqb c sep).
    + constructor; [constructor | exact IH].
    + destruct (split sep s) as [|l ls].
      * repeat constructor. exact Hc.
      * inversion IH; subst. constructor; [now constructor | assumption].
Qed.

Lemma trim_spaces (w : jsstring) : spaces w -> trim w = [].
Proof. intro H. unfold trim. now rewrite (CompressDart.trimStart_spaces w H). Qed.

Lemma pieces_blank (f : jsstring -> bool) (ls : list jsstring) :
  f [] = false -> Forall spaces ls -> filter f (map trim ls) = [].
Proof.
  intro Hf. induction 1 as [|l ls Hl Hls IH]; simpl; [reflexivity|].
  now rewrite (trim_spaces l Hl), Hf.
Qed.

Lemma pieces_space_cons (sep c : char) (s : jsstring) :
  is_space c = true -> pieces sep (c :: s) = pieces sep s.
Proof.
  intro Hc. unfold pieces. simpl. destruct (N.eqb c sep).
  - reflexivity.
  - destruct (split_nonempty sep s) as (h & t & ->).
    assert (E : trim (c :: h) = trim h) by (unfold trim; simpl; now rewrite Hc).
    cbn [map]. now rewrite E.
Qed.

Lemma pieces_pad_left (sep : char) (w s : jsstring) :
  spaces w -> pieces sep (w ++ s) = pieces sep s.
Proof.
  induction 1 as [|c w Hc Hw IH]; simpl; [reflexivity|].
  now rewrite pieces_space_cons.
Qed.

Lemma pieces_pad_right (sep : char) (s w : jsstring) :
  spaces w -> pieces sep (s ++ w) = pieces sep s.
Proof.
  intro H. unfold pieces. rewrite split_app.
  destruct (split_nonempty sep w) as (hw & tw & Ew). rewrite Ew. simpl hd. simpl tl.
  pose proof (split_spaces_any sep w H) as Hall. rewrite Ew in Hall.
  inversion Hall as [|? ? Hhw Htw]; subst.
  destruct (split_nonempty sep s) as (h & t & Es).
  assert (Hne : split sep s <> []) by (rewrite Es; discriminate).
  rewrite (app_removelast_last [] Hne) at 3.
  rewrite !map_app, !filter_app. f_equal.
  assert (E : trim (last (split sep s) [] ++ hw) = trim (last (split sep s) []))
    by exact (trim_pad [] _ hw (Forall_nil _) Hhw).
  cbn [map filter]. rewrite E, (pieces_blank _ tw eq_refl Htw). reflexivity.
Qed.

(** White space around a text does not change its pieces. *)
Lemma pieces_pad (sep : char) (w1 s w2 : jsstring) :
  spaces w1 -> spaces w2 -> pieces sep (w1 ++ s ++ w2) = pieces sep s.
Proof.
  intros H1 H2. now rewrite pieces_pad_left, pieces_pad_right.
Qed.

Lemma join_length (sep : char) (ls : list jsstring) :
  List.length (join [sep] ls) = Nat.pred (total ls).
Proof.
  induction ls as [|x ls IH]; [reflexivity|].
  destruct ls as [|y ls].
  - simpl. lia.
  - change (join [sep] (x :: y :: ls)) with (x ++ [sep] ++ join [sep] (y :: ls)).
    rewrite !length_app, IH. simpl. lia.
Qed.

Lemma split_total (sep : char) (s : jsstring) :
  total (split sep s) = S (List.length s).
Proof.
  induction s as [|c s IH]; [reflexivity|]. simpl.
  destruct (N.eqb c sep).
  - simpl. lia.
  - destruct (split sep s) as [|l ls]; simpl in *; lia.
Qed.

Lemma pieces_total (sep : char) (s : jsstring) :
  total (pieces sep s) <= S (List.length s).
Proof.
  unfold pieces. rewrite <- (split_total sep s).
  induction (split sep s) as [|l ls IH]; simpl; [lia|].
  pose proof (trim_length l).
  destruct (Nat.ltb 0 (List.length (trim l))); simpl; lia.
Qed.

End Lines.

(** ** The two compressors *)

Module Compressors.

Import Browser Lengths Lines.

Lemma strip_lines_pieces (code : jsstring) :
  strip_lines code = join [LF] (pieces LF code).
Proof. reflexivity. Qed.

Lemma strip_lines_length (code : jsstring) :
  List.length (strip_lines code) <= List.length code.
Proof.
  rewrite strip_lines_pieces, join_length.
  pose proof (pieces_total LF code). lia.
Qed.

(** X1. An input made of white space only (the empty input included) is
    compressed to the empty document, in both languages. *)
Theorem compress_blank_is_empty (code : jsstring) (l : Language) :
  spaces code -> compressedCode (compress code l) = [].
Proof.
  intro H. destruct l; unfold compress, compressDart, compressReact, result_of;
    cbn [compressedCode]; unfold compressDart_text, compressReact_text;
    rewrite (CompressDart.strip_lines_spaces code H); vm_compute; reflexivity.
Qed.

Lemma compress_blank_is_empty_witness :
  spaces [32; 10; 9]%N /\ compressedCode (compress [32; 10; 9]%N react) = [].
Proof.
  assert (H : spaces [32; 10; 9]%N) by (repeat constructor).
  split; [exact H | exact (compress_blank_is_empty [32; 10; 9]%N react H)].
Defined.

(** X2. The document that [compressReact] returns contains no newline
    character (U+000A), whatever the input. *)
Theorem compressReact_single_line (code : jsstring) :
  ~ In LF (compressedCode (compressReact code)).
Proof.
  unfold compressReact, result_of, compressReact_text, tidy_react, replace_all.
  cbn [compressedCode]. apply replace_go_delete_char.
Qed.

Ltac shrink_step :=
  match goal with
  | |- List.length (replace_all _ _ ?s) <= _ =>
      etransitivity; [apply replace_all_length; vm_compute; lia|]
  | |- List.length (replace_entries _ _ ?s) <= _ =>
      etransitivity;
      [apply (table_pass_length _ (fun e => snd e)); vm_compute; reflexivity|]
  | |- List.length (fold_left _ _ ?s) <= _ =>
      etransitivity; [apply fold_left_shrinks|]
  end.

Lemma compressDart_text_length (code : jsstring) :
  List.length (compressDart_text code) <= List.length code.
Proof.
  unfold compressDart_text, tidy. cbv zeta.
  repeat shrink_step. apply strip_lines_length.
Qed.

Lemma min_len_lits (s : jsstring) (r : regex) :
  min_len (lits s ++ r) = (List.length s + min_len r)%nat.
Proof. induction s as [|c s IH]; simpl; [reflexivity | now rewrite IH]. Qed.

Lemma replace_element_length (compressed : jsstring) (e : jsstring * jsstring) :
  List.length (snd e) <= List.length (fst e) ->
  List.length (replace_element compressed e) <= List.length compressed.
Proof.
  destruct e as [full abbrev]. simpl. intro Hlen. unfold replace_element.
  etransitivity; [apply replace_all_length | apply replace_all_length].
  - cbn [List.length min_len]. rewrite length_app, min_len_lits. simpl. lia.
  - cbn [List.length min_len app]. rewrite min_len_lits. simpl. lia.
Qed.

Lemma compressReact_text_length (code : jsstring) :
  List.length (compressReact_text code) <= List.length code.
Proof.
  unfold compressReact_text, tidy_react. cbv zeta.
  repeat shrink_step.
  - apply Forall_forall. intros e He acc. apply replace_all_length.
    revert e He. apply Forall_forall.
    repeat (constructor; [vm_compute; lia|]). constructor.
  - apply Forall_forall. intros e He acc. apply replace_element_length.
    revert e He. apply Forall_forall.
    repeat (constructor; [vm_compute; lia|]). constructor.
  - apply strip_lines_length.
Qed.

(** X3. Neither compressor ever returns a document longer than its input,
    so the estimated token count never grows. *)
Theorem compress_never_longer (code : jsstring) (l : Language) :
  List.length (compressedCode (compress code l)) <= List.length code
  /\ (compressedTokens (compress code l) <= originalTokens (compress code l))%Z.
Proof.
  assert (H : List.length (compressedCode (compress code l)) <= List.length code).
  { destruct l; unfold compress, compressDart, compressReact, result_of;
      cbn [compressedCode];
      [apply compressDart_text_length | apply compressReact_text_length]. }
  split; [exact H|].
  destruct l; unfold compress, compressDart, compressReact, result_of in *;
    cbn [compressedCode compressedTokens originalTokens] in *;
    unfold estimateTokens; apply Z.div_le_mono; lia.
Qed.

(** X4. White space before and after the input (blank lines included)
    does not change the document. *)
Theorem compress_ignores_outer_space (w1 code w2 : jsstring) (l : Language) :
  spaces w1 -> spaces w2 ->
  compressedCode (compress (w1 ++ code ++ w2) l) = compressedCode (compress code l).
Proof.
  intros H1 H2.
  assert (E : strip_lines (w1 ++ code ++ w2) = strip_lines code)
    by (rewrite !strip_lines_pieces; now rewrite pieces_pad).
  destruct l; unfold compress, compressDart, compressReact, result_of;
    cbn [compressedCode]; unfold compressDart_text, compressReact_text;
    now rewrite E.
Qed.

Lemma compress_ignores_outer_space_witness :
  spaces [10; 32]%N /\ spaces [32; 10]%N /\
  compressedCode (compress ([10; 32]%N ++ str "Row()" ++ [32; 10]%N) dart)
  = compressedCode (compress (str "Row()") dart).
Proof.
  assert (H1 : spaces [10; 32]%N) by (repeat constructor).
  assert (H2 : spaces [32; 10]%N) by (repeat constructor).
  split; [exact H1|]. split; [exact H2|].
  exact (compress_ignores_outer_space [10; 32]%N (str "Row()") [32; 10]%N dart H1 H2).
Defined.

End Compressors.

(** ** Replacing runs and classes *)

Module Runs.

Lemma star_run (p : char -> bool) (s : jsstring) (prev : option char) :
  star_match p (match_here []) prev s = Some (run p s).
Proof.
  revert prev. induction s as [|c t IH]; intro prev; simpl; [reflexivity|].
  destruct (p c); [now rewrite IH | reflexivity].
Qed.

Lemma plus_match (p : char -> bool) (s : jsstring) (prev : option char) :
  match_here [Plus p] prev s =
  match s with
  | c :: t => if p c then Some (S (run p t)) else None
  | [] => None
  end.
Proof.
  destruct s as [|c t]; [reflexivity|]. cbn [match_here].
  destruct (p c); [now rewrite star_run | reflexivity].
Qed.

Lemma firstn_run (p : char -> bool) (s : jsstring) :
  Forall (fun c => p c = true) (firstn (run p s) s).
Proof.
  induction s as [|c t IH]; simpl; [constructor|].
  destruct (p c) eqn:E; simpl; [now constructor | constructor].
Qed.

(** What a global replacement can contain: characters of the replacement
    and characters of the subject. *)
Lemma replace_go_incl (m : matcher) (rep s : jsstring) (x : char) :
  forall prev skip, In x (replace_go m rep prev skip s) -> In x rep \/ In x s.
Proof.
  induction s as [|c t IH]; intros prev skip H.
  - destruct skip; simpl in H; [|tauto].
    destruct (m prev []) as [[|n]|]; simpl in H; try tauto;
      rewrite app_nil_r in H; tauto.
  - destruct skip as [|k]; cbn [replace_go] in H.
    + destruct (m prev (c :: t)) as [[|n]|].
      * apply in_app_or in H as [H | [H | H]]; [tauto | subst; simpl; tauto |].
        apply IH in H. simpl. tauto.
      * apply in_app_or in H as [H | H]; [tauto|]. apply IH in H. simpl. tauto.
      * destruct H as [H | H]; [subst; simpl; tauto|]. apply IH in H. simpl. tauto.
    + apply IH in H. simpl. tauto.
Qed.

Lemma replace_all_incl (r : regex) (rep s : jsstring) (x : char) :
  In x (replace_all r rep s) -> In x rep \/ In x s.
Proof. apply replace_go_incl. Qed.

(** Deleting the characters of a class leaves none of them. *)
Lemma delete_class_none (p : char -> bool) (s : jsstring) (x : char) :
  In x (replace_all [Cls p] [] s) -> p x = false.
Proof.
  unfold replace_all. generalize (@None char).
  induction s as [|c t IH]; intros prev H; simpl in H; [tauto|].
  destruct (p c) eqn:E; simpl in H.
  - now apply IH in H.
  - destruct H as [<- | H]; [exact E | now apply IH in H].
Qed.

(** ... and changes nothing when there is none. *)
Lemma delete_class_id (p : char -> bool) (s : jsstring) :
  Forall (fun c => p c = false) s -> replace_all [Cls p] [] s = s.
Proof.
  intro H. unfold replace_all. generalize (@None char).
  induction H as [|c t Hc Ht IH]; intro prev; simpl; [reflexivity|].
  rewrite Hc. simpl. now rewrite IH.
Qed.

(** Replacing the runs of white space leaves no white space but that of
    the replacement. *)
Lemma replace_runs_no_space (rep s : jsstring) (x : char) :
  In x (replace_all [Plus is_space] rep s) -> In x rep \/ is_space x = false.
Proof.
  unfold replace_all. generalize (@None char) 0%nat.
  induction s as [|c t IH]; intros prev skip H.
  - destruct skip; simpl in H; tauto.
  - destruct skip as [|k]; cbn [replace_go] in H.
    + rewrite plus_match in H. destruct (is_space c) eqn:E.
      * apply in_app_or in H as [H | H]; [tauto | now apply IH in H].
      * destruct H as [<- | H]; [tauto | now apply IH in H].
    + now apply IH in H.
Qed.

(** After the replacement of the runs of white space by one space, the
    white space left is single spaces; the text begins with none when the
    leading run was skipped. *)
Lemma collapse_shape (s : jsstring) :
  forall prev skip,
    skip = 0%nat \/ skip = run is_space s ->
    single_spaced (replace_go (match_here [Plus is_space]) [32%N] prev skip s)
    /\ (skip = run is_space s ->
        head_not_space (replace_go (match_here [Plus is_space]) [32%N] prev skip s)).
Proof.
  induction s as [|c t IH]; intros prev skip Hs.
  - destruct skip; simpl; tauto.
  - destruct skip as [|k].
    + cbn [replace_go]. rewrite plus_match. destruct (is_space c) eqn:E.
      * destruct (IH (Some c) (run is_space t) (or_intror eq_refl)) as [H1 H2].
        specialize (H2 eq_refl). split.
        -- cbn [app single_spaced]. split; [|exact H1].
           intros _. split; [reflexivity | exact H2].
        -- simpl. rewrite E. discriminate.
      * destruct (IH (Some c) 0%nat (or_introl eq_refl)) as [H1 _]. split.
        -- cbn [single_spaced]. split; [|exact H1]. intro F. congruence.
        -- intros _. exact E.
    + destruct Hs as [Hs | Hs]; [discriminate|].
      simpl in Hs. destruct (is_space c) eqn:E; [|discriminate].
      injection Hs as ->. cbn [replace_go].
      destruct (IH (Some c) (run is_space t) (or_intror eq_refl)) as [H1 H2].
      split; [exact H1 | intros _; exact (H2 eq_refl)].
Qed.

(** A text whose white space is single spaces is left as it is. *)
Lemma collapse_id (s : jsstring) :
  single_spaced s ->
  forall prev, replace_go (match_here [Plus is_space]) [32%N] prev 0 s = s.
Proof.
  induction s as [|c t IH]; intros H prev; [reflexivity|].
  cbn [replace_go]. rewrite plus_match. destruct H as [Hc Ht].
  destruct (is_space c) eqn:E.
  - destruct (Hc eq_refl) as [-> Hn].
    assert (R : run is_space t = 0%nat).
    { destruct t as [|x t']; [reflexivity|]. simpl. simpl in Hn. now rewrite Hn. }
    rewrite R. simpl. now rewrite IH.
  - now rewrite IH.
Qed.

End Runs.

(** ** Answers *)

Module AnswerProps.

Import Answers Lines Runs.

Lemma split_no_sep (sep : char) (s : jsstring) :
  Forall (fun l => ~ In sep l) (split sep s).
Proof.
  induction s as [|c s IH]; simpl.
  - constructor; [tauto | constructor].
  - destruct (N.eqb_spec c sep) as [-> | Hne].
    + constructor; [tauto | exact IH].
    + destruct (split sep s) as [|l ls].
      * constructor; [|constructor]. simpl. intuition congruence.
      * inversion IH; subst. constructor; [|assumption].
        simpl. intuition congruence.
Qed.

Lemma split_app_sep (sep : char) (x rest : jsstring) :
  ~ In sep x -> split sep (x ++ sep :: rest) = x :: split sep rest.
Proof.
  induction x as [|c x IH]; intro H; simpl.
  - now rewrite N.eqb_refl.
  - destruct (N.eqb_spec c sep) as [-> | Hne]; [simpl in H; tauto|].
    rewrite IH by (simpl in H; tauto). reflexivity.
Qed.

Lemma split_no_sep_id (sep : char) (x : jsstring) :
  ~ In sep x -> split sep x = [x].
Proof.
  induction x as [|c x IH]; intro H; simpl; [reflexivity|].
  destruct (N.eqb_spec c sep) as [-> | Hne]; [simpl in H; tauto|].
  rewrite IH by (simpl in H; tauto). reflexivity.
Qed.

Lemma split_join (sep : char) (l : list jsstring) :
  Forall (fun e => ~ In sep e) l -> l <> [] -> split sep (join [sep] l) = l.
Proof.
  induction 1 as [|x l Hx Hl IH]; intro Hne; [contradiction|].
  destruct l as [|y l].
  - simpl. now apply split_no_sep_id.
  - change (join [sep] (x :: y :: l)) with (x ++ sep :: join [sep] (y :: l)).
    rewrite split_app_sep by exact Hx. rewrite IH by discriminate. reflexivity.
Qed.

Lemma pieces_csv_elements (value : jsstring) : Forall csv_element (parseCSV value).
Proof.
  unfold parseCSV. pose proof (split_no_sep (ch ",") value) as H.
  induction H as [|l ls Hl Hls IH]; simpl; [constructor|].
  destruct (trim l) as [|c r] eqn:E; simpl; [exact IH|].
  constructor; [|exact IH]. repeat split.
  - discriminate.
  - unfold trimmed. rewrite <- E. apply trim_idempotent.
  - intro Hin. apply Hl. apply trim_incl. now rewrite E.
Qed.

(** X5. Every element that [parseCSV] returns is non-empty, has no white
    space at either end and contains no comma. *)
Theorem parseCSV_elements (value : jsstring) : Forall csv_element (parseCSV value).
Proof. exact (pieces_csv_elements value). Qed.

Lemma csv_elements_kept (l : list jsstring) :
  Forall csv_element l ->
  filter (fun s => Nat.ltb 0 (List.length s)) (map trim l) = l.
Proof.
  induction 1 as [|e l (Hne & Ht & _) Hl IH]; [reflexivity|].
  cbn [map filter]. unfold trimmed in Ht. rewrite Ht.
  destruct e; [contradiction|]. simpl. now rewrite IH.
Qed.

(** X6. Joining such elements with commas and parsing the result gives the
    elements back. *)
Theorem parseCSV_join (l : list jsstring) :
  Forall csv_element l -> parseCSV (join [ch ","] l) = l.
Proof.
  intro H. destruct l as [|x l]; [reflexivity|].
  unfold parseCSV. rewrite split_join.
  - now apply csv_elements_kept.
  - apply Forall_impl with (2 := H). now intros e (_ & _ & Hc).
  - discriminate.
Qed.

Lemma parseCSV_join_witness :
  Forall csv_element [str "Row"; str "Text"] /\
  parseCSV (join [ch ","] [str "Row"; str "Text"]) = [str "Row"; str "Text"].
Proof.
  assert (H : Forall csv_element [str "Row"; str "Text"]).
  { repeat constructor; try discriminate; try reflexivity;
      intro F; vm_compute in F; intuition discriminate. }
  split; [exact H | exact (parseCSV_join _ H)].
Defined.

Lemma trimEnd_fixed_cons (c : char) (t : jsstring) :
  trimEnd (c :: t) = c :: t ->
  (t = [] /\ is_space c = false) \/ (t <> [] /\ trimEnd t = t).
Proof.
  simpl. destruct (trimEnd t) as [|x r] eqn:E.
  - destruct (is_space c) eqn:Hc; [discriminate|].
    intro H. injection H as <-. now left.
  - intro H. injection H as <-. right. split; [discriminate | reflexivity].
Qed.

Lemma trimEnd_cons_fixed (c : char) (t : jsstring) :
  t <> [] -> trimEnd t = t -> trimEnd (c :: t) = c :: t.
Proof.
  intros Hne E. simpl. rewrite E. destruct t; [contradiction | reflexivity].
Qed.

(** Replacing the runs of white space keeps a text free of white space at
    its end. *)
Lemma collapse_trimEnd (s : jsstring) :
  forall prev skip,
    skip = 0%nat \/ skip = run is_space s ->
    trimEnd s = s ->
    let R := replace_go (match_here [Plus is_space]) [32%N] prev skip s in
    trimEnd R = R /\ (s <> [] -> R <> []).
Proof.
  induction s as [|c t IH]; intros prev skip Hs Hfix R; subst R.
  - destruct skip; simpl; tauto.
  - destruct skip as [|k].
    + cbn [replace_go]. rewrite plus_match.
      destruct (trimEnd_fixed_cons c t Hfix) as [[-> Hc] | [Hne Ht]].
      * rewrite Hc. simpl. rewrite Hc. split; [reflexivity | discriminate].
      * destruct (is_space c) eqn:E.
        -- destruct (IH (Some c) (run is_space t) (or_intror eq_refl) Ht) as [H1 H2].
           split; [|discriminate]. cbn [app].
           apply trimEnd_cons_fixed; [now apply H2 | exact H1].
        -- destruct (IH (Some c) 0%nat (or_introl eq_refl) Ht) as [H1 H2].
           split; [|discriminate].
           apply trimEnd_cons_fixed; [now apply H2 | exact H1].
    + destruct Hs as [Hs | Hs]; [discriminate|].
      simpl in Hs. destruct (is_space c) eqn:E; [|discriminate].
      injection Hs as ->. cbn [replace_go].
      destruct (trimEnd_fixed_cons c t Hfix) as [[-> Hc] | [Hne Ht]]; [congruence|].
      destruct (IH (Some c) (run is_space t) (or_intror eq_refl) Ht) as [H1 H2].
      split; [exact H1 | intros _; now apply H2].
Qed.

Lemma array_includes_In (l : list jsstring) (x : jsstring) :
  array_includes l x = true <-> In x l.
Proof.
  unfold array_includes. rewrite existsb_exists. split.
  - intros (y & Hy & E). apply streqb_eq in E. now subst.
  - intro H. exists x. split; [exact H | apply streqb_refl].
Qed.

Lemma fold_set_add (l : list jsstring) :
  forall acc, NoDup acc ->
    NoDup (fold_left set_add l acc)
    /\ forall x, In x (fold_left set_add l acc) <-> In x acc \/ In x l.
Proof.
  induction l as [|y l IH]; intros acc Hacc; simpl.
  - split; [exact Hacc | intro x; tauto].
  - unfold set_add at 2 4. destruct (array_includes acc y) eqn:E.
    + destruct (IH acc Hacc) as [H1 H2]. split; [exact H1|].
      intro x. rewrite H2. apply array_includes_In in E.
      intuition (subst; auto).
    + assert (Hn : ~ In y acc).
      { intro F. apply array_includes_In in F. congruence. }
      assert (Hacc' : NoDup (acc ++ [y])).
      { apply NoDup_app; [exact Hacc | repeat constructor; simpl; tauto |].
        intros z Hz [<- | []]. contradiction. }
      destruct (IH (acc ++ [y]) Hacc') as [H1 H2]. split; [exact H1|].
      intro x. rewrite H2, in_app_iff. simpl. tauto.
Qed.

Lemma new_Set_NoDup (l : list jsstring) : NoDup (new_Set l).
Proof. apply (fold_set_add l [] (NoDup_nil _)). Qed.

Lemma new_Set_In (l : list jsstring) (x : jsstring) : In x (new_Set l) <-> In x l.
Proof.
  unfold new_Set. destruct (fold_set_add l [] (NoDup_nil _)) as [_ H].
  rewrite H. simpl. tauto.
Qed.

Lemma startsWith_includes (s sub : jsstring) :
  startsWith s sub = true -> includes_str s sub = true.
Proof. intro H. destruct s; cbn [includes_str]; now rewrite H. Qed.

Lemma includes_str_step (s t : jsstring) (c : char) :
  includes_str t s = true -> includes_str (c :: t) s = true.
Proof. intro H. cbn [includes_str]. rewrite H. apply orb_true_r. Qed.

(** A text that contains [x :: b] contains [b]. *)
Lemma includes_str_cons (s b : jsstring) (x : char) :
  includes_str s (x :: b) = true -> includes_str s b = true.
Proof.
  induction s as [|c t IH]; intro H.
  - simpl in H. discriminate.
  - cbn [includes_str] in H. apply orb_true_iff in H as [H | H].
    + cbn [startsWith] in H. apply andb_true_iff in H as [_ H].
      apply includes_str_step. now apply startsWith_includes.
    + apply includes_str_step. now apply IH.
Qed.

Lemma digit_facts (c : char) :
  is_digit c = true ->
  is_space c = false /\ N.eqb c (ch "-") = false /\ N.eqb c (ch "+") = false
  /\ not_digit_or_minus c = false.
Proof.
  unfold is_digit, in_range. intro H. apply andb_true_iff in H as [H1 H2].
  apply N.leb_le in H1. apply N.leb_le in H2.
  assert (Hr : forall lo hi, (hi < 48 \/ 57 < lo)%N -> in_range lo hi c = false).
  { intros lo hi Hlh. unfold in_range. apply andb_false_iff.
    destruct (N.leb_spec lo c), (N.leb_spec c hi); auto; lia. }
  assert (He : forall k, (k < 48 \/ 57 < k)%N -> N.eqb c k = false).
  { intros k Hk. apply N.eqb_neq. lia. }
  repeat split.
  - unfold is_space. rewrite !Hr, !He by lia. reflexivity.
  - apply He. vm_compute. left. reflexivity.
  - apply He. vm_compute. left. reflexivity.
  - unfold not_digit_or_minus, is_digit, in_range.
    apply N.leb_le in H1. apply N.leb_le in H2. now rewrite H1, H2.
Qed.

(** The leftmost run of a class, when there is one. *)
Lemma match_first_plus (p : char -> bool) (s : jsstring) :
  existsb p s = true ->
  exists m, match_first [Plus p] s = Some m /\ m <> [] /\ Forall (fun c => p c = true) m.
Proof.
  unfold match_first, exec. generalize (@None char).
  induction s as [|c t IH]; intros prev H; [discriminate|].
  cbn [exec_from]. rewrite plus_match. destruct (p c) eqn:E.
  - exists (c :: firstn (run p t) t). repeat split; [discriminate|].
    constructor; [exact E | apply firstn_run].
  - simpl in H. rewrite E in H. simpl in H.
    destruct (IH (Some c) H) as (m & Hm & Hne & Hall).
    destruct (exec_from (match_here [Plus p]) (Some c) t) as [[i n]|]; [|discriminate].
    exists m. repeat split; assumption.
Qed.

(** Rounding an integer that is not negative: the mantissa is never
    negative, so the result is a Number that is not NaN and not negative. *)
Lemma shr_1_nonneg (mrs : SpecFloat.shr_record) :
  (0 <= SpecFloat.shr_m mrs)%Z -> (0 <= SpecFloat.shr_m (SpecFloat.shr_1 mrs))%Z.
Proof.
  destruct mrs as [m r s]. cbn [SpecFloat.shr_m]. intro H.
  destruct m as [|[p|p|]|p]; cbn; lia.
Qed.

Lemma iter_shr_1_nonneg (n : positive) (mrs : SpecFloat.shr_record) :
  (0 <= SpecFloat.shr_m mrs)%Z ->
  (0 <= SpecFloat.shr_m (SpecFloat.iter_pos SpecFloat.shr_1 n mrs))%Z.
Proof.
  revert mrs. induction n as [n IH|n IH|]; intros mrs H; cbn [SpecFloat.iter_pos].
  - apply IH, IH, shr_1_nonneg, H.
  - apply IH, IH, H.
  - apply shr_1_nonneg, H.
Qed.

Lemma shr_fexp_nonneg (pr em m e : Z) (l : SpecFloat.location) :
  (0 <= m)%Z -> (0 <= SpecFloat.shr_m (fst (SpecFloat.shr_fexp pr em m e l)))%Z.
Proof.
  intro H. unfold SpecFloat.shr_fexp, SpecFloat.shr.
  assert (G : (0 <= SpecFloat.shr_m (SpecFloat.shr_record_of_loc m l))%Z)
    by (destruct l as [|[]]; exact H).
  destruct (_ - e)%Z; cbn [fst]; [exact G | now apply iter_shr_1_nonneg | exact G].
Qed.

Lemma round_nearest_even_nonneg (m : Z) (l : SpecFloat.location) :
  (0 <= m)%Z -> (0 <= SpecFloat.round_nearest_even m l)%Z.
Proof. intro H. destruct l as [|[]]; cbn; [| destruct (Z.even m) | |]; lia. Qed.

Lemma binary_round_aux_sign (pr em : Z) (m e : Z) (l : SpecFloat.location) :
  (0 <= m)%Z -> not_negative (SpecFloat.binary_round_aux pr em false m e l) = true.
Proof.
  intro H. unfold SpecFloat.binary_round_aux.
  pose proof (shr_fexp_nonneg pr em m e l H) as H1.
  destruct (SpecFloat.shr_fexp pr em m e l) as [mrs' e']. cbn [fst] in H1.
  pose proof (shr_fexp_nonneg pr em _ e' SpecFloat.loc_Exact
                (round_nearest_even_nonneg _ (SpecFloat.loc_of_shr_record mrs') H1)) as H2.
  destruct (SpecFloat.shr_fexp pr em _ e' SpecFloat.loc_Exact) as [mrs'' e''].
  cbn [fst] in H2.
  destruct (SpecFloat.shr_m mrs'') as [|p|p]; [reflexivity | | lia].
  destruct (Z.leb e'' _); reflexivity.
Qed.

Lemma to_Number_not_negative (z : Z) : (0 <= z)%Z -> not_negative (to_Number false z) = true.
Proof.
  intro H. unfold to_Number, SpecFloat.binary_normalize, SpecFloat.binary_round.
  destruct z as [|p|p]; [reflexivity | | lia].
  destruct (SpecFloat.shl_align _ _ _) as [mz ez].
  apply binary_round_aux_sign. lia.
Qed.

Lemma not_negative_not_NaN (x : Number) : not_negative x = true -> isNaN x = false.
Proof. destruct x; [reflexivity | reflexivity | discriminate | reflexivity]. Qed.

Lemma digits_value_nonneg (s : jsstring) (acc : Z) :
  (0 <= acc)%Z -> (0 <= digits_value acc s)%Z.
Proof.
  revert acc. induction s as [|x s IHs]; intros acc Ha; cbn [digits_value]; [exact Ha|].
  destruct (is_digit x); [|exact Ha].
  apply IHs. pose proof (N2Z.is_nonneg (x - 48)). lia.
Qed.

Lemma digits_parse (m : jsstring) :
  m <> [] -> Forall (fun c => is_digit c = true) m ->
  exists v, normalizeInteger m = Some v /\ not_negative v = true.
Proof.
  intros Hne Hall. unfold normalizeInteger. cbv zeta.
  rewrite delete_class_id
    by (apply Forall_impl with (2 := Hall); intros c Hc; now apply digit_facts).
  destruct m as [|c r]; [contradiction|].
  inversion Hall as [|? ? Hc Hr]; subst.
  destruct (digit_facts c Hc) as (Hs & Hm & Hp & _).
  unfold parseInt10. cbn [trimStart]. rewrite Hs, Hm, Hp, Hc.
  pose proof (to_Number_not_negative (digits_value 0 (c :: r))
                (digits_value_nonneg _ 0 (Z.le_refl 0))) as G.
  rewrite (not_negative_not_NaN _ G). eexists. split; [reflexivity | exact G].
Qed.

Lemma capital_match (s : jsstring) (prev : option char) :
  match_here [Cls is_upper; Star is_alpha] prev s =
  match s with
  | c :: t => if is_upper c then Some (S (run is_alpha t)) else None
  | [] => None
  end.
Proof.
  destruct s as [|c t]; [reflexivity|]. cbn [match_here].
  destruct (is_upper c); [now rewrite star_run | reflexivity].
Qed.

Lemma match_first_capital (s : jsstring) :
  existsb is_upper s = true ->
  exists c r, match_first [Cls is_upper; Star is_alpha] s = Some (c :: r)
              /\ is_upper c = true /\ Forall (fun x => is_alpha x = true) r.
Proof.
  unfold match_first, exec. generalize (@None char).
  induction s as [|c t IH]; intros prev H; [discriminate|].
  cbn [exec_from]. rewrite capital_match. destruct (is_upper c) eqn:E.
  - exists c, (firstn (run is_alpha t) t).
    split; [reflexivity|]. split; [exact E | apply firstn_run].
  - simpl in H. rewrite E in H. simpl in H.
    destruct (IH (Some c) H) as (c' & r & Hm & Hc & Hr).
    destruct (exec_from (match_here [Cls is_upper; Star is_alpha]) (Some c) t)
      as [[i n]|]; [|discriminate].
    exists c', r. repeat split; assumption.
Qed.

Section CaseMapping.

Variable toLowerCase : jsstring -> jsstring.
Variable toUpperCase : jsstring -> jsstring.

Lemma collapsed_single_spaced (s : jsstring) :
  single_spaced (replace_all space_run (str " ") s).
Proof.
  unfold replace_all, space_run. apply (collapse_shape _ None 0%nat). now left.
Qed.

(** X7. Whatever the case flag, the white space of a normalised string is
    single spaces (U+0020), never two in a row. *)
Theorem normalizeString_single_spaced (value : jsstring) (caseSensitive : bool) :
  single_spaced (normalizeString toLowerCase value caseSensitive).
Proof. unfold normalizeString. cbv zeta. apply collapsed_single_spaced. Qed.

(** X8. With [caseSensitive] set, a normalised string has no white space at
    either end and normalising it again changes nothing. *)
Theorem normalizeString_case_sensitive_canonical (value : jsstring) :
  trimmed (normalizeString toLowerCase value true)
  /\ normalizeString toLowerCase (normalizeString toLowerCase value true) true
     = normalizeString toLowerCase value true.
Proof.
  assert (T : trimmed (normalizeString toLowerCase value true)).
  { unfold normalizeString, replace_all, space_run. cbn [negb]. cbv zeta.
    change (str " ") with [32%N].
    assert (Hend : trimEnd (trim value) = trim value)
      by (unfold trim; apply trimEnd_idempotent).
    destruct (collapse_trimEnd (trim value) None 0%nat (or_introl eq_refl) Hend)
      as [H1 _].
    unfold trimmed, trim at 1.
    destruct (trim_head value) as [E | (c & r & E & Hc)].
    - rewrite E. reflexivity.
    - rewrite E in *. cbn [replace_go] in *. rewrite plus_match in *.
      rewrite Hc in *. simpl trimStart. rewrite Hc. exact H1. }
  split; [exact T|].
  unfold normalizeString at 1. cbn [negb]. cbv zeta.
  unfold trimmed in T. rewrite T.
  unfold replace_all, space_run. change (str " ") with [32%N].
  apply collapse_id. exact (collapsed_single_spaced (trim value)).
Qed.

Lemma setsEqual_spec (a b : list jsstring) :
  setsEqual toLowerCase a b = true <->
  List.length a = List.length b /\
  forall x, In x (map (fun s => normalizeString toLowerCase s false) a)
            <-> In x (map (fun s => normalizeString toLowerCase s false) b).
Proof.
  unfold setsEqual. cbv zeta.
  set (na := map (fun s => normalizeString toLowerCase s false) a).
  set (nb := map (fun s => normalizeString toLowerCase s false) b).
  destruct (Nat.eqb_spec (List.length a) (List.length b)) as [El | Nl]; cbn [negb];
    [|split; [discriminate | intros [F _]; contradiction]].
  pose proof (new_Set_NoDup na) as Da. pose proof (new_Set_NoDup nb) as Db.
  destruct (Nat.eqb_spec (List.length (new_Set na)) (List.length (new_Set nb)))
    as [Es | Ns]; cbn [negb].
  - rewrite forallb_forall. split.
    + intro H. split; [exact El|].
      assert (I1 : incl (new_Set na) (new_Set nb)).
      { intros x Hx. apply array_includes_In. now apply H. }
      assert (I2 : incl (new_Set nb) (new_Set na)).
      { apply NoDup_length_incl; [exact Da | lia | exact I1]. }
      intro x. rewrite <- (new_Set_In na), <- (new_Set_In nb). split; auto.
    + intros [_ H] x Hx. apply array_includes_In.
      apply new_Set_In. apply H. now apply new_Set_In.
  - split; [discriminate|]. intros [_ H]. exfalso. apply Ns.
    apply Nat.le_antisymm; apply NoDup_incl_length; try assumption;
      intros x Hx; apply new_Set_In; apply H; now apply new_Set_In.
Qed.

(** X9. [setsEqual] compares the lengths of the two arrays, the sizes of
    the two sets and one inclusion only; it holds exactly when the arrays
    have the same length and the same set of normalised elements. *)
Theorem setsEqual_iff (a b : list jsstring) :
  setsEqual toLowerCase a b = true <->
  List.length a = List.length b /\
  forall x, In x (map (fun s => normalizeString toLowerCase s false) a)
            <-> In x (map (fun s => normalizeString toLowerCase s false) b).
Proof. exact (setsEqual_spec a b). Qed.

Lemma every_equal_map (a b : list jsstring) :
  List.length a = List.length b ->
  every_equal toLowerCase a b = true ->
  map (fun s => normalizeString toLowerCase s false) a
  = map (fun s => normalizeString toLowerCase s false) b.
Proof.
  revert b. induction a as [|x a IH]; intros [|y b] Hl H; try discriminate;
    [reflexivity|].
  cbn [every_equal] in H. apply andb_true_iff in H as [H1 H2].
  apply streqb_eq in H1. simpl. rewrite H1. f_equal. apply IH; [|exact H2].
  simpl in Hl. lia.
Qed.

(** X19. Two arrays that are equal in order are equal as sets:
    [arraysEqual] implies [setsEqual]. *)
Theorem arraysEqual_setsEqual (a b : list jsstring) :
  arraysEqual toLowerCase a b = true -> setsEqual toLowerCase a b = true.
Proof.
  unfold arraysEqual. intro H.
  destruct (Nat.eqb_spec (List.length a) (List.length b)) as [El | Nl];
    [|discriminate].
  cbn [negb] in H. apply setsEqual_spec. split; [exact El|].
  intro x. now rewrite (every_equal_map a b El H).
Qed.

(** X20. The order of the elements does not matter to [setsEqual]: an array
    and any rearrangement of it are equal as sets. *)
Theorem setsEqual_permutation (a b : list jsstring) :
  Permutation a b -> setsEqual toLowerCase a b = true.
Proof.
  intro P. apply setsEqual_spec. split; [now apply Permutation_length|].
  intro x. split; apply Permutation_in; [|apply Permutation_sym];
    now apply Permutation_map.
Qed.

(** X21. For the answer type widget-name: when the cleaned response has a
    capital letter, the extracted answer begins with a capital letter and
    is made of letters only. *)
Theorem extractAnswer_widget_name (response : jsstring) :
  existsb is_upper (clean_response toLowerCase response) = true ->
  exists c r, extractAnswer toLowerCase response widget_name = c :: r
              /\ is_upper c = true /\ Forall (fun x => is_alpha x = true) r.
Proof.
  intro H. unfold extractAnswer. cbv zeta.
  destruct (match_first_capital _ H) as (c & r & -> & Hc & Hr).
  now exists c, r.
Qed.

(** X22. For the answer types number and string the extracted answer has
    no white space at either end. *)
Theorem extractAnswer_trimmed (response : jsstring) :
  trimmed (extractAnswer toLowerCase response number)
  /\ trimmed (extractAnswer toLowerCase response string_answer).
Proof.
  unfold extractAnswer, clean_response, trimmed. cbv zeta.
  split; apply trim_idempotent.
Qed.

(** X10. For the answer type integer: when the cleaned response has a
    decimal digit, the extracted answer is a non-empty run of digits, and
    [normalizeInteger] does not read it as null: it gives a Number that is
    not negative (the positive infinity when the run is too long). *)
Theorem extractAnswer_integer (response : jsstring) :
  existsb is_digit (clean_response toLowerCase response) = true ->
  extractAnswer toLowerCase response integer <> []
  /\ Forall (fun c => is_digit c = true) (extractAnswer toLowerCase response integer)
  /\ exists v, normalizeInteger (extractAnswer toLowerCase response integer) = Some v
               /\ not_negative v = true.
Proof.
  intro H. unfold extractAnswer. cbv zeta.
  destruct (match_first_plus is_digit _ H) as (m & -> & Hne & Hall).
  repeat split; try assumption. now apply digits_parse.
Qed.

(** X11. For the answer type boolean: a cleaned response that contains
    [invalid] or [incorrect] is extracted as [YES], because [valid] and
    [correct] are looked for first; the tests for [invalid] and [incorrect]
    never decide. *)
Theorem extractAnswer_boolean_invalid (response : jsstring) :
  includes_str (toLowerCase (clean_response toLowerCase response)) (str "invalid") = true
  \/ includes_str (toLowerCase (clean_response toLowerCase response)) (str "incorrect") = true ->
  extractAnswer toLowerCase response boolean = str "YES".
Proof.
  intro H. unfold extractAnswer. cbv zeta.
  assert (G : includes_str (toLowerCase (clean_response toLowerCase response)) (str "valid") = true
              \/ includes_str (toLowerCase (clean_response toLowerCase response)) (str "correct") = true).
  { destruct H as [H | H]; [left | right];
      now apply includes_str_cons, includes_str_cons in H. }
  destruct G as [-> | ->]; rewrite ?orb_true_r; reflexivity.
Qed.

Lemma split_incl (sep : char) (s : jsstring) (l : jsstring) (x : char) :
  In l (split sep s) -> In x l -> In x s.
Proof.
  revert l. induction s as [|c s IH]; intros l Hl Hx; simpl in Hl.
  - destruct Hl as [<- | []]. contradiction.
  - destruct (N.eqb c sep).
    + destruct Hl as [<- | Hl]; [contradiction|]. right. now apply (IH l).
    + destruct (split_nonempty sep s) as (h & t & E). rewrite E in *.
      destruct Hl as [<- | Hl].
      * destruct Hx as [<- | Hx]; [now left|]. right. apply (IH h); [now left | exact Hx].
      * right. apply (IH l); [now right | exact Hx].
Qed.

Lemma parseCSV_incl (value e : jsstring) (x : char) :
  In e (parseCSV value) -> In x e -> In x value.
Proof.
  unfold parseCSV. intros He Hx. apply filter_In in He as [He _].
  apply in_map_iff in He as (l & <- & Hl).
  apply (split_incl (ch ",") value l); [exact Hl | now apply trim_incl].
Qed.

Lemma clean_csv_chars (s : jsstring) :
  Forall (fun c => is_space c = false /\ is_bracket_or_quote c = false) (clean_csv s).
Proof.
  apply Forall_forall. intros x Hx. unfold clean_csv in Hx. split.
  - apply replace_runs_no_space in Hx as [[<- | []] | Hx]; [reflexivity | exact Hx].
  - apply replace_all_incl in Hx as [[<- | []] | Hx]; [reflexivity|].
    apply replace_all_incl in Hx as [[<- | []] | Hx]; [reflexivity|].
    now apply delete_class_none in Hx.
Qed.

(** X12. For the two list answer types the extracted answer contains no
    white space, no square bracket and no quote. *)
Theorem extractAnswer_csv_chars (response : jsstring) :
  let clean c := is_space c = false /\ is_bracket_or_quote c = false in
  Forall clean (extractAnswer toLowerCase response csv_list_ordered)
  /\ Forall clean (extractAnswer toLowerCase response csv_list_unordered).
Proof.
  intro clean. split; exact (clean_csv_chars (clean_response toLowerCase response)).
Qed.

(** X25. The elements that [parseCSV] reads from an extracted list answer
    are non-empty and contain no white space, no square bracket, no quote
    and no comma. *)
Theorem parseCSV_extractAnswer (response : jsstring) :
  Forall (fun e => e <> []
                   /\ Forall (fun c => is_space c = false /\ is_bracket_or_quote c = false
                                       /\ c <> ch ",") e)
         (parseCSV (extractAnswer toLowerCase response csv_list_unordered)).
Proof.
  apply Forall_forall. intros e He.
  pose proof (pieces_csv_elements (extractAnswer toLowerCase response csv_list_unordered)) as W.
  rewrite Forall_forall in W. destruct (W e He) as (Hne & _ & Hc).
  split; [exact Hne|]. apply Forall_forall. intros x Hx.
  pose proof (clean_csv_chars (clean_response toLowerCase response)) as G.
  change (clean_csv (clean_response toLowerCase response))
    with (extractAnswer toLowerCase response csv_list_unordered) in G.
  rewrite Forall_forall in G.
  destruct (G x (parseCSV_incl _ e x He Hx)) as [G1 G2].
  repeat split; try assumption. intros ->. contradiction.
Qed.

(** X13. Every short code of [WIDGET_ABBREVIATIONS], with any white space
    around it, is expanded to its widget name, whatever the case
    mappings. *)
Theorem normalizeWidgetName_expands (k v w1 w2 : jsstring) :
  In (k, v) Constants.WIDGET_ABBREVIATIONS -> spaces w1 -> spaces w2 ->
  normalizeWidgetName toLowerCase toUpperCase (w1 ++ k ++ w2) = Str v.
Proof.
  intros Hin H1 H2. unfold normalizeWidgetName. cbv zeta.
  rewrite (trim_pad w1 k w2 H1 H2).
  assert (F : forallb (fun e => streqb (trim (fst e)) (fst e)
                                && Nat.ltb 0 (List.length (snd e)))
                Constants.WIDGET_ABBREVIATIONS = true) by (vm_compute; reflexivity).
  rewrite forallb_forall in F. apply F in Hin as G.
  apply andb_true_iff in G as [Gk Gv]. apply streqb_eq in Gk. simpl in Gk, Gv.
  rewrite Gk. unfold read.
  rewrite (Tables.get_In _ k v Tables.WIDGET_ABBREVIATIONS_keys Hin).
  destruct v; [discriminate | reflexivity].
Qed.

End CaseMapping.

Lemma extractAnswer_integer_witness :
  existsb is_digit (clean_response ascii_lower (str "The answer is 42.")) = true
  /\ (extractAnswer ascii_lower (str "The answer is 42.") integer <> []
      /\ Forall (fun c => is_digit c = true)
           (extractAnswer ascii_lower (str "The answer is 42.") integer)
      /\ exists v, normalizeInteger
                     (extractAnswer ascii_lower (str "The answer is 42.") integer) = Some v
                   /\ not_negative v = true).
Proof.
  assert (H : existsb is_digit (clean_response ascii_lower (str "The answer is 42.")) = true)
    by (vm_compute; reflexivity).
  split; [exact H | exact (extractAnswer_integer ascii_lower (str "The answer is 42.") H)].
Defined.

Lemma arraysEqual_setsEqual_witness :
  arraysEqual ascii_lower [str "Row"; str " TEXT "] [str "row"; str "Text"] = true
  /\ setsEqual ascii_lower [str "Row"; str " TEXT "] [str "row"; str "Text"] = true.
Proof.
  assert (H : arraysEqual ascii_lower [str "Row"; str " TEXT "] [str "row"; str "Text"] = true)
    by (vm_compute; reflexivity).
  split; [exact H | exact (arraysEqual_setsEqual ascii_lower _ _ H)].
Defined.

Lemma setsEqual_permutation_witness :
  Permutation [str "Row"; str "Text"] [str "Text"; str "Row"]
  /\ setsEqual ascii_lower [str "Row"; str "Text"] [str "Text"; str "Row"] = true.
Proof.
  assert (P : Permutation [str "Row"; str "Text"] [str "Text"; str "Row"])
    by apply perm_swap.
  split; [exact P | exact (setsEqual_permutation ascii_lower _ _ P)].
Defined.

Lemma extractAnswer_widget_name_witness :
  existsb is_upper (clean_response ascii_lower (str "the widget is Column.")) = true
  /\ exists c r, extractAnswer ascii_lower (str "the widget is Column.") widget_name = c :: r
                 /\ is_upper c = true /\ Forall (fun x => is_alpha x = true) r.
Proof.
  assert (H : existsb is_upper (clean_response ascii_lower (str "the widget is Column.")) = true)
    by (vm_compute; reflexivity).
  split; [exact H | exact (extractAnswer_widget_name ascii_lower _ H)].
Defined.

Lemma extractAnswer_boolean_invalid_witness :
  includes_str (ascii_lower (clean_response ascii_lower (str "Answer: This is Invalid.")))
    (str "invalid") = true
  /\ extractAnswer ascii_lower (str "Answer: This is Invalid.") boolean = str "YES".
Proof.
  assert (H : includes_str
                (ascii_lower (clean_response ascii_lower (str "Answer: This is Invalid.")))
                (str "invalid") = true) by (vm_compute; reflexivity).
  split; [exact H|].
  exact (extractAnswer_boolean_invalid ascii_lower (str "Answer: This is Invalid.")
           (or_introl H)).
Defined.

Lemma normalizeWidgetName_expands_witness :
  In (str "Ic", str "Icon") Constants.WIDGET_ABBREVIATIONS /\ spaces [32%N] /\ spaces [10%N]
  /\ normalizeWidgetName ascii_lower ascii_upper ([32%N] ++ str "Ic" ++ [10%N])
     = Str (str "Icon").
Proof.
  assert (H : In (str "Ic", str "Icon") Constants.WIDGET_ABBREVIATIONS).
  { unfold Constants.WIDGET_ABBREVIATIONS, Constants.abbr. simpl. do 12 right. left.
    reflexivity. }
  assert (H1 : spaces [32%N]) by (repeat constructor).
  assert (H2 : spaces [10%N]) by (repeat constructor).
  split; [exact H|]. split; [exact H1|]. split; [exact H2|].
  exact (normalizeWidgetName_expands ascii_lower ascii_upper _ _ _ _ H H1 H2).
Defined.

(** X14. White space around a document does not change the verdict of the
    syntax check. *)
Theorem isValidCoonSyntax_ignores_outer_space (w1 code w2 : jsstring) :
  spaces w1 -> spaces w2 ->
  Normalize.isValidCoonSyntax (w1 ++ code ++ w2) = Normalize.isValidCoonSyntax code.
Proof.
  intros H1 H2. unfold Normalize.isValidCoonSyntax. now rewrite (trim_pad w1 code w2 H1 H2).
Qed.

Lemma isValidCoonSyntax_ignores_outer_space_witness :
  spaces [32%N] /\ spaces [10%N]
  /\ Normalize.isValidCoonSyntax ([32%N] ++ str "S{b" ++ [10%N])
     = Normalize.isValidCoonSyntax (str "S{b").
Proof.
  assert (H1 : spaces [32%N]) by (repeat constructor).
  assert (H2 : spaces [10%N]) by (repeat constructor).
  split; [exact H1|]. split; [exact H2|].
  exact (isValidCoonSyntax_ignores_outer_space [32%N] (str "S{b") [10%N] H1 H2).
Defined.

(** X23. A blank document (the empty one included) passes the syntax
    check. *)
Theorem isValidCoonSyntax_blank (code : jsstring) :
  spaces code -> Normalize.isValidCoonSyntax code = true.
Proof.
  intro H. unfold Normalize.isValidCoonSyntax. now rewrite (trim_spaces code H).
Qed.

Lemma isValidCoonSyntax_blank_witness :
  spaces [32; 10]%N /\ Normalize.isValidCoonSyntax [32; 10]%N = true.
Proof.
  assert (H : spaces [32; 10]%N) by (repeat constructor).
  split; [exact H | exact (isValidCoonSyntax_blank _ H)].
Defined.

(** X15. From short code to widget name and back: for every short code of
    [WIDGET_ABBREVIATIONS] but [Z], [REVERSE_WIDGET_MAP] gives the short
    code back ([Z] shares its widget name with the later code [Sz]). *)
Theorem REVERSE_WIDGET_MAP_inverts (k v : jsstring) :
  In (k, v) Constants.WIDGET_ABBREVIATIONS -> k <> str "Z" ->
  get Constants.REVERSE_WIDGET_MAP v = Some k.
Proof.
  intros Hin Hk.
  assert (F : forallb (fun e => streqb (fst e) (str "Z")
                                || match get Constants.REVERSE_WIDGET_MAP (snd e) with
                                   | Some k' => streqb k' (fst e)
                                   | None => false
                                   end)
                Constants.WIDGET_ABBREVIATIONS = true) by (vm_compute; reflexivity).
  rewrite forallb_forall in F. apply F in Hin. cbn [fst snd] in Hin.
  apply orb_true_iff in Hin as [E | E].
  - apply streqb_eq in E. contradiction.
  - destruct (get Constants.REVERSE_WIDGET_MAP v) as [k'|]; [|discriminate].
    apply streqb_eq in E. now subst.
Qed.

Lemma REVERSE_WIDGET_MAP_inverts_witness :
  In (str "Ic", str "Icon") Constants.WIDGET_ABBREVIATIONS /\ str "Ic" <> str "Z"
  /\ get Constants.REVERSE_WIDGET_MAP (str "Icon") = Some (str "Ic").
Proof.
  assert (H : In (str "Ic", str "Icon") Constants.WIDGET_ABBREVIATIONS).
  { unfold Constants.WIDGET_ABBREVIATIONS, Constants.abbr. simpl. do 12 right. left.
    reflexivity. }
  assert (N : str "Ic" <> str "Z") by discriminate.
  split; [exact H|]. split; [exact N|].
  exact (REVERSE_WIDGET_MAP_inverts _ _ H N).
Defined.

End AnswerProps.

(** ** The metrics of the report *)

Module Metrics.

Import Report AnswerProps.

Lemma filter_split_length {A : Type} (f : A -> bool) (l : list A) :
  (List.length (filter (fun x => negb (f x)) l) + List.length (filter f l)
   = List.length l)%nat.
Proof.
  induction l as [|x l IH]; simpl; [reflexivity|].
  destruct (f x); simpl; lia.
Qed.

Lemma filter_length_le {A : Type} (f : A -> bool) (l : list A) :
  List.length (filter f l) <= List.length l.
Proof.
  induction l as [|x l IH]; simpl; [lia|]. destruct (f x); simpl; lia.
Qed.

(** X16. In the metrics of a format the successful responses and the API
    errors add up to the questions of that format, the correct answers are
    among the successful responses, and no count exceeds the number of
    results. *)
Theorem calculateFormatMetrics_counts (results : list EvaluationResult) (fmt : CodeFormat) :
  let m := calculateFormatMetrics results fmt in
  (successfulResponses m + apiErrors m = totalQuestions m)%nat
  /\ correctAnswers m <= successfulResponses m
  /\ totalQuestions m <= List.length results.
Proof.
  unfold calculateFormatMetrics, partitionResults. cbn.
  repeat split.
  - apply filter_split_length.
  - apply filter_length_le.
  - apply filter_length_le.
Qed.

(** X26. When every result of a format is a failed call (or there is no
    result of that format), the accuracy, the averages and the efficiency
    score are 0: the divisions are guarded. *)
Theorem calculateFormatMetrics_all_failed (results : list EvaluationResult)
    (fmt : CodeFormat) :
  Forall (fun r => format_eqb (format r) fmt = true -> has_error r = true) results ->
  let m := calculateFormatMetrics results fmt in
  accuracy m = num 0 /\ avgTokens m = num 0 /\ avgLatencyMs m = num 0
  /\ efficiencyScore m = num 0 /\ correctAnswers m = 0%nat.
Proof.
  intro H.
  assert (E : filter (fun x => negb (has_error x))
                (filter (fun r => format_eqb (format r) fmt) results) = []).
  { induction H as [|r rs Hr Hrs IH]; [reflexivity|]. simpl.
    destruct (format_eqb (format r) fmt); [|exact IH].
    simpl. now rewrite (Hr eq_refl). }
  unfold calculateFormatMetrics, partitionResults. cbn. rewrite E.
  repeat split.
Qed.

Lemma calculateFormatMetrics_all_failed_witness :
  Forall (fun r => format_eqb (format r) coon = true -> has_error r = true) [failed_example]
  /\ accuracy (calculateFormatMetrics [failed_example] coon) = num 0.
Proof.
  assert (H : Forall (fun r => format_eqb (format r) coon = true -> has_error r = true)
                [failed_example]) by (repeat constructor).
  split; [exact H | exact (proj1 (calculateFormatMetrics_all_failed _ coon H))].
Defined.

Lemma successful_without_failed (l1 l2 : list EvaluationResult) (r : EvaluationResult)
    (f : EvaluationResult -> bool) :
  has_error r = true ->
  filter (fun x => negb (has_error x)) (filter f (l1 ++ r :: l2))
  = filter (fun x => negb (has_error x)) (filter f (l1 ++ l2)).
Proof.
  intro H. rewrite !filter_app. f_equal. simpl.
  destruct (f r); [simpl; now rewrite H | reflexivity].
Qed.

(** X17. A failed API call (a result with a non-empty error) counts in no
    average: with or without it, the accuracy, the correct answers, the
    average tokens and latency, the efficiency score and the number of
    successful responses of a format are the same. *)
Theorem failed_call_counts_in_no_average (l1 l2 : list EvaluationResult)
    (r : EvaluationResult) (fmt : CodeFormat) :
  has_error r = true ->
  let m := calculateFormatMetrics (l1 ++ r :: l2) fmt in
  let m' := calculateFormatMetrics (l1 ++ l2) fmt in
  accuracy m = accuracy m' /\ correctAnswers m = correctAnswers m'
  /\ avgTokens m = avgTokens m' /\ avgLatencyMs m = avgLatencyMs m'
  /\ efficiencyScore m = efficiencyScore m'
  /\ successfulResponses m = successfulResponses m'.
Proof.
  intro H. unfold calculateFormatMetrics, partitionResults. cbn.
  rewrite (successful_without_failed l1 l2 r _ H). repeat split.
Qed.

Lemma failed_call_counts_in_no_average_witness :
  has_error failed_example = true
  /\ accuracy (calculateFormatMetrics ([] ++ failed_example :: []) coon)
     = accuracy (calculateFormatMetrics ([] ++ []) coon).
Proof.
  assert (H : has_error failed_example = true) by reflexivity.
  split; [exact H|].
  exact (proj1 (failed_call_counts_in_no_average [] [] failed_example coon H)).
Defined.

Lemma sum_nat_cons (x : nat) (l : list nat) : sum_nat (x :: l) = (x + sum_nat l)%nat.
Proof. reflexivity. Qed.

Lemma count_one (ms : list jsstring) (x : jsstring) :
  NoDup ms -> In x ms ->
  sum_nat (map (fun m => if streqb x m then 1%nat else 0%nat) ms) = 1%nat.
Proof.
  induction 1 as [|m ms Hm Hms IH]; intro Hin; [contradiction|].
  simpl. destruct Hin as [-> | Hin].
  - rewrite streqb_refl.
    assert (Z0 : sum_nat (map (fun m => if streqb x m then 1%nat else 0%nat) ms) = 0%nat).
    { clear IH Hms. induction ms as [|y ms IHm]; [reflexivity|]. simpl.
      destruct (streqb x y) eqn:E.
      - apply streqb_eq in E. subst. exfalso. apply Hm. now left.
      - apply IHm. intro F. apply Hm. now right. }
    now rewrite Z0.
  - destruct (streqb x m) eqn:E.
    + apply streqb_eq in E. subst. contradiction.
    + now apply IH.
Qed.

(** Every result is counted for exactly one of a list of distinct models
    that has its model. *)
Lemma per_model_total (ms : list jsstring) (results : list EvaluationResult) :
  NoDup ms -> (forall r, In r results -> In (model r) ms) ->
  sum_nat (map (fun m => List.length (filter (fun r => streqb (model r) m) results)) ms)
  = List.length results.
Proof.
  intros Hnd. induction results as [|r rs IH]; intro Hin.
  - clear Hnd Hin. induction ms as [|m ms IHm]; simpl; [reflexivity | exact IHm].
  - assert (E : forall ms',
               sum_nat (map (fun m => List.length
                                        (filter (fun r0 => streqb (model r0) m) (r :: rs))) ms')
               = (sum_nat (map (fun m => if streqb (model r) m then 1%nat else 0%nat) ms')
                  + sum_nat (map (fun m => List.length
                                             (filter (fun r0 => streqb (model r0) m) rs)) ms'))%nat).
    { induction ms' as [|m ms' IHm]; [reflexivity|].
      cbn [map]. rewrite !sum_nat_cons, IHm. cbn [filter].
      destruct (streqb (model r) m); simpl; lia. }
    rewrite E, IH by (intros r0 Hr0; apply Hin; now right).
    rewrite (count_one ms (model r) Hnd) by (apply Hin; now left).
    reflexivity.
Qed.

(** X18. In a benchmark summary each model of the results is listed once,
    the evaluations of the models add up to the number of results, and so
    do the successful responses and the API errors of the whole. *)
Theorem createBenchmarkSummary_totals (name0 : jsstring)
    (results : list EvaluationResult) (formats0 : list CodeFormat) :
  let s := createBenchmarkSummary name0 results formats0 in
  NoDup (models s)
  /\ (forall m, In m (models s) <-> exists r, In r results /\ model r = m)
  /\ sum_nat (map totalEvaluations (sm_byModel s)) = List.length results
  /\ (ov_successfulResponses (overall s) + ov_apiErrors (overall s)
      = List.length results)%nat.
Proof.
  unfold createBenchmarkSummary, partitionResults. cbn.
  split; [apply new_Set_NoDup|]. split; [|split].
  - intro m. rewrite new_Set_In, in_map_iff.
    split; intros (r & H1 & H2); exists r; split; assumption.
  - rewrite map_map. unfold calculateModelMetrics, partitionResults. cbn.
    apply per_model_total; [apply new_Set_NoDup|].
    intros r Hr. apply new_Set_In. now apply in_map.
  - apply filter_split_length.
Qed.

Lemma get_set_format_same (o : list (CodeFormat * FormatMetrics)) (k : CodeFormat)
    (m : FormatMetrics) :
  get_format (set_format o k m) k = Some m.
Proof.
  induction o as [|[k' m'] o IH]; simpl.
  - now destruct k.
  - destruct (format_eqb k' k) eqn:E; simpl; rewrite E; [reflexivity | exact IH].
Qed.

Lemma get_set_format_other (o : list (CodeFormat * FormatMetrics)) (k k0 : CodeFormat)
    (m : FormatMetrics) :
  format_eqb k k0 = false -> get_format (set_format o k m) k0 = get_format o k0.
Proof.
  intro Hne. induction o as [|[k' m'] o IH]; simpl.
  - now rewrite Hne.
  - destruct (format_eqb k' k) eqn:E; simpl.
    + assert (k' = k) by (destruct k', k; try discriminate; reflexivity). subst k'.
      now rewrite Hne.
    + now rewrite IH.
Qed.

Lemma get_fold_set_format (g : CodeFormat -> FormatMetrics) (fs : list CodeFormat)
    (f : CodeFormat) :
  In f fs ->
  forall acc, get_format (fold_left (fun o fmt => set_format o fmt (g fmt)) fs acc) f
              = Some (g f).
Proof.
  induction fs as [|x fs IH]; intro Hin; [contradiction|]. intro acc. simpl.
  assert (D : In f fs \/ ~ In f fs).
  { clear. induction fs as [|y fs [H | H]]; [now right | left; now right |].
    destruct (format_eqb y f) eqn:E.
    - left. left. destruct y, f; try discriminate; reflexivity.
    - right. intros [-> | F]; [destruct f; discriminate | contradiction]. }
  destruct D as [H | H]; [now apply IH|].
  destruct Hin as [-> | Hin]; [|contradiction].
  clear IH. revert acc.
  assert (G : forall acc, get_format acc f = Some (g f) ->
                get_format (fold_left (fun o fmt => set_format o fmt (g fmt)) fs acc) f
                = Some (g f)).
  { induction fs as [|y fs IHf]; intros acc Ha; [exact Ha|]. simpl.
    apply IHf; [intro F; apply H; now right|].
    rewrite get_set_format_other; [exact Ha|].
    destruct (format_eqb y f) eqn:E; [|reflexivity].
    exfalso. apply H. left. destruct y, f; try discriminate; reflexivity. }
  intro acc. apply G. apply get_set_format_same.
Qed.

(** X24. In the metrics of a model, [byFormat] holds for each format asked
    for the metrics of that format over the results of the model. *)
Theorem calculateModelMetrics_byFormat (results : list EvaluationResult)
    (model0 : jsstring) (formats0 : list CodeFormat) (f : CodeFormat) :
  In f formats0 ->
  get_format (byFormat (calculateModelMetrics results model0 formats0)) f
  = Some (calculateFormatMetrics
            (filter (fun r => streqb (model r) model0) results) f).
Proof.
  intro H. unfold calculateModelMetrics, partitionResults. cbn.
  now apply (get_fold_set_format
               (calculateFormatMetrics (filter (fun r => streqb (model r) model0) results))).
Qed.

Lemma calculateModelMetrics_byFormat_witness :
  In coon [dart; coon]
  /\ get_format (byFormat (calculateModelMetrics [failed_example] (str "m") [dart; coon])) coon
     = Some (calculateFormatMetrics
               (filter (fun r => streqb (model r) (str "m")) [failed_example]) coon).
Proof.
  assert (H : In coon [dart; coon]) by (right; left; reflexivity).
  split; [exact H | exact (calculateModelMetrics_byFormat _ _ _ _ H)].
Defined.

End Metrics.
